(* ===== verification/_CoqProject ===== *)
-Q . S2P
Prelude.v
Tindex.v
Graph.v
Script.v
Derived.v
Degeneracy.v
Elimination.v
Peeling.v
Greedy.v
MinimalColoring.v
Bounds.v
Isomorphism.v
GreedySpec.v
Palette.v
Interplay.v
Sentinel.v
Release.v
Reference.v
Complete.v
Unwind.v
Session.v
