(* ===== verification/Prelude.v ===== *)
(** * A verification development for graphc (heuristic graph colouring)

    ** The program

    The program is one Rust file, [src/src/lib.rs]: an undirected graph kept
    as a dense table of adjacency bit sets ([Graph], [NodeId]) with the
    mutations [add_node], [add_edge], [remove_edge], the validation
    [check_invariants], and [minimal_coloring], a two-phase heuristic that
    returns a [Coloring].  Phase 1 (the loop ['outer]) repeatedly removes
    the first alive node with fewer than [k] alive neighbours, raising [k]
    to the least [connected + 1] when there is none, and pushes the nodes it
    removes on a stack; phase 2 pops the stack and gives each node the first
    colour of [0..k] that no neighbour recorded in the working table holds.
    The table and the bit sets come from the external crate [tindex]
    ([TVec], [TBitSet], [TIndex]), which is not part of the repository.

    ** Files, in dependency order

    - [Prelude] (this file): machine integers ([usize] is [N], with
      [usize_max] = 2^64 - 1 and the checked addition [usize_add]); panics as
      values (the type [panic], the error monad [result] with stdpp's bind
      notation, [assert], [unwrap]); the loop combinator [foldM] that models a
      [for] loop whose body may panic, with its loop rules ([foldM_ind],
      [foldM_inv], [foldM_total], [foldM_Err]); the hint database [graphc]
      and the tactics [simplify_result], [result_cases], [set_eq_solver];
      sums over lists.
    - [Tindex]: the part of the crate [tindex] that [lib.rs] calls, modelled
      from its interface.  The class [TIndex] (an index type is in bijection
      with [usize]); [TBitSet I] is [gset I] with [new], [add], [remove],
      [get], [is_empty], [element_count], [collect] and [iter], which yields
      the members in ascending index order; [TVec I T] is [list T] with
      [len], [push], [index] and [update] (which panic out of bounds),
      [index_iter] and [repeat].
    - [Graph]: [NodeId], [Graph], [new], [add_node], [add_edge],
      [remove_edge] and [check_invariants], each from the method of the same
      name; the invariants [bounded], [symmetric], [loop_free], [valid] (what
      [check_invariants] asserts) and [wf] (what the mutations maintain); the
      public interface as a transition system ([op], [apply_op], [step],
      [reachable], [run]); the graph of the unit test.
    - [Script]: [script_of], the calls that build a given table (its nodes,
      then its edges), and [script_ok], the test on a sequence of calls
      that tells whether it returns.
    - [Derived]: the derived implementations the program relies on:
      [node_eq], [node_ne] and [node_cmp] from [derive(PartialEq, Ord)] on
      [NodeId], [graph_clone] from [derive(Clone)] on [Graph].
    - [Degeneracy]: the interface between the two phases, the class
      [EliminationOrder], and the specification [proper] of the result; an
      executable test [order_check] for the class, sound and complete, which
      makes the class decidable, and a test [proper_check] that decides
      [proper]; the [degeneracy] of a table, defined by elimination
      orderings.
    - [Elimination]: phase 1.  The local variables [k], [stack], [graph],
      [alive] are the record [elim_state]; [scan] is the inner [for] loop up
      to [continue 'outer], [detach] the innermost loop, [eliminate] the body
      of [if connected < k], [round] one iteration of ['outer] and
      [elimination] the loop; [elim_inv] is the loop invariant.
    - [Peeling]: the abstract specification of phase 1, the transition
      system [peel] on the threshold, the stack and the alive set, and the
      abstraction [peel_of] of the local variables.
    - [Greedy]: phase 2.  [colors_init] is the initial table, [exclude] the
      loop over [graph[node]], [pick_color] the choice of the first free
      colour, [assign] the loop [while let Some(node) = stack.pop()].
    - [MinimalColoring]: the struct [Coloring], the method
      [minimal_coloring] as the composition of [check_invariants], phase 1
      and phase 2, and the unit test [simple] with its assertions.
    - [Bounds]: cliques, the chromatic number ([colorable], [chromatic]),
      [regular] graphs and the sum of the degrees ([degree_sum]), and the
      bounds on [k] that follow from [k] being the degeneracy plus one.
    - [Isomorphism]: the equivalence [isomorphic] of tables that differ by
      a renumbering of the nodes.
    - [GreedySpec]: the mathematical specification of phase 2, the greedy
      colouring [greedy] along an order, as a finite map ([mex] is the least
      number outside a set).
    - [Palette]: the colours a colouring uses ([colors_used]) and their
      number ([palette]), which the doc comment of [Coloring::k] and the
      specification take [k] to be.
    - [Interplay]: a mutation followed by a colouring; the preorder
      [subgraph] and the relation [k_after] between the [k] before a call
      and the [k] after it.
    - [Sentinel]: phase 2 once more, with the behaviour of
      [TBitSet::remove] on a value outside [0..k] left open
      ([minimal_coloring_with]).
    - [Release]: the method in a build without overflow checks, where
      [connected + 1] wraps around ([minimal_coloring_wrapping]).
    - [Reference]: [minimal_coloring_spec], the method with phase 2 reading
      the adjacency of the graph itself, as the specification words it.
    - [Complete]: the complete graphs [complete n], whole and less one
      edge.
    - [Unwind]: the mutations once more, in the monad [unwind] that keeps
      the graph a call leaves when it panics; [nodes_at] is one statement
      [self.nodes[a].add(b)] or [self.nodes[a].remove(b)], [add_node_mut],
      [add_edge_mut] and [remove_edge_mut] are the methods statement by
      statement, [shared] a method with [&self], [catch_unwind] the caller
      that catches the panic.
    - [Session]: a client that catches every panic and goes on ([session]),
      the invariant [half_wf] of the graphs it can hold, the calls
      [session_script] that build any of them and the two calls
      [broken_script] that leave the symmetric graphs.

    ** What is proved

    - Graph: each mutation is characterised on every branch, panics
      included ([edge_edges], [edge_panics], [add_node_next]); [add_edge]
      and [remove_edge] are idempotent and undo one another
      ([edge_roundtrip]); [add_edge] is symmetric in its arguments
      ([add_edge_comm]); [check_invariants] decides [valid]
      ([check_invariants_decides]) and never fails on a reachable graph
      ([reachable_checked]).
    - Reachability: the graphs a client builds with calls that return are
      exactly those that satisfy [wf] ([reachable_wf]): the mutations
      maintain it, and the calls [script_of] reads off a well-formed table
      return and build it ([script_of_run]).  Whether a sequence of calls
      returns depends on the calls alone, not on the edges: it returns
      exactly when [script_ok] holds, and panics with an index out of
      bounds otherwise ([script_ok_run]).
    - Phase 1: the scan stops at the alive node of least index with fewer
      than [k] neighbours, or returns the least [connected + 1]
      ([scan_outcomes]); every round keeps [elim_inv]
      ([round_preserves_inv]); the loop ends within [2 n] rounds, and
      within [n + k] when it returns [k] ([elimination_terminates],
      [elimination_rounds]),
      does not panic on a bounded table ([elimination_total]) and
      establishes [EliminationOrder] ([elimination_establishes_order]); [k]
      only grows and stays at most the largest degree plus one; the stack is
      a permutation of the nodes.
    - Phase 1 against its abstract specification: every reachable state of
      [peel] satisfies [peel_inv] (rule induction), every complete run ends
      with the degeneracy plus one whichever nodes it picks
      ([peel_inv_degeneracy], [peel_confluent_k]); a round of the loop is a
      step of [peel] ([round_peel]) and the loop a complete run
      ([elimination_refines_peel]), so the [k] returned does not depend on
      the order of the scan ([threshold_order_independent]).
    - Phase 2, from [EliminationOrder] alone: the colour chosen is the least
      free one ([pick_color_least]), [unwrap] never panics
      ([pick_color_total], [assign_init_total]), the table returned is
      [proper] ([assign_proper]) and it is the greedy colouring along the
      order in which the stack is popped ([assign_greedy]).
    - The whole method: on every valid graph with fewer than [usize::MAX]
      nodes it returns a proper colouring with [k] at most the largest
      degree plus one ([minimal_coloring_correct]); whenever it returns the
      colouring is proper and, on a graph without self-loops, [k] is the
      degeneracy plus one ([minimal_coloring_degeneracy]); the graph has a
      chromatic number ([colorable_dec], [colorable_chromatic]), the size
      of any clique is at most the chromatic number, which is at most [k],
      which is at most [d + 1] for any ordering with bound [d], and
      [k (k - 1)] is at most the sum of the degrees
      ([minimal_coloring_k_between]); [k] exceeds the least degree, so a
      regular graph gets its degree plus one however few colours it needs
      ([minimal_coloring_regular]); the colour of a node is at most its
      degree and all smaller colours occur among its neighbours
      ([minimal_coloring_grundy]), so the colours used are exactly the
      numbers below their count [m], the table is proper with [m] colours
      and [m] is at most [k], less on the 4-cycle ([colors_used_initial]);
      on an invalid graph it panics in [check_invariants], and on a valid
      one only when [connected + 1] overflows, which takes [usize::MAX]
      nodes ([minimal_coloring_panics]); it always terminates; graphs
      without edges are worked out.
    - Renumbering: [degeneracy] is [Proper] for [isomorphic], so the [k]
      returned does not depend on the numbering of the nodes
      ([minimal_coloring_isomorphic]).
    - Mutations and colouring together: [k] grows by one at most when an
      edge is added, shrinks by one at most when one is removed, and is
      left as it was by [add_node] unless the graph had no node
      ([mutation_k]); the two ends of an edge just added receive different
      colours ([add_edge_separates]).
    - Machine integers: the build without overflow checks returns what the
      checked build returns ([minimal_coloring_wrapping_equiv]).
    - The crate [tindex]: on a graph without self-loops the result does not
      depend on what [TBitSet::remove] does with the sentinel or any other
      value outside [0..k], because it is never called on one
      ([minimal_coloring_sentinel_unused]); on every valid graph with a
      self-loop it is called on the sentinel, so the method panics with a
      bit set that panics there and returns with one that does not
      ([self_loop_removes_sentinel]).
    - Reference: the method of the source and the variant of the
      specification return the same result ([minimal_coloring_spec_equiv]).
    - Complete graphs: [k = n] and [n] different colours
      ([minimal_coloring_complete]).  The unit test [tests::simple] colours
      the complete graph on four nodes less one edge; what it asserts holds
      for every size and every edge taken away: [k = n - 1], the two ends
      of the missing edge share a colour and no other two nodes do
      ([minimal_coloring_less_one_edge]).  The test itself returns
      ([simple_passes], by computation).
    - Panics: the model that keeps the graph agrees with [Graph] on every
      call that returns and panics alike ([outcome_apply_op]); the nodes
      and edges after any call are given whether it returns or not
      ([add_edge_mut_adj], [remove_edge_mut_adj]); a [remove_edge] that
      panics has changed nothing ([remove_edge_panic_safe]); an [add_edge]
      that panics on its second endpoint has recorded the edge at the
      first, and [remove_edge] takes it away again
      ([add_edge_panic_state]).
    - Sessions: the graphs held by a client that catches panics are exactly
      those that satisfy [half_wf] ([session_half_wf]); from any graph
      with a node, an [add_edge] to the next identifier that panics and the
      [add_node] after it leave a graph that is not symmetric, on which
      [check_invariants] and [minimal_coloring] panic
      ([session_breaks_symmetry]).

    ** Conventions

    - A Rust panic (index out of bounds, a failed [assert!], [unwrap] on
      [None], arithmetic overflow in a build with overflow checks) is the
      value [Err p]; a function that may panic returns [result A].  Nothing
      is caught in the source, so [Err] propagates to the caller.
    - Mutation through [&mut self] is explicit state passing: an operation
      takes the old value and returns the new one.  [self.nodes.clone()] is
      the identity on values, so the caller's graph is never changed by
      [minimal_coloring].  In [Graph] a call that panics returns no graph;
      [Unwind] returns the graph together with the outcome, and is the model
      to use for a caller that survives the panic.
    - The head of the list [st_stack] is the top of the stack.
    - The predicates are more exact than the comments they come from.
      [proper] asks for different colours at the two ends of an edge
      between distinct nodes only, because [check_invariants] accepts a
      self-loop, at which no table differs; [wf] adds to the symmetry of
      the comment in [Graph] the bounds that [check_invariants] asserts and
      the absence of self-loops that [add_edge] maintains;
      [EliminationOrder] and [elim_inv] spell out the comments on the
      working graph in [minimal_coloring].
    - A property of the program is a theorem of the last section of its
      file, stated on the definitions and proved from the lemmas of the
      sections before it; where it has hypotheses, the lemma named
      [..._witness] after it applies it to the graph of the unit test or
      another concrete input.

    ** Bounds and fuel

    - [OutOfFuel] is not a panic of the program: it marks the model of the
      [while] loop ['outer] running out of its iteration budget.  The budget
      is [elim_fuel], twice the number of nodes: a round either eliminates a
      node or raises [k], and a round that raises [k] is followed by one
      that eliminates ([raise_then_eliminate]), so the measure [rounds_left]
      decreases in every round.  No hypothesis on the graph is needed.  A
      loop that returns has used [n + k] rounds at most for the [k] it
      returns ([elimination_rounds]).
    - [usize] is [N]; the width matters at two places only, and both are
      modelled: [usize::max_value()] as the initial [min_k] and as the
      sentinel of the colour table, and the addition [connected + 1], which
      is checked in [Elimination] and wraps around in [Release].  The
      theorems that exclude panics assume fewer than [usize_max] nodes,
      which every table that fits in memory satisfies.

    ** Not modelled

    - The representation of [TBitSet] as words and of [TVec] as a buffer.
      The source of the crate [tindex] is not part of the repository, so a
      model of its layout could not be checked against anything; both types
      are modelled by what their operations return.  Two facts are taken
      from the specification and not from code: iteration over a set
      yields its members in ascending index order, and removing an absent
      member changes nothing.  What removing a value outside the range of
      the set does is left open in [Sentinel].
    - Allocation failure.  Of unwinding, the graph left to a caller that
      catches the panic is modelled ([Unwind], [Session]); destructors (the
      program has none of its own) and a graph shared between threads are
      not.
    - The derived implementations of [Debug] and [Hash], which the program
      never calls. *)

From stdpp Require Import sorting base tactics option numbers sets list.

#[local] Set Warnings "-clear-no-such-hyp".

(** ** Machine integers *)

(** [usize] values are kept as binary naturals; the width only matters where
    the source uses [usize::max_value()] as a sentinel and where it adds. *)
Abbreviation usize := N (only parsing).

Definition usize_max : usize := 18446744073709551615%N.

(** ** Panics as values *)

Inductive panic : Set :=
| IndexOutOfBounds
| AssertionFailed
| UnwrapNone
| AddOverflow
| OutOfFuel.

Inductive result (A : Type) : Type :=
| Ok (a : A)
| Err (e : panic).

Arguments Ok {A} a.
Arguments Err {A} e.

#[global] Instance panic_eq_dec : EqDecision panic.
Proof. solve_decision. Defined.

#[global] Instance result_eq_dec `{EqDecision A} : EqDecision (result A).
Proof. solve_decision. Defined.

#[global] Instance result_ret : MRet result := @Ok.

#[global] Instance result_bind : MBind result :=
  λ A B f r, match r with Ok a => f a | Err e => Err e end.

#[global] Instance result_fmap : FMap result :=
  λ A B f r, match r with Ok a => Ok (f a) | Err e => Err e end.

Definition is_ok {A} (r : result A) : bool :=
  match r with Ok _ => true | Err _ => false end.

(** [assert!(b)] *)
Definition assert (b : bool) : result unit :=
  if b then Ok () else Err AssertionFailed.

(** [o.unwrap()] *)
Definition unwrap {A} (o : option A) : result A :=
  match o with Some a => Ok a | None => Err UnwrapNone end.

(** [a + b] on [usize] with overflow checks on. *)
Definition usize_add (a b : usize) : result usize :=
  if decide (a + b ≤ usize_max)%N then Ok (a + b)%N else Err AddOverflow.

(** [for x in l { s = f(s, x)? }]: a loop over a snapshot [l] of an iterator
    whose body updates the state [s] and may panic. *)
Fixpoint foldM {A S : Type} (f : S → A → result S) (s : S) (l : list A)
    : result S :=
  match l with
  | [] => Ok s
  | x :: l => s' ← f s x; foldM f s' l
  end.

(** ** Notation *)

Declare Scope result_scope.
Delimit Scope result_scope with result.
Notation "r '=ok' a" := (r = Ok a) (at level 70, no associativity) : result_scope.
Notation "'panics' r 'with' e" := (r = Err e) (at level 70, no associativity) : result_scope.
Open Scope result_scope.

(** ** Automation *)

Create HintDb graphc discriminated.

Section result_lemmas.
Context {A B : Type}.
Implicit Types (r : result A) (f : A → result B).

Lemma bind_Ok r f b : r ≫= f = Ok b ↔ ∃ a, r = Ok a ∧ f a = Ok b.
Proof. destruct r; simpl; naive_solver. Qed.

Lemma bind_Err r f e :
  r ≫= f = Err e ↔ r = Err e ∨ ∃ a, r = Ok a ∧ f a = Err e.
Proof. destruct r; simpl; naive_solver. Qed.

Lemma fmap_Ok (g : A → B) r b : g <$> r = Ok b ↔ ∃ a, r = Ok a ∧ b = g a.
Proof. destruct r; simpl; naive_solver. Qed.

Lemma is_ok_true r : is_ok r = true ↔ ∃ a, r = Ok a.
Proof. destruct r; simpl; naive_solver. Qed.

Lemma unwrap_Ok (o : option A) a : unwrap o = Ok a ↔ o = Some a.
Proof. destruct o; simpl; naive_solver. Qed.

End result_lemmas.

Lemma assert_Ok b u : assert b = Ok u ↔ b = true.
Proof. destruct b, u; simpl; naive_solver. Qed.

Lemma assert_Err b e : assert b = Err e ↔ b = false ∧ e = AssertionFailed.
Proof. destruct b; simpl; naive_solver. Qed.

Lemma usize_add_Ok a b c :
  usize_add a b = Ok c ↔ (c = a + b ∧ a + b ≤ usize_max)%N.
Proof. unfold usize_add. case_decide; naive_solver. Qed.

Lemma usize_add_Err a b e :
  usize_add a b = Err e ↔ (usize_max < a + b)%N ∧ e = AddOverflow.
Proof. unfold usize_add. case_decide; split; try naive_solver lia. Qed.

(** [simplify_result] turns every hypothesis that a monadic computation
    returned [Ok] into the facts about its steps. *)
Ltac simplify_result_step :=
  match goal with
  | H : Ok _ = Ok _ |- _ => injection H as H
  | H : Err _ = Err _ |- _ => injection H as H
  | H : Ok _ = Err _ |- _ => discriminate H
  | H : Err _ = Ok _ |- _ => discriminate H
  | H : mret _ = Ok _ |- _ => injection H as H
  | H : _ ≫= _ = Ok _ |- _ =>
      apply bind_Ok in H; destruct H as (? & ? & H)
  | H : assert _ = Ok _ |- _ => apply assert_Ok in H
  | H : unwrap _ = Ok _ |- _ => apply unwrap_Ok in H
  | H : usize_add _ _ = Ok _ |- _ => apply usize_add_Ok in H; destruct H
  end.

Ltac simplify_result := repeat (simplify_result_step; simplify_eq/=).

(** [set_eq_solver] proves an equation between sets member by member. *)
Ltac set_eq_solver := apply set_eq; intros ?; set_solver.

(** [result_cases r] splits on the outcome of [r], keeping the equation. *)
Tactic Notation "result_cases" constr(r) "as" ident(x) ident(H) :=
  destruct r as [x|?] eqn:H; simpl; [|try done].

(** ** Loops *)

Section foldM.
Context {A S : Type} (f : S → A → result S).
Implicit Types (s : S) (l : list A).

Lemma foldM_app s l1 l2 :
  foldM f s (l1 ++ l2) = foldM f s l1 ≫= λ s', foldM f s' l2.
Proof.
  revert s. induction l1 as [|x l1 IH]; intros s; simpl; [done|].
  destruct (f s x); simpl; auto.
Qed.

Lemma foldM_snoc s l x : foldM f s (l ++ [x]) = foldM f s l ≫= λ s', f s' x.
Proof.
  rewrite foldM_app. destruct (foldM f s l) as [s'|]; simpl; [|done].
  by destruct (f s' x).
Qed.

(** The loop rule: an invariant indexed by the elements already visited. *)
Lemma foldM_ind (P : list A → S → Prop) l s s' :
  P [] s →
  (∀ pre a s s', pre ++ [a] `prefix_of` l →
     P pre s → f s a = Ok s' → P (pre ++ [a]) s') →
  foldM f s l = Ok s' → P l s'.
Proof.
  revert s'. induction l as [|x l IH] using rev_ind; intros s' H0 Hstep Hrun.
  - simpl in Hrun. by simplify_eq.
  - rewrite foldM_snoc in Hrun. apply bind_Ok in Hrun as (s1 & Hrun & Hx).
    apply (Hstep l x s1); [done| |done].
    apply IH; [done| |done]. intros pre a t t' Hpre.
    apply Hstep. etrans; [done|]. by apply prefix_app_r.
Qed.

(** The same with an invariant of the state alone. *)
Lemma foldM_inv (P : S → Prop) l s s' :
  P s →
  (∀ a s s', a ∈ l → P s → f s a = Ok s' → P s') →
  foldM f s l = Ok s' → P s'.
Proof.
  intros H0 Hstep. apply (foldM_ind (λ _, P)); [done|].
  intros pre a t t' [k ->]. apply Hstep. set_solver.
Qed.

(** A loop whose body never panics under the invariant does not panic. *)
Lemma foldM_total (P : S → Prop) l s :
  P s →
  (∀ a s, a ∈ l → P s → ∃ s', f s a = Ok s' ∧ P s') →
  ∃ s', foldM f s l = Ok s' ∧ P s'.
Proof.
  revert s. induction l as [|x l IH]; intros s H0 Hstep; simpl; [eauto|].
  destruct (Hstep x s) as (s1 & -> & H1); [set_solver|done|]. simpl.
  apply IH; [done|]. intros a t Ha. apply Hstep. set_solver.
Qed.

(** The first panic of the body is the panic of the loop. *)
Lemma foldM_Err l s e :
  foldM f s l = Err e →
  ∃ pre a post s', l = pre ++ a :: post ∧ foldM f s pre = Ok s' ∧ f s' a = Err e.
Proof.
  revert s. induction l as [|x l IH]; intros s; simpl; [done|].
  destruct (f s x) as [s1|e1] eqn:Hx; simpl.
  - intros (pre & a & post & s' & -> & Hpre & Ha)%IH.
    exists (x :: pre), a, post, s'. simpl. by rewrite Hx.
  - intros [= ->]. by exists [], x, l, s.
Qed.

End foldM.

(** A loop of checks (no state) succeeds exactly when every check does. *)
Lemma foldM_unit_Ok {A} (f : A → result unit) (l : list A) u :
  foldM (λ _ a, f a) () l = Ok u ↔ ∀ a, a ∈ l → f a = Ok ().
Proof.
  destruct u. induction l as [|x l IH]; simpl; [set_solver|].
  destruct (f x) as [[]|e] eqn:Hx; simpl.
  - rewrite IH. set_solver.
  - split; [done|]. intros Hall. specialize (Hall x). rewrite Hx in Hall.
    discriminate Hall. left.
Qed.

Lemma foldM_unit_Err {A} (f : A → result unit) (l : list A) e :
  foldM (λ _ a, f a) () l = Err e → ∃ a, a ∈ l ∧ f a = Err e.
Proof.
  intros (pre & a & post & [] & -> & _ & Ha)%foldM_Err.
  exists a. split; [set_solver|done].
Qed.

(** ** Sums over lists *)

Section sums.
Context {A : Type} (f : A → nat).

(** A sum over some of the elements is at most the sum over all. *)
Lemma sum_list_with_submseteq l l' :
  l ⊆+ l' → sum_list_with f l ≤ sum_list_with f l'.
Proof. induction 1; simpl; lia. Qed.

(** A sum of terms that are at least [m]. *)
Lemma sum_list_with_ge l m :
  (∀ x, x ∈ l → m ≤ f x) → length l * m ≤ sum_list_with f l.
Proof.
  induction l as [|x l IH]; intros Hm; simpl; [lia|].
  pose proof (Hm x ltac:(left)). pose proof (IH ltac:(set_solver)). lia.
Qed.

End sums.
