(* ===== verification/Tindex.v ===== *)
(** * The [tindex] crate as the program uses it

    [src/src/lib.rs] keeps its data in three types of the external crate
    [tindex]: the trait [TIndex] of typed indices, the bit set [TBitSet<I>]
    and the typed vector [TVec<I, T>].  The crate is not part of the
    repository, so this file models the operations the program calls from
    their documented behaviour:

    - [TIndex]: a type of indices is in bijection with the [usize] it wraps;
    - [TBitSet]: a finite set of indices ([gset I]); [iter] yields the
      members in ascending index order, [element_count] their number;
    - [TVec]: a list indexed by [as_index]; reading or writing past the end
      panics with [IndexOutOfBounds]; [push] returns the index of the new
      slot.

    The receiver ([self]) is the first argument of every operation. *)

From stdpp Require Import sorting gmap numbers list.
From S2P Require Import Prelude.

#[local] Set Warnings "-clear-no-such-hyp".

(** ** Typed indices *)

Class TIndex (I : Type) `{Countable I} := {
  as_index : I → usize;
  from_usize : usize → I;
  as_index_from_usize n : as_index (from_usize n) = n;
  from_usize_as_index i : from_usize (as_index i) = i
}.

#[global] Hint Mode TIndex ! - - : typeclass_instances.

#[global] Program Instance usize_TIndex : TIndex N :=
  {| as_index := id; from_usize := id |}.
Solve Obligations with done.

Section tindex.
Context {I : Type} `{Countable I} `{!TIndex I}.
Implicit Types i j : I.

(** The position of an index in a table. *)
Definition idx (i : I) : nat := N.to_nat (as_index i).

(** The index of a position. *)
Definition of_idx (n : nat) : I := from_usize (N.of_nat n).

Definition index_le (i j : I) : Prop := (as_index i ≤ as_index j)%N.
Definition index_lt (i j : I) : Prop := (as_index i < as_index j)%N.

#[global] Instance index_le_dec : RelDecision index_le.
Proof. intros i j. unfold index_le. apply _. Defined.

#[global] Instance index_lt_dec : RelDecision index_lt.
Proof. intros i j. unfold index_lt. apply _. Defined.

#[global] Instance as_index_inj : Inj (=) (=) (as_index (I:=I)).
Proof.
  intros i j Hij. rewrite <-(from_usize_as_index i), <-(from_usize_as_index j).
  by rewrite Hij.
Qed.

#[global] Instance idx_inj : Inj (=) (=) idx.
Proof. intros i j Hij. apply (inj as_index). unfold idx in Hij. lia. Qed.

Lemma idx_of_idx n : idx (of_idx n) = n.
Proof. unfold idx, of_idx. rewrite as_index_from_usize. lia. Qed.

Lemma of_idx_idx i : of_idx (idx i) = i.
Proof. unfold idx, of_idx. rewrite N2Nat.id. apply from_usize_as_index. Qed.

#[global] Instance of_idx_inj : Inj (=) (=) of_idx.
Proof. intros m n Hmn. by rewrite <-(idx_of_idx m), Hmn, idx_of_idx. Qed.

Lemma index_lt_idx i j : index_lt i j ↔ idx i < idx j.
Proof. unfold index_lt, idx. lia. Qed.

Lemma index_le_idx i j : index_le i j ↔ idx i ≤ idx j.
Proof. unfold index_le, idx. lia. Qed.

#[global] Instance index_le_po : PartialOrder index_le.
Proof.
  split; [split|].
  - intros i. unfold index_le. lia.
  - intros i j k. unfold index_le. lia.
  - intros i j Hij Hji. apply (inj as_index). unfold index_le in *. lia.
Qed.

#[global] Instance index_le_total : Total index_le.
Proof. intros i j. unfold index_le. lia. Qed.

#[global] Instance index_lt_strict : StrictOrder index_lt.
Proof.
  split.
  - intros i. unfold complement, index_lt. lia.
  - intros i j k. unfold index_lt. lia.
Qed.

Lemma index_le_lt i j : index_le i j → i ≠ j → index_lt i j.
Proof.
  rewrite index_le_idx, index_lt_idx. intros Hle Hne.
  assert (idx i ≠ idx j) by (intros ?%(inj idx); done). lia.
Qed.

End tindex.

(** ** Bit sets *)

Abbreviation TBitSet I := (gset I) (only parsing).

Module TBitSet.
Section ops.
Context {I : Type} `{Countable I} `{!TIndex I}.
Implicit Types (s : gset I) (i j : I).

(** [TBitSet::new()] *)
Definition new : TBitSet I := ∅.

(** [s.add(i)] *)
Definition add s i : TBitSet I := {[i]} ∪ s.

(** [s.remove(i)]: clearing an absent bit changes nothing. *)
Definition remove s i : TBitSet I := s ∖ {[i]}.

(** [s.get(i)] *)
Definition get s i : bool := bool_decide (i ∈ s).

(** [s.is_empty()] *)
Definition is_empty s : bool := bool_decide (s = ∅).

(** [s.element_count()] *)
Definition element_count s : usize := N.of_nat (size s).

(** [s.iter()]: the members, lowest index first. *)
Definition iter s : list I := merge_sort index_le (elements s).

(** [it.collect()] into a bit set. *)
Definition collect (l : list I) : TBitSet I := list_to_set l.

#[global] Instance set_unfold_add s i x Q :
  SetUnfoldElemOf x s Q → SetUnfoldElemOf x (add s i) (x = i ∨ Q).
Proof. intros [HQ]. constructor. unfold add. set_solver. Qed.

#[global] Instance set_unfold_remove s i x Q :
  SetUnfoldElemOf x s Q → SetUnfoldElemOf x (remove s i) (Q ∧ x ≠ i).
Proof. intros [HQ]. constructor. unfold remove. set_solver. Qed.

#[global] Instance set_unfold_new x : SetUnfoldElemOf x (new : gset I) False.
Proof. constructor. unfold new. set_solver. Qed.

#[global] Instance set_unfold_collect l x Q :
  SetUnfoldElemOf x l Q → SetUnfoldElemOf x (collect l) Q.
Proof. intros [HQ]. constructor. unfold collect. set_solver. Qed.

Lemma elem_of_collect (l : list I) i : i ∈ collect l ↔ i ∈ l.
Proof. unfold collect. apply elem_of_list_to_set. Qed.

Lemma get_true s i : get s i = true ↔ i ∈ s.
Proof. unfold get. apply bool_decide_eq_true. Qed.

Lemma get_false s i : get s i = false ↔ i ∉ s.
Proof. unfold get. apply bool_decide_eq_false. Qed.

Lemma is_empty_true s : is_empty s = true ↔ s = ∅.
Proof. unfold is_empty. apply bool_decide_eq_true. Qed.

Lemma is_empty_false s : is_empty s = false ↔ s ≠ ∅.
Proof. unfold is_empty. apply bool_decide_eq_false. Qed.

Lemma add_idemp s i : add (add s i) i = add s i.
Proof. set_solver. Qed.

Lemma remove_idemp s i : remove (remove s i) i = remove s i.
Proof. set_solver. Qed.

Lemma add_present s i : i ∈ s → add s i = s.
Proof. set_solver. Qed.

Lemma remove_absent s i : i ∉ s → remove s i = s.
Proof. set_solver. Qed.

Lemma remove_add s i : i ∉ s → remove (add s i) i = s.
Proof. set_solver. Qed.

Lemma add_remove s i : i ∈ s → add (remove s i) i = s.
Proof.
  intros Hi. apply set_eq. intros j. destruct (decide (j = i)); set_solver.
Qed.

Lemma element_count_remove s i :
  i ∈ s → (element_count (remove s i) + 1 = element_count s)%N.
Proof.
  intros Hi. unfold element_count, remove.
  rewrite size_difference by set_solver. rewrite size_singleton.
  assert (size s ≠ 0) by (intros ?%size_empty_inv; set_solver). lia.
Qed.

Lemma element_count_mono s1 s2 :
  s1 ⊆ s2 → (element_count s1 ≤ element_count s2)%N.
Proof. intros ?%subseteq_size. unfold element_count. lia. Qed.

Lemma element_count_add_le s1 s2 i :
  s1 ⊆ add s2 i → (element_count s1 ≤ element_count s2 + 1)%N.
Proof.
  intros Hsub%subseteq_size. unfold element_count, add in *.
  rewrite size_union_alt, size_singleton in Hsub.
  assert (size (s2 ∖ {[i]}) ≤ size s2) by (apply subseteq_size; set_solver).
  lia.
Qed.

(** *** Iteration order *)

Lemma elem_of_iter s i : i ∈ iter s ↔ i ∈ s.
Proof. unfold iter. rewrite merge_sort_Permutation. apply elem_of_elements. Qed.

Lemma NoDup_iter s : NoDup (iter s).
Proof. unfold iter. rewrite merge_sort_Permutation. apply NoDup_elements. Qed.

Lemma length_iter s : length (iter s) = size s.
Proof. unfold iter. by rewrite merge_sort_Permutation. Qed.

Lemma iter_sorted_le s : StronglySorted index_le (iter s).
Proof. apply (StronglySorted_merge_sort _). Qed.

Lemma sorted_le_lt (l : list I) :
  StronglySorted index_le l → NoDup l → StronglySorted index_lt l.
Proof.
  induction 1 as [|x l Hl IH Hx]; intros Hnd; constructor.
  - apply IH. by eapply NoDup_cons_1_2.
  - apply NoDup_cons in Hnd as [Hx' _].
    rewrite Forall_forall in Hx |- *. intros y Hy.
    apply index_le_lt; [by apply Hx|]. intros ->. by apply Hx'.
Qed.

Lemma sorted_lt_le (l : list I) :
  StronglySorted index_lt l → StronglySorted index_le l ∧ NoDup l.
Proof.
  induction 1 as [|x l Hl [IH1 IH2] Hx]; split; constructor; try done.
  - eapply Forall_impl; [done|]. unfold index_lt, index_le. intros; lia.
  - intros Hin. rewrite Forall_forall in Hx.
    by eapply (irreflexivity index_lt), Hx.
Qed.

Lemma iter_sorted s : StronglySorted index_lt (iter s).
Proof. apply sorted_le_lt; [apply iter_sorted_le|apply NoDup_iter]. Qed.

(** The iteration order is determined by the members alone. *)
Lemma iter_unique s (l : list I) :
  StronglySorted index_lt l → (∀ i, i ∈ l ↔ i ∈ s) → iter s = l.
Proof.
  intros [Hl Hnd]%sorted_lt_le Hel.
  apply (StronglySorted_unique index_le); [apply iter_sorted_le|done|].
  apply NoDup_Permutation; [apply NoDup_iter|done|].
  intros i. by rewrite elem_of_iter, Hel.
Qed.

Lemma iter_collect (l : list I) :
  StronglySorted index_lt l → iter (collect l) = l.
Proof. intros Hl. apply iter_unique; [done|]. set_solver. Qed.

Lemma iter_new : iter (new : gset I) = [].
Proof. apply iter_unique; [constructor|]. set_solver. Qed.

Lemma iter_nil s : iter s = [] ↔ s = ∅.
Proof.
  split; [|intros ->; apply iter_new].
  intros Hnil. apply set_eq. intros i.
  rewrite <-elem_of_iter, Hnil. set_solver.
Qed.

(** The first member yielded is the one of least index. *)
Lemma iter_head s i l :
  iter s = i :: l → i ∈ s ∧ ∀ j, j ∈ s → index_le i j.
Proof.
  intros Hit. pose proof (iter_sorted_le s) as Hs. rewrite Hit in Hs.
  apply StronglySorted_inv in Hs as [_ Hs]. rewrite Forall_forall in Hs.
  split; [apply elem_of_iter; rewrite Hit; left|].
  intros j Hj%elem_of_iter. rewrite Hit in Hj.
  apply elem_of_cons in Hj as [->|?]; [reflexivity|auto].
Qed.

(** A member not yielded before [i] has an index at least that of [i]. *)
Lemma iter_split s pre i post j :
  iter s = pre ++ i :: post → j ∈ s → j ∈ pre ∨ index_le i j.
Proof.
  intros Hit Hj%elem_of_iter. pose proof (iter_sorted_le s) as Hs.
  rewrite Hit in Hs, Hj. apply StronglySorted_app_1_r in Hs.
  apply elem_of_app in Hj as [?|Hj]; [by left|right].
  apply StronglySorted_inv in Hs as [_ Hs]. rewrite Forall_forall in Hs.
  apply elem_of_cons in Hj as [->|?]; [reflexivity|auto].
Qed.

End ops.
End TBitSet.

(** ** Typed vectors *)

Abbreviation TVec I T := (list T) (only parsing).

Module TVec.
Section ops.
Context {I : Type} `{Countable I} `{!TIndex I} {T : Type}.
Implicit Types (v : list T) (i j : I) (x : T).

(** [TVec::new()] *)
Definition new : TVec I T := [].

(** [v.len()] *)
Definition len v : usize := N.of_nat (length v).

(** [i] names a slot of [v]. *)
Definition in_bounds v i : Prop := idx i < length v.

(** [v.push(x)]: the new table and the index of the slot just added. *)
Definition push v x : TVec I T * I := (v ++ [x], from_usize (len v)).

(** [v[i]] read; past the end it panics. *)
Definition index v i : result T :=
  match v !! idx i with
  | Some x => Ok x
  | None => Err IndexOutOfBounds
  end.

(** [v[i]] borrowed mutably and changed in place by [f]. *)
Definition update v i (f : T → T) : result (TVec I T) :=
  match v !! idx i with
  | Some x => Ok (<[idx i := f x]> v)
  | None => Err IndexOutOfBounds
  end.

(** [v[i] = x] *)
Definition set v i x : result (TVec I T) := update v i (λ _, x).

(** [v.index_iter()]: every index of the table, in ascending order. *)
Definition index_iter v : list I := of_idx <$> seq 0 (length v).

(** [tvec![x; n]] *)
Definition repeat x (n : usize) : TVec I T := replicate (N.to_nat n) x.

#[global] Instance in_bounds_dec v i : Decision (in_bounds v i).
Proof. unfold in_bounds. apply _. Defined.

Lemma in_bounds_lookup v i : in_bounds v i ↔ is_Some (v !! idx i).
Proof. unfold in_bounds. by rewrite lookup_lt_is_Some. Qed.

Lemma in_bounds_len v i : in_bounds v i ↔ (as_index i < len v)%N.
Proof. unfold in_bounds, len, idx. lia. Qed.

Lemma index_Ok v i x : index v i = Ok x ↔ v !! idx i = Some x.
Proof. unfold index. destruct (v !! idx i); naive_solver. Qed.

Lemma index_Err v i e :
  index v i = Err e ↔ ¬ in_bounds v i ∧ e = IndexOutOfBounds.
Proof.
  unfold index, in_bounds. destruct (v !! idx i) eqn:Hl.
  - apply lookup_lt_Some in Hl. naive_solver lia.
  - apply lookup_ge_None in Hl. naive_solver lia.
Qed.

Lemma index_in_bounds v i : in_bounds v i → ∃ x, index v i = Ok x.
Proof. intros [x Hx]%in_bounds_lookup. exists x. by apply index_Ok. Qed.

Lemma update_Ok v i f v' :
  update v i f = Ok v' ↔ ∃ x, v !! idx i = Some x ∧ v' = <[idx i := f x]> v.
Proof. unfold update. destruct (v !! idx i); naive_solver. Qed.

Lemma update_Err v i f e :
  update v i f = Err e ↔ ¬ in_bounds v i ∧ e = IndexOutOfBounds.
Proof.
  unfold update, in_bounds. destruct (v !! idx i) eqn:Hl.
  - apply lookup_lt_Some in Hl. naive_solver lia.
  - apply lookup_ge_None in Hl. naive_solver lia.
Qed.

Lemma update_in_bounds v i f :
  in_bounds v i → ∃ x, v !! idx i = Some x ∧ update v i f = Ok (<[idx i := f x]> v).
Proof.
  intros [x Hx]%in_bounds_lookup. exists x. split; [done|].
  apply update_Ok. eauto.
Qed.

Lemma update_length v i f v' : update v i f = Ok v' → length v' = length v.
Proof. intros (x & _ & ->)%update_Ok. apply length_insert. Qed.

Lemma update_lookup v i f v' j :
  update v i f = Ok v' →
  v' !! idx j = if decide (i = j) then f <$> v !! idx j else v !! idx j.
Proof.
  intros (x & Hx & ->)%update_Ok. case_decide as Hij.
  - subst j. rewrite Hx. apply list_lookup_insert_eq. by eapply lookup_lt_Some.
  - apply list_lookup_insert_ne. by intros ?%(inj idx).
Qed.

Lemma update_in_bounds_iff v i f v' j :
  update v i f = Ok v' → in_bounds v' j ↔ in_bounds v j.
Proof. intros Hu. unfold in_bounds. by rewrite (update_length _ _ _ _ Hu). Qed.

Lemma len_repeat x n : len (repeat x n) = n.
Proof. unfold len, repeat. rewrite length_replicate. lia. Qed.

Lemma lookup_repeat x n k y :
  repeat x n !! k = Some y ↔ y = x ∧ (N.of_nat k < n)%N.
Proof. unfold repeat. rewrite lookup_replicate. naive_solver lia. Qed.

(** *** The indices of a table *)

Lemma elem_of_index_iter v i : i ∈ index_iter v ↔ in_bounds v i.
Proof.
  unfold index_iter, in_bounds. rewrite list_elem_of_fmap. split.
  - intros (n & -> & Hn%elem_of_seq). rewrite idx_of_idx. lia.
  - intros Hi. exists (idx i). rewrite of_idx_idx, elem_of_seq. split; [done|lia].
Qed.

#[global] Instance set_unfold_index_iter v i :
  SetUnfoldElemOf i (index_iter v) (in_bounds v i).
Proof. constructor. apply elem_of_index_iter. Qed.

Lemma index_iter_app v w :
  index_iter (v ++ w) = index_iter v ++ (of_idx <$> seq (length v) (length w)).
Proof. unfold index_iter. by rewrite length_app, seq_app, fmap_app. Qed.

Lemma of_idx_seq_sorted (m n : nat) :
  StronglySorted (index_lt (I:=I)) (of_idx <$> seq m n).
Proof.
  revert m. induction n as [|n IH]; intros m; simpl; constructor; [apply IH|].
  apply Forall_forall. intros i (k & -> & Hk%elem_of_seq)%list_elem_of_fmap.
  rewrite index_lt_idx, !idx_of_idx. lia.
Qed.

Lemma index_iter_sorted v : StronglySorted (index_lt (I:=I)) (index_iter v).
Proof. apply of_idx_seq_sorted. Qed.

Lemma length_index_iter v : length (index_iter v) = length v.
Proof. unfold index_iter. by rewrite length_fmap, length_seq. Qed.

(** *** Appending a slot *)

Lemma push_idx v x : idx (push v x).2 = length v.
Proof. unfold push, len. simpl. apply idx_of_idx. Qed.

Lemma push_fresh v x : ¬ in_bounds v (push v x).2.
Proof. unfold in_bounds. rewrite push_idx. lia. Qed.

Lemma push_in_bounds v x i :
  in_bounds (push v x).1 i ↔ in_bounds v i ∨ i = (push v x).2.
Proof.
  pose proof (push_idx v x) as Hp. unfold in_bounds, push in *. simpl in *.
  rewrite length_app. simpl. split.
  - intros Hi. destruct (decide (idx i < length v)); [by left|right].
    apply (inj idx). lia.
  - intros [Hi| ->]; lia.
Qed.

Lemma push_lookup_old v x i : in_bounds v i → (push v x).1 !! idx i = v !! idx i.
Proof. intros Hi. simpl. by apply lookup_app_l. Qed.

Lemma push_lookup_new v x : (push v x).1 !! idx (push v x).2 = Some x.
Proof. rewrite push_idx. simpl. by apply list_lookup_middle. Qed.

End ops.
End TVec.
