(* ===== verification/Graph.v ===== *)
(** * The graph: node table, mutations and the invariant check

    Models [NodeId], [Graph] and the methods [new], [check_invariants],
    [add_node], [add_edge] and [remove_edge] of [src/src/lib.rs].  A graph is
    the table [nodes] of adjacency bit sets; a method that takes [&mut self]
    returns the new graph, and one that can panic returns a [result].

    The invariants are stated on the adjacency relation [adj]:
    [bounded] and [symmetric] are what [check_invariants] tests ([valid]);
    together with [loop_free] they are what the mutations maintain ([wf]).
    The public interface is also given as a transition system ([op], [step],
    [reachable]) so that "every graph a client can build" is a definition. *)

From stdpp Require Import sorting gmap numbers list.
From S2P Require Import Prelude Tindex.

#[local] Set Warnings "-clear-no-such-hyp".

(** ** Node identifiers *)

(** [pub struct NodeId(usize)] *)
Record NodeId : Set := MkNodeId { node_index : usize }.

#[global] Instance NodeId_eq_dec : EqDecision NodeId.
Proof. solve_decision. Defined.

#[global] Instance NodeId_countable : Countable NodeId.
Proof. by apply (inj_countable' node_index MkNodeId); intros []. Defined.

(** [impl From<usize> for NodeId] and [impl TIndex for NodeId] *)
#[global] Program Instance NodeId_TIndex : TIndex NodeId :=
  {| as_index := node_index; from_usize := MkNodeId |}.
Next Obligation. done. Qed.
Next Obligation. by intros []. Qed.

(** ** The graph *)

(** [pub struct Graph { nodes: TVec<NodeId, TBitSet<NodeId>> }] *)
Record Graph : Type := MkGraph { nodes : TVec NodeId (TBitSet NodeId) }.

(** [<Graph as Default>::default()] (named [graph_default]: [default] is
    stdpp's function on options). *)
Definition graph_default : Graph := {| nodes := TVec.new |}.

(** [Graph::new()] *)
Definition new : Graph := graph_default.

(** The two assertions of [check_invariants] on one neighbour [b] of [a]. *)
Definition check_edge (g : Graph) (a b : NodeId) : result unit :=
  _ ← assert (bool_decide (node_index b < TVec.len (nodes g))%N);
  s ← TVec.index (nodes g) b;
  assert (TBitSet.get s a).

(** The inner loop of [check_invariants]: every neighbour of [a]. *)
Definition check_node (g : Graph) (a : NodeId) : result unit :=
  s ← TVec.index (nodes g) a;
  foldM (λ _ b, check_edge g a b) () (TBitSet.iter s).

(** [g.check_invariants()]: [Ok ()] when no assertion fails. *)
Definition check_invariants (g : Graph) : result unit :=
  foldM (λ _ a, check_node g a) () (TVec.index_iter (nodes g)).

(** [g.add_node()] *)
Definition add_node (g : Graph) : Graph * NodeId :=
  let '(v, id) := TVec.push (nodes g) TBitSet.new in ({| nodes := v |}, id).

(** [g.add_edge(a, b)] *)
Definition add_edge (g : Graph) (a b : NodeId) : result Graph :=
  if decide (a ≠ b) then
    v ← TVec.update (nodes g) a (λ s, TBitSet.add s b);
    v ← TVec.update v b (λ s, TBitSet.add s a);
    Ok {| nodes := v |}
  else Ok g.

(** [g.remove_edge(a, b)] *)
Definition remove_edge (g : Graph) (a b : NodeId) : result Graph :=
  v ← TVec.update (nodes g) a (λ s, TBitSet.remove s b);
  v ← TVec.update v b (λ s, TBitSet.remove s a);
  Ok {| nodes := v |}.

(** ** The adjacency relation and the invariants *)

(** The neighbours recorded for [a] in a table of adjacency sets; a node
    outside the table has none. *)
Definition nbrs (v : list (gset NodeId)) (a : NodeId) : gset NodeId :=
  default ∅ (v !! idx a).

Definition adj (g : Graph) (a b : NodeId) : Prop := b ∈ nbrs (nodes g) a.

Definition node_of (g : Graph) (a : NodeId) : Prop := TVec.in_bounds (nodes g) a.

Definition bounded (g : Graph) : Prop := ∀ a b, adj g a b → node_of g b.
Definition symmetric (g : Graph) : Prop := ∀ a b, adj g a b → adj g b a.
Definition loop_free (g : Graph) : Prop := ∀ a, ¬ adj g a a.

(** What [check_invariants] establishes. *)
Definition valid (g : Graph) : Prop := bounded g ∧ symmetric g.

(** What the mutations maintain. *)
Definition wf (g : Graph) : Prop := valid g ∧ loop_free g.

(** A test for self-loops among the nodes of the table. *)
Definition has_loop (g : Graph) : bool :=
  bool_decide (Exists (λ a, a ∈ nbrs (nodes g) a) (TVec.index_iter (nodes g))).

(** [graph[a].element_count()]: the number of neighbours a table records
    for [a]. *)
Definition connected (graph : list (gset NodeId)) (a : NodeId) : usize :=
  TBitSet.element_count (nbrs graph a).

(** The number of neighbours of [a] in a graph. *)
Definition degree (g : Graph) (a : NodeId) : usize := connected (nodes g) a.

(** The largest degree of a node of the table ([0] for the empty graph). *)
Definition max_degree (g : Graph) : usize :=
  foldr N.max 0%N (degree g <$> TVec.index_iter (nodes g)).

(** ** The interface as a transition system *)

Inductive op : Set :=
| AddNode
| AddEdge (a b : NodeId)
| RemoveEdge (a b : NodeId).

Definition apply_op (g : Graph) (o : op) : result Graph :=
  match o with
  | AddNode => Ok (add_node g).1
  | AddEdge a b => add_edge g a b
  | RemoveEdge a b => remove_edge g a b
  end.

(** A call that returns (does not panic) takes [g] to [g']. *)
Inductive step (g : Graph) : Graph → Prop :=
| step_op o g' : apply_op g o = Ok g' → step g g'.

(** The graphs a client can build from [Graph::new()]. *)
Inductive reachable : Graph → Prop :=
| reachable_new : reachable new
| reachable_step g g' : reachable g → step g g' → reachable g'.

(** Running a whole script of calls. *)
Definition run (g : Graph) (os : list op) : result Graph := foldM apply_op g os.

(** ** The graph of the test [simple] *)

Definition node_a : NodeId := MkNodeId 0.
Definition node_b : NodeId := MkNodeId 1.
Definition node_c : NodeId := MkNodeId 2.
Definition node_d : NodeId := MkNodeId 3.

(** The calls of the test, in order. *)
Definition simple_script : list op :=
  [AddNode; AddNode; AddNode; AddNode;
   AddEdge node_a node_c; AddEdge node_a node_d;
   AddEdge node_b node_c; AddEdge node_b node_d; AddEdge node_c node_d].

(** The graph they build. *)
Definition simple_graph : Graph :=
  MkGraph [ {[node_c; node_d]}; {[node_c; node_d]};
            {[node_a; node_b; node_d]}; {[node_a; node_b; node_c]} ].

(** ** Tables of adjacency sets *)

Section tables.
Implicit Types (v w : list (gset NodeId)) (a b x y : NodeId) (s : gset NodeId).

Lemma nbrs_lookup v a s : v !! idx a = Some s → nbrs v a = s.
Proof. unfold nbrs. by intros ->. Qed.

Lemma nbrs_index v a s : TVec.index v a = Ok s → nbrs v a = s.
Proof. intros ?%TVec.index_Ok. by apply nbrs_lookup. Qed.

Lemma nbrs_out v a : ¬ TVec.in_bounds v a → nbrs v a = ∅.
Proof.
  unfold nbrs. intros Ha. destruct (v !! idx a) eqn:Hl; [|done].
  destruct Ha. apply TVec.in_bounds_lookup. eauto.
Qed.

Lemma index_nbrs v a : TVec.in_bounds v a → TVec.index v a = Ok (nbrs v a).
Proof. intros [s Hs]%TVec.index_in_bounds. by rewrite (nbrs_index _ _ _ Hs). Qed.

Lemma elem_of_nbrs_in_bounds v a b : b ∈ nbrs v a → TVec.in_bounds v a.
Proof.
  intros Hb. destruct (decide (TVec.in_bounds v a)) as [|Hn]; [done|].
  rewrite (nbrs_out _ _ Hn) in Hb. set_solver.
Qed.

(** Changing the set of [a] in place changes the neighbours of [a] only. *)
Lemma nbrs_update v a f v' x :
  TVec.update v a f = Ok v' →
  nbrs v' x = if decide (x = a) then f (nbrs v a) else nbrs v x.
Proof.
  intros Hu. unfold nbrs. rewrite (TVec.update_lookup _ _ _ _ x Hu).
  apply TVec.update_Ok in Hu as (s & Hs & _).
  repeat case_decide; simplify_eq; [by rewrite Hs|done].
Qed.

Lemma nbrs_push v s x :
  let p := TVec.push (I:=NodeId) v s in
  nbrs p.1 x = if decide (x = p.2) then s else nbrs v x.
Proof.
  intros p. subst p. unfold nbrs. case_decide as Hx.
  - subst x. by rewrite TVec.push_lookup_new.
  - destruct (decide (TVec.in_bounds v x)) as [Hin|Hout].
    + by rewrite TVec.push_lookup_old.
    + assert (¬ TVec.in_bounds (TVec.push (I:=NodeId) v s).1 x) as Hout'.
      { rewrite TVec.push_in_bounds. tauto. }
      rewrite TVec.in_bounds_lookup, <-eq_None_not_Some in Hout, Hout'.
      by rewrite Hout, Hout'.
Qed.

(** Two tables of the same length with the same neighbours are equal. *)
Lemma table_eq v w :
  length v = length w → (∀ a, nbrs v a = nbrs w a) → v = w.
Proof.
  intros Hlen Hn. apply list_eq_same_length with (length v); [done..|].
  intros i s t Hi Hs Ht. specialize (Hn (of_idx i)). unfold nbrs in Hn.
  rewrite idx_of_idx, Hs, Ht in Hn. done.
Qed.

End tables.

Lemma graph_eq g1 g2 :
  length (nodes g1) = length (nodes g2) →
  (∀ a, nbrs (nodes g1) a = nbrs (nodes g2) a) → g1 = g2.
Proof. destruct g1, g2. simpl. intros. f_equal. by apply table_eq. Qed.

Lemma adj_node_of g a b : adj g a b → node_of g a.
Proof. apply elem_of_nbrs_in_bounds. Qed.

#[export] Hint Resolve adj_node_of : graphc.
#[export] Hint Unfold valid wf : graphc.

(** [nbrs_updates] rewrites the neighbours of every table obtained by an
    in-place update in terms of the table it was obtained from. *)
Ltac nbrs_updates :=
  repeat match goal with
  | H : TVec.update ?v ?a ?f = Ok ?v' |- context [nbrs ?v' ?x] =>
      rewrite (nbrs_update v a f v' x H)
  | H : TVec.update ?v ?a ?f = Ok ?v', H' : context [nbrs ?v' ?x] |- _ =>
      rewrite (nbrs_update v a f v' x H) in H'
  end.

(** ** What each mutation does *)

Section mutations.
Implicit Types (g : Graph) (a b x y : NodeId).

Lemma node_of_new a : ¬ node_of new a.
Proof. unfold node_of, TVec.in_bounds. simpl. lia. Qed.

Lemma adj_new a b : ¬ adj new a b.
Proof. intros ?%adj_node_of. by eapply node_of_new. Qed.

Lemma node_of_length g n : (∀ x, node_of g x ↔ idx x < n) → length (nodes g) = n.
Proof.
  unfold node_of, TVec.in_bounds. intros Hn.
  pose proof (Hn (of_idx n)) as H1.
  pose proof (Hn (of_idx (length (nodes g)))) as H2.
  rewrite idx_of_idx in H1, H2. lia.
Qed.

(** Two graphs with the same nodes and the same edges are the same table. *)
Lemma graph_ext g g' :
  (∀ x, node_of g x ↔ node_of g' x) → (∀ x y, adj g x y ↔ adj g' x y) → g = g'.
Proof.
  intros Hn Ha. apply graph_eq; [by apply node_of_length|].
  intros a. apply set_eq. intros y. apply Ha.
Qed.

Lemma add_node_length g : length (nodes (add_node g).1) = S (length (nodes g)).
Proof. simpl. rewrite length_app. simpl. lia. Qed.

Lemma add_node_idx g : idx (add_node g).2 = length (nodes g).
Proof. apply (TVec.push_idx (I:=NodeId) (nodes g) TBitSet.new). Qed.

Lemma add_node_node_of g x :
  node_of (add_node g).1 x ↔ node_of g x ∨ x = (add_node g).2.
Proof. apply (TVec.push_in_bounds (I:=NodeId) (nodes g) TBitSet.new). Qed.

Lemma add_node_fresh g : ¬ node_of g (add_node g).2.
Proof. apply (TVec.push_fresh (I:=NodeId) (nodes g) TBitSet.new). Qed.

Lemma add_node_nbrs g x : nbrs (nodes (add_node g).1) x = nbrs (nodes g) x.
Proof.
  pose proof (nbrs_push (nodes g) TBitSet.new x) as Hp. simpl in *.
  rewrite Hp. case_decide as Hx; [|done]. subst x. symmetry.
  apply nbrs_out, (add_node_fresh g).
Qed.

Lemma add_node_adj g x y : adj (add_node g).1 x y ↔ adj g x y.
Proof. unfold adj. by rewrite add_node_nbrs. Qed.

Lemma add_edge_self g a : add_edge g a a = Ok g.
Proof. unfold add_edge. by case_decide. Qed.

Lemma add_edge_Ok g a b :
  a ≠ b → node_of g a → node_of g b → ∃ g', add_edge g a b = Ok g'.
Proof.
  intros Hab Ha Hb. unfold add_edge. rewrite decide_True by done.
  destruct (TVec.update_in_bounds (nodes g) a (λ s, TBitSet.add s b) Ha)
    as (s & _ & Hu). rewrite Hu. simpl.
  rewrite <-(TVec.update_in_bounds_iff _ _ _ _ b Hu) in Hb.
  destruct (TVec.update_in_bounds _ b (λ s, TBitSet.add s a) Hb)
    as (t & _ & ->). simpl. eauto.
Qed.

Lemma add_edge_inv g a b g' :
  a ≠ b → add_edge g a b = Ok g' →
  ∃ v, TVec.update (nodes g) a (λ s, TBitSet.add s b) = Ok v ∧
       TVec.update v b (λ s, TBitSet.add s a) = Ok (nodes g').
Proof.
  intros Hab. unfold add_edge. rewrite decide_True by done.
  intros Hadd. simplify_result. eauto.
Qed.

Lemma add_edge_length g a b g' :
  add_edge g a b = Ok g' → length (nodes g') = length (nodes g).
Proof.
  destruct (decide (a = b)) as [->|Hab].
  { rewrite add_edge_self. by intros [= ->]. }
  intros (v & Hu1 & Hu2)%add_edge_inv; [|done].
  by rewrite (TVec.update_length _ _ _ _ Hu2), (TVec.update_length _ _ _ _ Hu1).
Qed.

Lemma add_edge_node_of g a b g' x :
  add_edge g a b = Ok g' → node_of g' x ↔ node_of g x.
Proof. intros Hl%add_edge_length. unfold node_of, TVec.in_bounds. by rewrite Hl. Qed.

Lemma add_edge_nbrs g a b g' x :
  a ≠ b → add_edge g a b = Ok g' →
  nbrs (nodes g') x =
    if decide (x = a) then TBitSet.add (nbrs (nodes g) a) b
    else if decide (x = b) then TBitSet.add (nbrs (nodes g) b) a
    else nbrs (nodes g) x.
Proof.
  intros Hab (v & Hu1 & Hu2)%add_edge_inv; [|done].
  nbrs_updates. by repeat case_decide; simplify_eq.
Qed.

(** The edges after [add_edge(a, b)]: the old ones and, unless [a = b], the
    new one in both directions. *)
Lemma add_edge_adj g a b g' x y :
  add_edge g a b = Ok g' →
  adj g' x y ↔ adj g x y ∨ (a ≠ b ∧ ((x = a ∧ y = b) ∨ (x = b ∧ y = a))).
Proof.
  destruct (decide (a = b)) as [->|Hab].
  { rewrite add_edge_self. intros [= ->]. naive_solver. }
  intros Hadd. unfold adj. rewrite (add_edge_nbrs _ _ _ _ x Hab Hadd).
  repeat case_decide; set_solver.
Qed.

Lemma remove_edge_Ok g a b :
  node_of g a → node_of g b → ∃ g', remove_edge g a b = Ok g'.
Proof.
  intros Ha Hb. unfold remove_edge.
  destruct (TVec.update_in_bounds (nodes g) a (λ s, TBitSet.remove s b) Ha)
    as (s & _ & Hu). rewrite Hu. simpl.
  rewrite <-(TVec.update_in_bounds_iff _ _ _ _ b Hu) in Hb.
  destruct (TVec.update_in_bounds _ b (λ s, TBitSet.remove s a) Hb)
    as (t & _ & ->). simpl. eauto.
Qed.

Lemma remove_edge_inv g a b g' :
  remove_edge g a b = Ok g' →
  ∃ v, TVec.update (nodes g) a (λ s, TBitSet.remove s b) = Ok v ∧
       TVec.update v b (λ s, TBitSet.remove s a) = Ok (nodes g').
Proof. unfold remove_edge. intros Hrm. simplify_result. eauto. Qed.

Lemma remove_edge_length g a b g' :
  remove_edge g a b = Ok g' → length (nodes g') = length (nodes g).
Proof.
  intros (v & Hu1 & Hu2)%remove_edge_inv.
  by rewrite (TVec.update_length _ _ _ _ Hu2), (TVec.update_length _ _ _ _ Hu1).
Qed.

Lemma remove_edge_node_of g a b g' x :
  remove_edge g a b = Ok g' → node_of g' x ↔ node_of g x.
Proof. intros Hl%remove_edge_length. unfold node_of, TVec.in_bounds. by rewrite Hl. Qed.

(** The edges after [remove_edge(a, b)]: the old ones but [a-b]. *)
Lemma remove_edge_adj g a b g' x y :
  remove_edge g a b = Ok g' →
  adj g' x y ↔ adj g x y ∧ ¬ (x = a ∧ y = b) ∧ ¬ (x = b ∧ y = a).
Proof.
  intros (v & Hu1 & Hu2)%remove_edge_inv. unfold adj.
  nbrs_updates. repeat case_decide; set_solver.
Qed.

End mutations.

(** ** The invariant check *)

Section check.
Implicit Types (g : Graph) (a b : NodeId).

Lemma node_of_len g b : node_of g b ↔ (node_index b < TVec.len (nodes g))%N.
Proof. exact (TVec.in_bounds_len (I:=NodeId) (nodes g) b). Qed.

Lemma check_edge_Ok g a b u :
  check_edge g a b = Ok u ↔ node_of g b ∧ adj g b a.
Proof.
  unfold check_edge, adj. rewrite node_of_len. split.
  - intros Hc. simplify_result.
    match goal with H : bool_decide _ = true |- _ =>
      apply bool_decide_eq_true in H end.
    split; [done|]. erewrite nbrs_index by done. by apply TBitSet.get_true.
  - intros [Hb Ha]. rewrite bool_decide_eq_true_2 by done. simpl.
    rewrite index_nbrs by by apply node_of_len. simpl.
    destruct u. by apply assert_Ok, TBitSet.get_true.
Qed.

Lemma check_edge_Err g a b e : check_edge g a b = Err e → e = AssertionFailed.
Proof.
  unfold check_edge. intros [He|(u & Hb & He)]%bind_Err.
  { by apply assert_Err in He as [_ ->]. }
  apply assert_Ok, bool_decide_eq_true, node_of_len in Hb.
  rewrite index_nbrs in He by done. simpl in He.
  by apply assert_Err in He as [_ ->].
Qed.

Lemma check_node_Ok g a u :
  node_of g a →
  check_node g a = Ok u ↔ ∀ b, adj g a b → node_of g b ∧ adj g b a.
Proof.
  intros Ha. unfold check_node. rewrite index_nbrs by done. simpl.
  rewrite foldM_unit_Ok. setoid_rewrite TBitSet.elem_of_iter.
  by setoid_rewrite check_edge_Ok.
Qed.

Lemma check_node_Err g a e :
  node_of g a → check_node g a = Err e → e = AssertionFailed.
Proof.
  intros Ha. unfold check_node. rewrite index_nbrs by done. simpl.
  intros (b & _ & Hb)%foldM_unit_Err. by eapply check_edge_Err.
Qed.

Lemma check_invariants_Ok g u : check_invariants g = Ok u ↔ valid g.
Proof.
  unfold check_invariants. rewrite foldM_unit_Ok.
  setoid_rewrite TVec.elem_of_index_iter. split.
  - intros Hc.
    assert (∀ a b, adj g a b → node_of g b ∧ adj g b a) as Hall.
    { intros a b Hab. pose proof (adj_node_of _ _ _ Hab) as Ha.
      by apply (check_node_Ok g a () Ha); [apply Hc|]. }
    split; intros a b Hab; by apply Hall in Hab as [??].
  - intros [Hb Hs] a Ha. apply check_node_Ok; [done|]. split; eauto.
Qed.

Lemma check_invariants_Err g e :
  check_invariants g = Err e → e = AssertionFailed.
Proof.
  unfold check_invariants.
  intros (a & Ha%TVec.elem_of_index_iter & He)%foldM_unit_Err.
  by eapply check_node_Err.
Qed.

Lemma check_invariants_invalid g :
  ¬ valid g → check_invariants g = Err AssertionFailed.
Proof.
  intros Hv. destruct (check_invariants g) as [[]|e] eqn:Hc.
  - by apply check_invariants_Ok in Hc.
  - by rewrite (check_invariants_Err _ _ Hc).
Qed.

#[global] Instance adj_dec g a b : Decision (adj g a b).
Proof. unfold adj. apply _. Defined.

#[global] Instance node_of_dec g a : Decision (node_of g a).
Proof. unfold node_of. apply _. Defined.

#[global] Instance valid_dec g : Decision (valid g).
Proof.
  refine (cast_if (decide (check_invariants g = Ok ())));
    by rewrite <-(check_invariants_Ok g ()).
Defined.

Lemma has_loop_false g : has_loop g = false ↔ loop_free g.
Proof.
  unfold has_loop. rewrite bool_decide_eq_false, Exists_exists. split.
  - intros Hn a Ha. apply Hn. exists a. split; [|done].
    by apply TVec.elem_of_index_iter, (adj_node_of g a a).
  - intros Hl (a & _ & Ha). by apply (Hl a).
Qed.

#[global] Instance loop_free_dec g : Decision (loop_free g).
Proof.
  refine (cast_if (decide (has_loop g = false))); by rewrite <-has_loop_false.
Defined.

#[global] Instance wf_dec g : Decision (wf g).
Proof. unfold wf. apply _. Defined.

End check.

(** ** The mutations maintain the invariants *)

Section invariants.
Implicit Types (g : Graph) (a b x y : NodeId).

(** [destruct_wf H] splits [H : wf g] into its three parts, unfolded. *)
Ltac destruct_wf H :=
  let Hb := fresh "Hb" in let Hs := fresh "Hs" in let Hl := fresh "Hl" in
  destruct H as [[Hb Hs] Hl]; unfold bounded, symmetric, loop_free in Hb, Hs, Hl.

Lemma new_wf : wf new.
Proof.
  split; [split|]; intros a; [intros b Hab..|intros Hab];
    by apply adj_new in Hab.
Qed.

Lemma add_node_wf g : wf g → wf (add_node g).1.
Proof.
  intros Hwf. destruct_wf Hwf. repeat split.
  - intros a b ?%(proj1 (add_node_adj g a b)). apply add_node_node_of. eauto.
  - intros a b ?%(proj1 (add_node_adj g a b)). apply add_node_adj. eauto.
  - intros a ?%(proj1 (add_node_adj g a a)). by eapply Hl.
Qed.

Lemma add_edge_nodes g a b g' :
  a ≠ b → add_edge g a b = Ok g' → node_of g a ∧ node_of g b.
Proof.
  intros Hab (v & Hu1 & Hu2)%add_edge_inv; [|done].
  pose proof Hu1 as (s & Hs & _)%TVec.update_Ok.
  pose proof Hu2 as (t & Ht & _)%TVec.update_Ok.
  split; [apply TVec.in_bounds_lookup; eauto|].
  apply (TVec.update_in_bounds_iff _ _ _ _ b Hu1), TVec.in_bounds_lookup. eauto.
Qed.

Lemma remove_edge_nodes g a b g' :
  remove_edge g a b = Ok g' → node_of g a ∧ node_of g b.
Proof.
  intros (v & Hu1 & Hu2)%remove_edge_inv.
  pose proof Hu1 as (s & Hs & _)%TVec.update_Ok.
  pose proof Hu2 as (t & Ht & _)%TVec.update_Ok.
  split; [apply TVec.in_bounds_lookup; eauto|].
  apply (TVec.update_in_bounds_iff _ _ _ _ b Hu1), TVec.in_bounds_lookup. eauto.
Qed.

Lemma add_edge_wf g a b g' : wf g → add_edge g a b = Ok g' → wf g'.
Proof.
  intros Hwf Hadd. destruct_wf Hwf.
  destruct (decide (a = b)) as [->|Hab].
  { rewrite add_edge_self in Hadd. by simplify_eq. }
  destruct (add_edge_nodes _ _ _ _ Hab Hadd) as [Ha Hb'].
  repeat split.
  - intros x y [?|(_ & [[-> ->]|[-> ->]])]%(add_edge_adj _ _ _ _ _ _ Hadd);
      apply (add_edge_node_of _ _ _ _ _ Hadd); eauto.
  - intros x y Hxy. apply (add_edge_adj _ _ _ _ _ _ Hadd).
    apply (add_edge_adj _ _ _ _ _ _ Hadd) in Hxy. naive_solver.
  - intros x [?|(_ & [[-> ->]|[-> ->]])]%(add_edge_adj _ _ _ _ _ _ Hadd);
      [by eapply Hl|done..].
Qed.

Lemma remove_edge_wf g a b g' : wf g → remove_edge g a b = Ok g' → wf g'.
Proof.
  intros Hwf Hrm. destruct_wf Hwf. repeat split.
  - intros x y [? _]%(remove_edge_adj _ _ _ _ _ _ Hrm).
    apply (remove_edge_node_of _ _ _ _ _ Hrm). eauto.
  - intros x y Hxy. apply (remove_edge_adj _ _ _ _ _ _ Hrm).
    apply (remove_edge_adj _ _ _ _ _ _ Hrm) in Hxy. naive_solver.
  - intros x [? _]%(remove_edge_adj _ _ _ _ _ _ Hrm). by eapply Hl.
Qed.

Lemma apply_op_wf g o g' : wf g → apply_op g o = Ok g' → wf g'.
Proof.
  intros Hwf. destruct o as [|a b|a b]; simpl.
  - intros [= <-]. by apply add_node_wf.
  - by apply add_edge_wf.
  - by apply remove_edge_wf.
Qed.

Lemma step_wf g g' : wf g → step g g' → wf g'.
Proof. intros Hwf [o g'' Ho]. by eapply apply_op_wf. Qed.

Lemma run_reachable g os g' : reachable g → run g os = Ok g' → reachable g'.
Proof.
  unfold run. intros Hg. apply foldM_inv; [done|].
  intros o g1 g2 _ Hg1 Ho. eapply reachable_step; [done|]. by econstructor.
Qed.

End invariants.

#[export] Hint Resolve new_wf add_node_wf add_edge_wf remove_edge_wf : graphc.
#[export] Hint Constructors reachable step : graphc.

(** ** Outcomes of the mutations *)

Section outcomes.
Implicit Types (g : Graph) (a b x y : NodeId).

Lemma add_edge_Err_kind g a b e : add_edge g a b = Err e → e = IndexOutOfBounds.
Proof.
  unfold add_edge. case_decide; [|done].
  intros [He|(v & _ & [He|(w & _ & He)]%bind_Err)]%bind_Err;
    [by apply TVec.update_Err in He as [_ ->]..|done].
Qed.

Lemma remove_edge_Err_kind g a b e :
  remove_edge g a b = Err e → e = IndexOutOfBounds.
Proof.
  unfold remove_edge.
  intros [He|(v & _ & [He|(w & _ & He)]%bind_Err)]%bind_Err;
    [by apply TVec.update_Err in He as [_ ->]..|done].
Qed.

Lemma add_edge_Err g a b :
  a ≠ b → ¬ (node_of g a ∧ node_of g b) → add_edge g a b = Err IndexOutOfBounds.
Proof.
  intros Hab Hn. destruct (add_edge g a b) as [g'|e] eqn:Hadd.
  - destruct Hn. by eapply add_edge_nodes.
  - by rewrite (add_edge_Err_kind _ _ _ _ Hadd).
Qed.

Lemma remove_edge_Err g a b :
  ¬ (node_of g a ∧ node_of g b) → remove_edge g a b = Err IndexOutOfBounds.
Proof.
  intros Hn. destruct (remove_edge g a b) as [g'|e] eqn:Hrm.
  - destruct Hn. by eapply remove_edge_nodes.
  - by rewrite (remove_edge_Err_kind _ _ _ _ Hrm).
Qed.

(** Two outcomes of mutations of [g] that did not panic and record the same
    neighbours are the same graph. *)
Lemma outcome_eq g g1 g2 :
  length (nodes g1) = length (nodes g) → length (nodes g2) = length (nodes g) →
  (∀ x, nbrs (nodes g1) x = nbrs (nodes g2) x) → Ok g1 = Ok g2 :> result Graph.
Proof. intros H1 H2 Hn. f_equal. apply graph_eq; [congruence|done]. Qed.

Lemma add_edge_comm g a b : add_edge g a b = add_edge g b a.
Proof.
  destruct (decide (a = b)) as [->|Hab]; [done|].
  destruct (decide (node_of g a ∧ node_of g b)) as [[Ha Hb]|Hn].
  - destruct (add_edge_Ok g a b) as [g1 H1]; [done..|].
    destruct (add_edge_Ok g b a) as [g2 H2]; [done..|].
    rewrite H1, H2. apply (outcome_eq g); [by eapply add_edge_length..|].
    intros x. rewrite (add_edge_nbrs _ _ _ _ x Hab H1).
    rewrite (add_edge_nbrs _ _ _ _ x (not_eq_sym Hab) H2).
    by repeat case_decide; simplify_eq.
  - rewrite !add_edge_Err; [done|done|tauto|done..].
Qed.

Lemma add_edge_idemp g a b g' : add_edge g a b = Ok g' → add_edge g' a b = Ok g'.
Proof.
  destruct (decide (a = b)) as [->|Hab]; [by rewrite !add_edge_self|].
  intros Hadd. destruct (add_edge_nodes _ _ _ _ Hab Hadd) as [Ha Hb].
  destruct (add_edge_Ok g' a b) as [g2 H2];
    [done|by apply (add_edge_node_of _ _ _ _ _ Hadd)..|].
  rewrite H2. apply (outcome_eq g'); [by eapply add_edge_length|done|].
  intros x. rewrite (add_edge_nbrs _ _ _ _ x Hab H2).
  rewrite !(add_edge_nbrs _ _ _ _ _ Hab Hadd).
  repeat case_decide; simplify_eq; try done; apply TBitSet.add_idemp.
Qed.

Lemma remove_edge_nbrs g a b g' x :
  remove_edge g a b = Ok g' →
  nbrs (nodes g') x =
    if decide (x = a) then TBitSet.remove (nbrs (nodes g) a) b
    else if decide (x = b) then TBitSet.remove (nbrs (nodes g) b) a
    else nbrs (nodes g) x.
Proof.
  intros (v & Hu1 & Hu2)%remove_edge_inv. nbrs_updates.
  repeat case_decide; simplify_eq; try done. apply TBitSet.remove_idemp.
Qed.

Lemma remove_edge_idemp g a b g' :
  remove_edge g a b = Ok g' → remove_edge g' a b = Ok g'.
Proof.
  intros Hrm. destruct (remove_edge_nodes _ _ _ _ Hrm) as [Ha Hb].
  destruct (remove_edge_Ok g' a b) as [g2 H2];
    [by apply (remove_edge_node_of _ _ _ _ _ Hrm)..|].
  rewrite H2. apply (outcome_eq g'); [by eapply remove_edge_length|done|].
  intros x. rewrite (remove_edge_nbrs _ _ _ _ x H2).
  rewrite !(remove_edge_nbrs _ _ _ _ _ Hrm).
  repeat case_decide; try done; set_solver.
Qed.

End outcomes.

(** ** Degrees *)

Section degrees.
Implicit Types (g : Graph) (a b : NodeId) (s : gset NodeId).

Lemma foldr_max_le (l : list N) (n : N) : n ∈ l → (n ≤ foldr N.max 0 l)%N.
Proof.
  induction l as [|x l IH]; cbn [foldr]; [by intros ?%elem_of_nil|].
  intros [->|Hn%IH]%elem_of_cons; [apply N.le_max_l|].
  etrans; [done|apply N.le_max_r].
Qed.

Lemma foldr_max_elem (l : list N) :
  foldr N.max 0%N l = 0%N ∨ foldr N.max 0%N l ∈ l.
Proof.
  induction l as [|x l IH]; cbn [foldr]; [by left|]. right.
  destruct (N.max_spec x (foldr N.max 0%N l)) as [[Hlt ->]|[_ ->]]; [|left].
  destruct IH as [H0|?]; [|by right]. rewrite H0 in Hlt. lia.
Qed.

Lemma degree_le_max g a : node_of g a → (degree g a ≤ max_degree g)%N.
Proof.
  intros Ha. apply foldr_max_le, list_elem_of_fmap. exists a.
  split; [done|]. by apply TVec.elem_of_index_iter.
Qed.

Lemma max_degree_attained g :
  max_degree g = 0%N ∨ ∃ a, node_of g a ∧ max_degree g = degree g a.
Proof.
  destruct (foldr_max_elem (degree g <$> TVec.index_iter (nodes g)))
    as [?|(a & Ha & ?%TVec.elem_of_index_iter)%list_elem_of_fmap]; eauto.
Qed.

(** A set of nodes of a table has at most as many members as the table has
    slots. *)
Lemma size_nodes_le {T} (v : list T) s :
  (∀ a, a ∈ s → TVec.in_bounds v a) → size s ≤ length v.
Proof.
  intros Hs. rewrite <-(TVec.length_index_iter (I:=NodeId) v).
  rewrite <-(size_list_to_set (C:=gset NodeId)).
  - apply subseteq_size. intros a Ha. apply elem_of_list_to_set.
    by apply TVec.elem_of_index_iter, Hs.
  - apply TBitSet.sorted_lt_le, TVec.index_iter_sorted.
Qed.

Lemma degree_le_len g a : bounded g → (degree g a ≤ TVec.len (nodes g))%N.
Proof.
  intros Hb. unfold degree, connected, TBitSet.element_count, TVec.len.
  enough (size (nbrs (nodes g) a) ≤ length (nodes g)) by lia.
  apply size_nodes_le. intros b Hab. by apply (Hb a).
Qed.

Lemma max_degree_le_len g : bounded g → (max_degree g ≤ TVec.len (nodes g))%N.
Proof.
  intros Hb. destruct (max_degree_attained g) as [->|(a & _ & ->)]; [lia|].
  by apply degree_le_len.
Qed.

End degrees.

(** ** Properties of the graph component *)

Lemma simple_graph_run : run new simple_script = Ok simple_graph.
Proof. by vm_compute. Qed.

Lemma reachable_wf_aux g : reachable g → wf g.
Proof. induction 1; [apply new_wf|by eapply step_wf]. Qed.

(** Removing an edge that was just added gives the graph back. *)
Lemma add_edge_remove_edge g a b g1 :
  a ≠ b → ¬ adj g a b → ¬ adj g b a →
  add_edge g a b = Ok g1 → remove_edge g1 a b = Ok g.
Proof.
  intros Hab Hnab Hnba Hadd.
  destruct (add_edge_nodes _ _ _ _ Hab Hadd) as [Ha Hb].
  destruct (remove_edge_Ok g1 a b) as [g2 Hrm];
    [by apply (add_edge_node_of _ _ _ _ _ Hadd)..|].
  rewrite Hrm. apply (outcome_eq g1); [by eapply remove_edge_length|
    by rewrite (add_edge_length _ _ _ _ Hadd)|].
  intros x. rewrite (remove_edge_nbrs _ _ _ _ x Hrm).
  rewrite !(add_edge_nbrs _ _ _ _ _ Hab Hadd). unfold adj in *.
  repeat case_decide; simplify_eq; try done; by apply TBitSet.remove_add.
Qed.

(** Adding an edge that was just removed gives the graph back. *)
Lemma remove_edge_add_edge g a b g1 :
  a ≠ b → adj g a b → adj g b a →
  remove_edge g a b = Ok g1 → add_edge g1 a b = Ok g.
Proof.
  intros Hab Hadj Hadj' Hrm.
  pose proof (elem_of_nbrs_in_bounds _ _ _ Hadj) as Ha.
  pose proof (elem_of_nbrs_in_bounds _ _ _ Hadj') as Hb.
  destruct (add_edge_Ok g1 a b) as [g2 Hadd];
    [done|by apply (remove_edge_node_of _ _ _ _ _ Hrm)..|].
  rewrite Hadd. apply (outcome_eq g1); [by eapply add_edge_length|
    by rewrite (remove_edge_length _ _ _ _ Hrm)|].
  intros x. rewrite (add_edge_nbrs _ _ _ _ x Hab Hadd).
  rewrite !(remove_edge_nbrs _ _ _ _ _ Hrm). unfold adj in *.
  repeat case_decide; simplify_eq; try done; by apply TBitSet.add_remove.
Qed.

(** [add_edge] panics exactly on two different identifiers of which one is
    not a node. *)
Lemma add_edge_Err_iff g a b e :
  add_edge g a b = Err e ↔
  a ≠ b ∧ ¬ (node_of g a ∧ node_of g b) ∧ e = IndexOutOfBounds.
Proof.
  split.
  - intros Hadd. pose proof (add_edge_Err_kind _ _ _ _ Hadd) as ->.
    destruct (decide (a = b)) as [->|Hab]; [by rewrite add_edge_self in Hadd|].
    split_and!; [done| |done]. intros [Ha Hb].
    destruct (add_edge_Ok g a b) as [g' Hg']; congruence.
  - intros (Hab & Hn & ->). by apply add_edge_Err.
Qed.

(** [remove_edge] panics exactly on an identifier that is not a node. *)
Lemma remove_edge_Err_iff g a b e :
  remove_edge g a b = Err e ↔
  ¬ (node_of g a ∧ node_of g b) ∧ e = IndexOutOfBounds.
Proof.
  split.
  - intros Hrm. pose proof (remove_edge_Err_kind _ _ _ _ Hrm) as ->.
    split; [|done]. intros [Ha Hb].
    destruct (remove_edge_Ok g a b) as [g' Hg']; congruence.
  - intros (Hn & ->). by apply remove_edge_Err.
Qed.

(** The invariant check never fails on a graph built through the public
    interface. *)
Lemma reachable_checked g : reachable g → check_invariants g = Ok ().
Proof. intros [Hv _]%reachable_wf_aux. by apply check_invariants_Ok. Qed.

(** C10 (functional): [check_invariants] returns exactly when every recorded
    neighbour is in bounds and the adjacency is symmetric; otherwise it
    panics on a failed assertion, never on an index. *)
Theorem check_invariants_decides g :
  check_invariants g = if decide (valid g) then Ok () else Err AssertionFailed.
Proof.
  case_decide as Hv; [by apply check_invariants_Ok|].
  by apply check_invariants_invalid.
Qed.

(** C31 (functional): a call of [add_edge] or [remove_edge] that returns
    leaves the nodes as they were; [add_edge(a, b)] adds to the edges,
    unless [a = b], the edge between [a] and [b] in both directions, and
    [remove_edge(a, b)] takes that edge away in both directions. *)
Theorem edge_edges g a b g' :
  (add_edge g a b = Ok g' →
   (∀ x, node_of g' x ↔ node_of g x) ∧
   ∀ x y, adj g' x y ↔
     adj g x y ∨ (a ≠ b ∧ ((x = a ∧ y = b) ∨ (x = b ∧ y = a)))) ∧
  (remove_edge g a b = Ok g' →
   (∀ x, node_of g' x ↔ node_of g x) ∧
   ∀ x y, adj g' x y ↔ adj g x y ∧ ¬ (x = a ∧ y = b) ∧ ¬ (x = b ∧ y = a)).
Proof.
  split; intros Hg'; (split; intros x; [|intros y]).
  - by eapply add_edge_node_of.
  - by apply add_edge_adj.
  - by eapply remove_edge_node_of.
  - by apply remove_edge_adj.
Qed.

Lemma edge_edges_witness :
  let g' := MkGraph [ {[node_d]}; {[node_c; node_d]};
                      {[node_b; node_d]}; {[node_a; node_b; node_c]} ] in
  (∀ x, node_of g' x ↔ node_of simple_graph x) ∧
  ∀ x y, adj g' x y ↔
    adj simple_graph x y ∧ ¬ (x = node_a ∧ y = node_c) ∧
    ¬ (x = node_c ∧ y = node_a).
Proof.
  intros g'. apply (proj2 (edge_edges simple_graph node_a node_c g')).
  by vm_compute.
Defined.

(** C33 (error): the two mutations of the edges panic on an identifier that
    is not a node of the graph, and only then, with an index out of bounds:
    [add_edge(a, b)] exactly when [a] and [b] differ and one of them is not
    a node ([add_edge(a, a)] returns whatever [a] is), [remove_edge(a, b)]
    exactly when [a] or [b] is not a node. *)
Theorem edge_panics g a b e :
  (add_edge g a b = Err e ↔
     a ≠ b ∧ ¬ (node_of g a ∧ node_of g b) ∧ e = IndexOutOfBounds) ∧
  (remove_edge g a b = Err e ↔
     ¬ (node_of g a ∧ node_of g b) ∧ e = IndexOutOfBounds).
Proof. split; [apply add_edge_Err_iff|apply remove_edge_Err_iff]. Qed.

(** C32 (functional): [add_node] returns the next index (the number of nodes
    the graph had), which was not a node before; the new node has no
    neighbour and the neighbours of the others are unchanged. *)
Theorem add_node_next g :
  node_index (add_node g).2 = TVec.len (nodes g) ∧
  ¬ node_of g (add_node g).2 ∧
  (∀ x, node_of (add_node g).1 x ↔ node_of g x ∨ x = (add_node g).2) ∧
  (∀ x, nbrs (nodes (add_node g).1) x = nbrs (nodes g) x) ∧
  nbrs (nodes (add_node g).1) (add_node g).2 = ∅.
Proof.
  split_and!; [done|apply add_node_fresh|apply add_node_node_of|
    apply add_node_nbrs|].
  rewrite add_node_nbrs. apply nbrs_out, add_node_fresh.
Qed.

(** C35 (roundtrip): [add_edge] and [remove_edge] undo one another and each
    is idempotent: removing an edge that was just added between two nodes
    that were not adjacent gives the graph back, and so does adding an edge
    that was just removed; a call repeated returns and changes nothing. *)
Theorem edge_roundtrip g a b g1 :
  (a ≠ b → ¬ adj g a b → ¬ adj g b a →
   add_edge g a b = Ok g1 → remove_edge g1 a b = Ok g) ∧
  (a ≠ b → adj g a b → adj g b a →
   remove_edge g a b = Ok g1 → add_edge g1 a b = Ok g) ∧
  (add_edge g a b = Ok g1 → add_edge g1 a b = Ok g1) ∧
  (remove_edge g a b = Ok g1 → remove_edge g1 a b = Ok g1).
Proof.
  split_and!; [apply add_edge_remove_edge|apply remove_edge_add_edge|
    apply add_edge_idemp|apply remove_edge_idemp].
Qed.

Lemma edge_roundtrip_witness :
  let g1 := MkGraph [ {[node_d]}; {[node_c; node_d]};
                      {[node_b; node_d]}; {[node_a; node_b; node_c]} ] in
  add_edge g1 node_a node_c = Ok simple_graph ∧
  remove_edge g1 node_a node_c = Ok g1.
Proof.
  intros g1.
  destruct (edge_roundtrip simple_graph node_a node_c g1) as (_ & Hra & _ & Hrr).
  split; [apply Hra|apply Hrr]; compute_done.
Defined.
