(* ===== verification/Script.v ===== *)
(** * Scripts of calls: every well-formed graph can be built

    [Graph.reachable] is the set of graphs a client builds from
    [Graph::new()] with [add_node], [add_edge] and [remove_edge]
    ([src/src/lib.rs]), and [Graph.wf] the invariant those calls maintain.
    This file shows that the invariant is exact: for a well-formed graph
    [script_of] computes a sequence of calls, the nodes first and the edges
    after, that returns at every call and ends in that graph.  So the graphs
    no sequence of calls builds are exactly those with an edge to a missing
    node, an edge in one direction only, or a self-loop.

    Whether a sequence of calls returns can be read off the calls alone:
    [script_ok] follows the number of nodes and tests the identifiers of
    every call against it, as the index operations of [add_edge] and
    [remove_edge] do; the edges play no part. *)

From stdpp Require Import sorting gmap numbers list.
From S2P Require Import Prelude Tindex Graph.

#[local] Set Warnings "-clear-no-such-hyp".

(** The edges a table records, as pairs, in the order of the table. *)
Definition edges_of (g : Graph) : list (NodeId * NodeId) :=
  a ← TVec.index_iter (nodes g);
  (λ b, (a, b)) <$> TBitSet.iter (nbrs (nodes g) a).

(** [g.add_edge(a, b)] for every pair of a list. *)
Definition add_edges (es : list (NodeId * NodeId)) : list op :=
  (λ e, AddEdge e.1 e.2) <$> es.

(** The calls that build [g]: [add_node] once per node, then [add_edge] for
    every edge recorded. *)
Definition script_of (g : Graph) : list op :=
  replicate (length (nodes g)) AddNode ++ add_edges (edges_of g).

(** Whether the call [o] returns on a table of [n] nodes: [add_edge]
    indexes the table at both identifiers unless they are equal,
    [remove_edge] always does. *)
Definition call_ok (n : nat) (o : op) : bool :=
  match o with
  | AddNode => true
  | AddEdge a b => bool_decide (a = b ∨ idx a < n ∧ idx b < n)
  | RemoveEdge a b => bool_decide (idx a < n ∧ idx b < n)
  end.

(** The number of nodes after the call. *)
Definition nodes_after (n : nat) (o : op) : nat :=
  match o with AddNode => S n | _ => n end.

(** Whether every call of [os] returns, from a table of [n] nodes on. *)
Fixpoint script_ok (n : nat) (os : list op) : bool :=
  match os with
  | [] => true
  | o :: os => call_ok n o && script_ok (nodes_after n o) os
  end.

(** ** Running the two halves of a script *)

Section run.
Implicit Types (a b x y : NodeId) (g : Graph) (v : list (gset NodeId))
  (es : list (NodeId * NodeId)) (os : list op).

Lemma run_app g os1 os2 : run g (os1 ++ os2) = run g os1 ≫= λ g', run g' os2.
Proof. apply foldM_app. Qed.

Lemma run_add_nodes v n :
  run (MkGraph v) (replicate n AddNode) = Ok (MkGraph (v ++ replicate n ∅)).
Proof.
  revert v. induction n as [|n IH]; intros v.
  - simpl. by rewrite app_nil_r.
  - change (run (MkGraph (v ++ [∅])) (replicate n AddNode) =
            Ok (MkGraph (v ++ [∅] ++ replicate n ∅))).
    by rewrite IH, <-(assoc_L (++)).
Qed.

Lemma elem_of_edges_of g a b : (a, b) ∈ edges_of g ↔ adj g a b.
Proof.
  unfold edges_of. rewrite list_elem_of_bind. split.
  - intros (a' & (b' & [= <- <-] & Hb)%list_elem_of_fmap & _).
    by apply TBitSet.elem_of_iter in Hb.
  - intros Hab. exists a. split.
    + apply list_elem_of_fmap. exists b. by rewrite TBitSet.elem_of_iter.
    + by apply TVec.elem_of_index_iter, (adj_node_of g a b).
Qed.

(** Adding edges between nodes returns at every call and records each of
    them in both directions. *)
Lemma run_add_edges es g :
  (∀ a b, (a, b) ∈ es → a ≠ b ∧ node_of g a ∧ node_of g b) →
  ∃ g', run g (add_edges es) = Ok g' ∧
        (∀ x, node_of g' x ↔ node_of g x) ∧
        (∀ x y, adj g' x y ↔ adj g x y ∨ (x, y) ∈ es ∨ (y, x) ∈ es).
Proof.
  revert g. induction es as [|[a b] es IH]; intros g Hes.
  { exists g. split_and!; [done..|]. set_solver. }
  destruct (Hes a b) as (Hab & Ha & Hb); [left|].
  destruct (add_edge_Ok g a b Hab Ha Hb) as [g1 Hg1].
  destruct (IH g1) as (g' & Hrun & Hn & Hadj).
  { intros x y Hxy. rewrite !(add_edge_node_of _ _ _ _ _ Hg1).
    apply Hes. by right. }
  exists g'. split_and!.
  - unfold run in *. simpl. by rewrite Hg1.
  - intros x. by rewrite Hn, (add_edge_node_of _ _ _ _ _ Hg1).
  - intros x y. rewrite Hadj, (add_edge_adj _ _ _ _ _ _ Hg1), !elem_of_cons.
    naive_solver.
Qed.

Lemma adj_replicate n x y : ¬ adj (MkGraph (replicate n ∅)) x y.
Proof.
  unfold adj, nbrs. simpl. destruct (replicate n ∅ !! idx x) as [s|] eqn:Hs;
    [apply lookup_replicate in Hs as [-> _]|]; set_solver.
Qed.

Lemma script_of_run_aux g : wf g → run new (script_of g) = Ok g.
Proof.
  intros [[Hb Hs] Hl]. unfold script_of. change new with (MkGraph []).
  rewrite run_app, (run_add_nodes [] (length (nodes g))). simpl.
  destruct (run_add_edges (edges_of g)
              (MkGraph (replicate (length (nodes g)) ∅)))
    as (g' & -> & Hn & Hadj).
  { intros a b Hab%elem_of_edges_of. unfold node_of, TVec.in_bounds. simpl.
    rewrite length_replicate. split_and!.
    - intros ->. by apply (Hl b).
    - by apply (adj_node_of g a b).
    - by apply (Hb a b). }
  f_equal. apply graph_ext.
  - intros x. rewrite Hn. unfold node_of, TVec.in_bounds. simpl.
    by rewrite length_replicate.
  - intros x y. rewrite Hadj, !elem_of_edges_of.
    pose proof (adj_replicate (length (nodes g)) x y). naive_solver.
Qed.

Lemma wf_reachable g : wf g → reachable g.
Proof.
  intros Hwf. apply (run_reachable new (script_of g)); [constructor|].
  by apply script_of_run_aux.
Qed.

(** A run is a path of the transition system. *)
Lemma reachable_run g : reachable g → ∃ os, run new os = Ok g.
Proof.
  induction 1 as [|g g' _ [os Hos] [o g'' Ho]]; [by exists []|].
  exists (os ++ [o]). rewrite run_app, Hos. unfold run. simpl. by rewrite Ho.
Qed.

(** ** Scripts that return *)

(** A call returns or panics as [call_ok] says, whatever the edges. *)
Lemma apply_op_call_ok g o :
  if call_ok (length (nodes g)) o
  then ∃ g', apply_op g o = Ok g' ∧
             length (nodes g') = nodes_after (length (nodes g)) o
  else apply_op g o = Err IndexOutOfBounds.
Proof.
  destruct o as [|a b|a b]; simpl.
  - eexists. split; [done|apply add_node_length].
  - destruct (decide (a = b)) as [->|Hab].
    { rewrite add_edge_self, bool_decide_eq_true_2 by (by left). eauto. }
    destruct (decide (node_of g a ∧ node_of g b)) as [[Ha Hb]|Hn].
    + destruct (add_edge_Ok g a b Hab Ha Hb) as [g' Hadd].
      rewrite bool_decide_eq_true_2 by (by right).
      eauto using add_edge_length.
    + rewrite bool_decide_eq_false_2 by naive_solver.
      by apply add_edge_Err_iff.
  - destruct (decide (node_of g a ∧ node_of g b)) as [[Ha Hb]|Hn].
    + destruct (remove_edge_Ok g a b Ha Hb) as [g' Hrm].
      rewrite bool_decide_eq_true_2 by done. eauto using remove_edge_length.
    + rewrite bool_decide_eq_false_2 by done. by apply remove_edge_Err_iff.
Qed.

Lemma run_script_ok g os :
  if script_ok (length (nodes g)) os then ∃ g', run g os = Ok g'
  else run g os = Err IndexOutOfBounds.
Proof.
  revert g. induction os as [|o os IH]; intros g; [by eexists|].
  change (run g (o :: os)) with (apply_op g o ≫= λ g', run g' os).
  change (script_ok (length (nodes g)) (o :: os))
    with (call_ok (length (nodes g)) o
          && script_ok (nodes_after (length (nodes g)) o) os).
  pose proof (apply_op_call_ok g o) as Ho.
  destruct (call_ok (length (nodes g)) o); simpl.
  - destruct Ho as (g' & Hg' & <-). rewrite Hg'. apply IH.
  - by rewrite Ho.
Qed.

End run.

(** ** Properties *)

(** C5 (type): the graphs built from [Graph::new()] by calls of
    [add_node], [add_edge] and [remove_edge] that return are exactly the
    well-formed ones: the adjacency is symmetric, every recorded neighbour
    is a node of the table and no node is its own neighbour; and every such
    table is built by some sequence of calls. *)
Theorem reachable_wf g : reachable g ↔ wf g.
Proof. split; [apply reachable_wf_aux|apply wf_reachable]. Qed.

(** C22 (roundtrip): the calls [script_of] lists for a well-formed graph
    (one [add_node] per node, then one [add_edge] per edge recorded) all
    return, and they build that graph from [Graph::new()]. *)
Theorem script_of_run g : wf g → run new (script_of g) = Ok g.
Proof. apply script_of_run_aux. Qed.

Lemma script_of_run_witness : run new (script_of simple_graph) = Ok simple_graph.
Proof.
  apply script_of_run, reachable_wf_aux, (run_reachable new simple_script);
    [constructor|apply simple_graph_run].
Defined.

(** C34 (error): whether a sequence of calls returns is decided by the calls
    alone: it returns exactly when every [add_edge(a, b)] with [a != b] and
    every [remove_edge(a, b)] names two nodes that exist at the time of
    the call, whatever edges the graph has, and otherwise it panics with an
    index out of bounds. *)
Theorem script_ok_run (g : Graph) (os : list op) :
  (script_ok (length (nodes g)) os = true ↔ ∃ g', run g os = Ok g') ∧
  (script_ok (length (nodes g)) os = false ↔
     run g os = Err IndexOutOfBounds).
Proof.
  pose proof (run_script_ok g os) as Hr.
  destruct (script_ok (length (nodes g)) os).
  - destruct Hr as [g' Hr]. rewrite Hr. naive_solver.
  - rewrite Hr. naive_solver.
Qed.
