(* ===== verification/Derived.v ===== *)
(** * The derived implementations

    [NodeId] derives [PartialEq], [Eq], [PartialOrd] and [Ord], and [Graph]
    derives [Clone], in [src/src/lib.rs].  The derived code of a struct with
    one field works on that field: this file gives the derived operations
    the program relies on and relates them to what the other files use in
    their place (equality of the model, the order of the indices, the
    identity).  [Debug] and [Hash] are not used by the program and are not
    modelled. *)

From stdpp Require Import sorting gmap numbers list.
From S2P Require Import Prelude Tindex Graph.

#[local] Set Warnings "-clear-no-such-hyp".

(** [a == b], from [derive(PartialEq)] on [NodeId]. *)
Definition node_eq (a b : NodeId) : bool := (node_index a =? node_index b)%N.

(** [a != b] *)
Definition node_ne (a b : NodeId) : bool := negb (node_eq a b).

(** [a.cmp(&b)], from [derive(Ord)] on [NodeId]. *)
Definition node_cmp (a b : NodeId) : comparison :=
  (node_index a ?= node_index b)%N.

(** [g.clone()], from [derive(Clone)] on [Graph]: the table is cloned. *)
Definition graph_clone (g : Graph) : Graph := {| nodes := nodes g |}.

(** [g.add_edge(a, b)] with the test [a != b] of the derived code. *)
Definition add_edge_derived (g : Graph) (a b : NodeId) : result Graph :=
  if node_ne a b then
    v ← TVec.update (nodes g) a (λ s, TBitSet.add s b);
    v ← TVec.update v b (λ s, TBitSet.add s a);
    Ok {| nodes := v |}
  else Ok g.

Section derived.
Implicit Types (a b c : NodeId) (g : Graph).

(** The derived equality is the equality of the model. *)
Lemma node_eq_spec a b : node_eq a b = bool_decide (a = b).
Proof.
  unfold node_eq. destruct a as [i], b as [j]. simpl.
  destruct (N.eqb_spec i j) as [->|Hne]; [by rewrite bool_decide_eq_true_2|].
  rewrite bool_decide_eq_false_2; [done|]. by intros [= ->].
Qed.

Lemma node_ne_spec a b : node_ne a b = bool_decide (a ≠ b).
Proof.
  unfold node_ne. rewrite node_eq_spec.
  by destruct (decide (a = b)); [rewrite bool_decide_eq_true_2, bool_decide_eq_false_2 by auto|
    rewrite bool_decide_eq_false_2, bool_decide_eq_true_2 by auto].
Qed.

(** The derived order is the order of the indices, in which [TBitSet]
    and [TVec] enumerate. *)
Lemma node_cmp_Lt a b : node_cmp a b = Lt ↔ index_lt a b.
Proof. unfold node_cmp, index_lt. simpl. by rewrite N.compare_lt_iff. Qed.

Lemma node_cmp_Eq a b : node_cmp a b = Eq ↔ a = b.
Proof.
  unfold node_cmp. rewrite N.compare_eq_iff. destruct a, b; naive_solver.
Qed.

Lemma node_cmp_Gt a b : node_cmp a b = Gt ↔ index_lt b a.
Proof. unfold node_cmp, index_lt. simpl. by rewrite N.compare_gt_iff. Qed.

Lemma node_cmp_antisym a b : node_cmp b a = CompOpp (node_cmp a b).
Proof. apply N.compare_antisym. Qed.

Lemma graph_clone_id g : graph_clone g = g.
Proof. by destruct g. Qed.

Lemma add_edge_derived_eq g a b : add_edge_derived g a b = add_edge g a b.
Proof.
  unfold add_edge_derived, add_edge. rewrite node_ne_spec.
  by destruct (decide (a ≠ b));
    [rewrite bool_decide_eq_true_2|rewrite bool_decide_eq_false_2].
Qed.

End derived.

(** ** Properties *)

(** The derived code agrees with the model: [add_edge]
    with the derived test [a != b] is the [add_edge] of the model, the
    derived comparison of two identifiers is the comparison of their
    indices (the order in which the sets and tables are enumerated), and a
    cloned graph is the graph. *)
Lemma derived_agree (g : Graph) (a b : NodeId) :
  add_edge_derived g a b = add_edge g a b ∧
  (node_cmp a b = Lt ↔ index_lt a b) ∧ (node_cmp a b = Eq ↔ a = b) ∧
  graph_clone g = g.
Proof.
  split_and!; [apply add_edge_derived_eq|apply node_cmp_Lt|apply node_cmp_Eq|
    apply graph_clone_id].
Qed.
