(* ===== verification/Degeneracy.v ===== *)
(** * What the two phases of [minimal_coloring] promise each other

    Phase 1 hands phase 2 three of its variables: the threshold [k], the
    elimination [stack] and the working table [graph].  [EliminationOrder]
    states what phase 2 may assume about them, relative to the table [orig]
    of the caller's graph; [Elimination] proves that phase 1 establishes it
    and [Greedy] proves its theorems from it alone.

    [proper] is the specification of the result: a colouring of a graph
    with [k] colours in which adjacent nodes differ.  [degeneracy] is the
    quantity the threshold [k] measures: the least bound [d] for which the
    nodes can be ordered so that each has at most [d] neighbours among the
    nodes eliminated after it.  [order_check] is an executable test for
    [EliminationOrder], sound and complete, which makes the class
    decidable. *)

From stdpp Require Import sorting gmap numbers list.
From S2P Require Import Prelude Tindex Graph.

#[local] Set Warnings "-clear-no-such-hyp".

(** The elimination order and the table left by phase 1.  The head of
    [stack] is the node eliminated last. *)
Class EliminationOrder (orig : list (gset NodeId)) (k : usize)
    (stack : list NodeId) (graph : list (gset NodeId)) : Prop := {
  (** the working table has a slot for every node *)
  ord_length : length graph = length orig;
  (** every node was eliminated exactly once *)
  ord_nodup : NoDup stack;
  ord_nodes : ∀ a, a ∈ stack ↔ TVec.in_bounds orig a;
  (** the set left for a node holds its original neighbours among the nodes
      eliminated after it (and itself, if it had a loop) *)
  ord_nbrs : ∀ later a earlier, stack = later ++ a :: earlier →
    nbrs graph a = nbrs orig a ∩ ({[a]} ∪ list_to_set later);
  (** and fewer than [k] of them *)
  ord_degree : ∀ a, a ∈ stack → (connected graph a < k)%N;
  (** the threshold is at most the largest degree plus one *)
  ord_k : (k ≤ max_degree (MkGraph orig) + 1)%N
}.

#[global] Hint Mode EliminationOrder - - - - : typeclass_instances.

(** [degree_in orig S a]: the number of neighbours of [a] inside [S]. *)
Definition degree_in (orig : list (gset NodeId)) (S : gset NodeId)
    (a : NodeId) : usize :=
  TBitSet.element_count (nbrs orig a ∩ S).

(** [stack] is an elimination ordering of the table in which every node
    has at most [d] neighbours among the nodes eliminated after it (the
    nodes above it on the stack). *)
Record ordering (orig : list (gset NodeId)) (d : usize)
    (stack : list NodeId) : Prop := {
  ordering_nodup : NoDup stack;
  ordering_nodes : ∀ a, a ∈ stack ↔ TVec.in_bounds orig a;
  ordering_degree : ∀ later a earlier, stack = later ++ a :: earlier →
    (degree_in orig (list_to_set later) a ≤ d)%N
}.

(** The degeneracy of the table: the smallest [d] for which it has such an
    ordering. *)
Definition degeneracy (orig : list (gset NodeId)) (d : usize) : Prop :=
  (∃ stack, ordering orig d stack) ∧
  ∀ d' stack, ordering orig d' stack → (d ≤ d')%N.

(** An executable test for [EliminationOrder]: [nbrs_check] walks the stack
    from its top and compares each set of the working table with the
    original set restricted to the nodes met so far. *)
Fixpoint nbrs_check (orig graph : list (gset NodeId))
    (later todo : list NodeId) : bool :=
  match todo with
  | [] => true
  | a :: earlier =>
      bool_decide (nbrs graph a = nbrs orig a ∩ ({[a]} ∪ list_to_set later))
      && nbrs_check orig graph (later ++ [a]) earlier
  end.

Definition order_check (orig : list (gset NodeId)) (k : usize)
    (stack : list NodeId) (graph : list (gset NodeId)) : bool :=
  bool_decide (length graph = length orig)
  && bool_decide (NoDup stack)
  && bool_decide (list_to_set stack =
       TBitSet.collect (TVec.index_iter (I:=NodeId) orig))
  && nbrs_check orig graph [] stack
  && bool_decide (Forall (λ a, (connected graph a < k)%N) stack)
  && bool_decide (k ≤ max_degree (MkGraph orig) + 1)%N.

(** [colors] assigns every node of [g] one of the colours [0..k], and the
    two ends of an edge between distinct nodes never the same. *)
Record proper (g : Graph) (k : usize) (colors : list usize) : Prop := {
  proper_length : length colors = length (nodes g);
  proper_range : ∀ (a : NodeId) c, colors !! idx a = Some c → (c < k)%N;
  proper_edge : ∀ a b ca cb, adj g a b → a ≠ b →
    colors !! idx a = Some ca → colors !! idx b = Some cb → ca ≠ cb
}.

(** A test for [proper]: the table has the length of the node table, holds
    colours below [k] only, and differs at the two ends of every edge. *)
Definition proper_check (g : Graph) (k : usize) (colors : list usize) : bool :=
  bool_decide (length colors = length (nodes g)) &&
  bool_decide (Forall (λ c, (c < k)%N) colors) &&
  bool_decide (Forall (λ a, Forall (λ b,
      a = b ∨ colors !! idx a ≠ colors !! idx b)
    (TBitSet.iter (nbrs (nodes g) a))) (TVec.index_iter (nodes g))).

(** ** The executable test is sound *)

Lemma nbrs_check_sound orig graph later todo l a e :
  nbrs_check orig graph later todo = true → todo = l ++ a :: e →
  nbrs graph a = nbrs orig a ∩ ({[a]} ∪ list_to_set (later ++ l)).
Proof.
  revert later l. induction todo as [|x todo IH]; intros later l Hc Hs;
    [by destruct l|].
  simpl in Hc. apply andb_prop in Hc as [Hx%bool_decide_eq_true Hc].
  destruct l as [|y l]; injection Hs as -> ->; [by rewrite app_nil_r|].
  rewrite (IH (later ++ [y]) l Hc eq_refl). by rewrite <-app_assoc.
Qed.

Lemma order_check_sound orig k stack graph :
  order_check orig k stack graph = true → EliminationOrder orig k stack graph.
Proof.
  unfold order_check. rewrite !andb_true_iff, !bool_decide_eq_true.
  intros (((((Hlen & Hnd) & Hset) & Hn) & Hdeg) & Hk). split; try done.
  - intros a. rewrite <-TVec.elem_of_index_iter.
    rewrite <-(TBitSet.elem_of_collect (TVec.index_iter orig)), <-Hset.
    set_solver.
  - intros later a earlier Hs. by apply (nbrs_check_sound _ _ [] stack later a earlier).
  - by apply Forall_forall.
Qed.

(** ** The executable test is complete *)

Lemma nbrs_check_complete orig graph later todo :
  (∀ l a e, todo = l ++ a :: e →
     nbrs graph a = nbrs orig a ∩ ({[a]} ∪ list_to_set (later ++ l))) →
  nbrs_check orig graph later todo = true.
Proof.
  revert later. induction todo as [|x todo IH]; intros later Hall; [done|].
  simpl. apply andb_true_intro. split.
  - apply bool_decide_eq_true. rewrite (Hall [] x todo eq_refl).
    by rewrite app_nil_r.
  - apply IH. intros l a e ->. rewrite <-app_assoc.
    by apply (Hall (x :: l) a e).
Qed.

Lemma order_check_complete orig k stack graph :
  EliminationOrder orig k stack graph → order_check orig k stack graph = true.
Proof.
  intros [Hlen Hnd Hnodes Hnbrs Hdeg Hk]. unfold order_check.
  rewrite !andb_true_iff, !bool_decide_eq_true. split_and!; try done.
  - apply set_eq. intros a.
    rewrite elem_of_list_to_set, TBitSet.elem_of_collect,
      TVec.elem_of_index_iter. apply Hnodes.
  - apply nbrs_check_complete. intros l a e. apply Hnbrs.
  - by apply Forall_forall.
Qed.

Lemma order_check_spec orig k stack graph :
  order_check orig k stack graph = true ↔ EliminationOrder orig k stack graph.
Proof. split; [apply order_check_sound|apply order_check_complete]. Qed.

#[global] Instance EliminationOrder_dec orig k stack graph :
  Decision (EliminationOrder orig k stack graph).
Proof.
  refine (cast_if (decide (order_check orig k stack graph = true)));
    by rewrite <-order_check_spec.
Defined.

Lemma proper_check_spec g k colors :
  proper_check g k colors = true ↔ proper g k colors.
Proof.
  unfold proper_check. rewrite !andb_true_iff, !bool_decide_eq_true.
  rewrite !Forall_forall. setoid_rewrite Forall_forall.
  setoid_rewrite TBitSet.elem_of_iter. setoid_rewrite TVec.elem_of_index_iter.
  split.
  - intros [[Hlen Hr] He]. split; [done| |].
    + intros a c Hc. by apply Hr, (list_elem_of_lookup_2 _ (idx a)).
    + intros a b ca cb Hab Hne Ha Hb ->.
      destruct (He a (adj_node_of _ _ _ Hab) b Hab); congruence.
  - intros [Hlen Hr He]. split_and!; [done| |].
    + intros c [i Hi]%list_elem_of_lookup_1. apply (Hr (of_idx i)).
      by rewrite idx_of_idx.
    + intros a Ha b Hb. destruct (decide (a = b)) as [|Hne]; [by left|].
      right. intros Heq.
      destruct (lookup_lt_is_Some_2 colors (idx a)) as [ca Hca];
        [by rewrite Hlen|].
      by apply (He a b ca ca); [..|congruence|].
Qed.

#[global] Instance proper_dec g k colors : Decision (proper g k colors).
Proof.
  refine (cast_if (decide (proper_check g k colors = true)));
    by rewrite <-proper_check_spec.
Defined.

(** ** Elimination orders bound the degeneracy *)

(** Among the members of a non-empty set of stacked nodes, one was
    eliminated first: the others lie above it on the stack. *)
Lemma first_eliminated (stack : list NodeId) (S : gset NodeId) :
  S ≠ ∅ → (∀ a, a ∈ S → a ∈ stack) →
  ∃ later a earlier, stack = later ++ a :: earlier ∧ a ∈ S ∧
    ∀ b, b ∈ S → b = a ∨ b ∈ later.
Proof.
  revert S. induction stack as [|x l IH]; intros S Hne Hin.
  { apply set_choose_L in Hne as [a Ha]. by apply Hin, elem_of_nil in Ha. }
  destruct (decide (S ∖ {[x]} = ∅)) as [He|Hne'].
  - assert (∀ b, b ∈ S → b = x) as Hx.
    { intros b Hb. destruct (decide (b = x)); [done|set_solver]. }
    exists [], x, l. apply set_choose_L in Hne as [a Ha].
    split_and!; [done|by rewrite <-(Hx a Ha)|auto].
  - destruct (IH (S ∖ {[x]})) as (later & a & earlier & -> & Ha & Hall);
      [done|set_solver|].
    exists (x :: later), a, earlier. split_and!; [done|set_solver|].
    intros b Hb. destruct (decide (b = x)) as [->|]; [set_solver|].
    destruct (Hall b); set_solver.
Qed.

(** A set of nodes in which every member has at least [m] neighbours
    bounds every ordering of a loop-free table from below. *)
Lemma ordering_dense orig d stack (S : gset NodeId) (m : usize) :
  loop_free (MkGraph orig) → ordering orig d stack →
  S ≠ ∅ → (∀ a, a ∈ S → TVec.in_bounds orig a) →
  (∀ a, a ∈ S → (m ≤ degree_in orig S a)%N) → (m ≤ d)%N.
Proof.
  intros Hl [_ Hnodes Hdeg] Hne Hin Hm.
  destruct (first_eliminated stack S) as (later & a & earlier & Hs & Ha & Hall);
    [done|by intros a ?%Hin%Hnodes|].
  etrans; [by apply Hm|]. etrans; [|by eapply Hdeg].
  apply TBitSet.element_count_mono.
  intros b [Hb HS]%elem_of_intersection. apply elem_of_intersection.
  split; [done|]. destruct (Hall b HS) as [->|?]; [|set_solver].
  by destruct (Hl a).
Qed.

Section order_degeneracy.
Context (orig : list (gset NodeId)) (k : usize) (stack : list NodeId)
  (graph : list (gset NodeId)) `{!EliminationOrder orig k stack graph}.

(** On a loop-free table the stack of an elimination order is an ordering
    with bound [k - 1]. *)
Lemma order_ordering :
  loop_free (MkGraph orig) → ordering orig (k - 1) stack.
Proof.
  intros Hl. split; [apply ord_nodup|apply ord_nodes|].
  intros later a earlier Hs.
  assert (a ∈ stack) as Ha%(ord_degree (graph:=graph)) by (rewrite Hs; set_solver).
  enough (degree_in orig (list_to_set later) a = connected graph a) by lia.
  unfold degree_in, connected. rewrite (ord_nbrs (graph:=graph) _ _ _ Hs).
  f_equal. apply set_eq. intros b. specialize (Hl a). unfold adj in Hl.
  simpl in Hl. destruct (decide (b = a)) as [->|]; set_solver.
Qed.

End order_degeneracy.
