(* ===== verification/Elimination.v ===== *)
(** * Phase 1 of [minimal_coloring]: smallest-last elimination

    Models the first loop of [Graph::minimal_coloring] in [src/src/lib.rs]
    (the labelled loop ['outer]).  Its local variables are the fields of
    [elim_state]: the threshold [k], the [stack] of eliminated nodes (the
    head of the list is the top of the stack), the working copy [graph] of
    the adjacency table and the set [alive] of nodes not yet eliminated.

    - [scan] is the inner [for node in alive.iter()] loop: it stops at the
      first node with fewer than [k] neighbours, or returns the minimum of
      [connected + 1] over the nodes it saw;
    - [detach] is the innermost loop, which removes the eliminated node from
      the adjacency set of every node still alive;
    - [round] is one iteration of the body of ['outer];
    - [elimination] is the loop itself, with a budget of iterations.

    [elim_inv] is the loop invariant, [rounds_left] the termination measure
    and [tight] the witness that the threshold is never raised too far.
    Lemmas on the whole loop go by [elimination_loop_ind], induction on the
    rounds of a loop that returns; [elimination_rounds] counts them: one
    for every node and at most one for every value the threshold passes. *)

From stdpp Require Import sorting gmap numbers list.
From S2P Require Import Prelude Tindex Graph Degeneracy.

#[local] Set Warnings "-clear-no-such-hyp".

(** The local variables of the loop. *)
Record elim_state : Type := MkElim {
  st_k : usize;
  st_stack : list NodeId;
  st_graph : TVec NodeId (TBitSet NodeId);
  st_alive : TBitSet NodeId
}.

(** How the inner [for] loop ends: by [continue 'outer] at a node, or by
    running to the end with the minimum it computed. *)
Inductive scan_outcome : Set :=
| Found (node : NodeId)
| Minimum (min_k : usize).

(** [for node in alive.iter() { ... }] up to the elimination itself. *)
Fixpoint scan (graph : TVec NodeId (TBitSet NodeId)) (k min_k : usize)
    (nodes : list NodeId) : result scan_outcome :=
  match nodes with
  | [] => Ok (Minimum min_k)
  | node :: rest =>
      s ← TVec.index graph node;
      let connected := TBitSet.element_count s in
      if decide (connected < k)%N then Ok (Found node)
      else
        c ← usize_add connected 1;
        scan graph k (if decide (c < min_k)%N then c else min_k) rest
  end.

(** [for other in alive.iter() { graph[other].remove(node); }] *)
Definition detach (graph : TVec NodeId (TBitSet NodeId)) (node : NodeId)
    (others : list NodeId) : result (TVec NodeId (TBitSet NodeId)) :=
  foldM (λ g other, TVec.update g other (λ s, TBitSet.remove s node))
    graph others.

(** The body of [if connected < k { ... }] before [continue 'outer]. *)
Definition eliminate (st : elim_state) (node : NodeId) : result elim_state :=
  let alive := TBitSet.remove (st_alive st) node in
  let stack := node :: st_stack st in
  graph ← detach (st_graph st) node (TBitSet.iter alive);
  Ok {| st_k := st_k st; st_stack := stack; st_graph := graph;
        st_alive := alive |}.

(** One iteration of ['outer]. *)
Definition round (st : elim_state) : result elim_state :=
  r ← scan (st_graph st) (st_k st) usize_max (TBitSet.iter (st_alive st));
  match r with
  | Found node => eliminate st node
  | Minimum min_k =>
      Ok {| st_k := min_k; st_stack := st_stack st; st_graph := st_graph st;
            st_alive := st_alive st |}
  end.

(** ['outer: while !alive.is_empty() { ... }] with at most [fuel] iterations. *)
Fixpoint elimination (fuel : nat) (st : elim_state) : result elim_state :=
  if TBitSet.is_empty (st_alive st) then Ok st
  else match fuel with
       | 0 => Err OutOfFuel
       | S fuel => st' ← round st; elimination fuel st'
       end.

(** The state on entry: [k = 0], an empty stack, a clone of the table and
    every node alive. *)
Definition elim_init (nodes : TVec NodeId (TBitSet NodeId)) : elim_state :=
  {| st_k := 0; st_stack := []; st_graph := nodes;
     st_alive := TBitSet.collect (TVec.index_iter nodes) |}.

(** Iterations that are always enough: each node costs at most one round
    that raises [k] and one that eliminates it. *)
Definition elim_fuel (nodes : TVec NodeId (TBitSet NodeId)) : nat :=
  2 * length nodes.

(** ** The inner scan *)

(** Whether the next scan leaves the round early: it finds a node to
    eliminate (or panics) instead of running to the end. *)
Definition stops (st : elim_state) : bool :=
  match scan (st_graph st) (st_k st) usize_max (TBitSet.iter (st_alive st)) with
  | Ok (Minimum _) => false
  | _ => true
  end.

(** The termination measure of ['outer]: two rounds for every alive node,
    one less when the next round is known to eliminate. *)
Definition rounds_left (st : elim_state) : nat :=
  2 * size (st_alive st) - (if stops st then 1 else 0).

(** The loop invariant.

    [orig] is the table the loop started from (the caller's graph).  The
    comment in the source reads: "all alive nodes only connect to other
    living nodes, the node on top of the stack also only connects to living
    nodes".  The invariant makes this exact: the set of an alive node is its
    original set restricted to the alive nodes, and the set of an eliminated
    node is its original set restricted to itself, the nodes eliminated
    after it and the alive nodes; it had fewer than [k] members when the
    node was eliminated. *)
Record elim_inv (orig : list (gset NodeId)) (st : elim_state) : Prop := {
  inv_length : length (st_graph st) = length orig;
  inv_cover : ∀ a, TVec.in_bounds orig a ↔ a ∈ st_alive st ∨ a ∈ st_stack st;
  inv_disjoint : ∀ a, a ∈ st_alive st → a ∉ st_stack st;
  inv_nodup : NoDup (st_stack st);
  inv_alive_nbrs : ∀ a, a ∈ st_alive st →
    nbrs (st_graph st) a = nbrs orig a ∩ st_alive st;
  inv_stack_nbrs : ∀ later a earlier, st_stack st = later ++ a :: earlier →
    nbrs (st_graph st) a =
      nbrs orig a ∩ ({[a]} ∪ list_to_set later ∪ st_alive st);
  inv_stack_degree : ∀ a, a ∈ st_stack st →
    (connected (st_graph st) a < st_k st)%N;
  inv_k : (st_k st ≤ max_degree (MkGraph orig) + 1)%N
}.

(** The threshold is not too high: unless it is [0], there is a non-empty
    set of nodes each with at least [k - 1] neighbours inside the set (the
    alive set when [k] was last raised). *)
Definition tight (orig : list (gset NodeId)) (st : elim_state) : Prop :=
  st_k st = 0%N ∨
  ∃ S : gset NodeId, S ≠ ∅ ∧ (∀ a, a ∈ S → TVec.in_bounds orig a) ∧
    ∀ a, a ∈ S → (st_k st ≤ degree_in orig S a + 1)%N.

Section scan.
Implicit Types (graph : list (gset NodeId)) (k m : usize) (a b : NodeId).

Lemma scan_cons graph k m a l :
  TVec.in_bounds graph a →
  scan graph k m (a :: l) =
    if decide (connected graph a < k)%N then Ok (Found a)
    else c ← usize_add (connected graph a) 1;
         scan graph k (if decide (c < m)%N then c else m) l.
Proof. intros Ha. simpl. by rewrite index_nbrs. Qed.

Lemma scan_cons_Ok graph k m a l r :
  scan graph k m (a :: l) = Ok r →
  TVec.in_bounds graph a ∧
  ((connected graph a < k)%N ∧ r = Found a ∨
   (k ≤ connected graph a)%N ∧ (connected graph a + 1 ≤ usize_max)%N ∧
   scan graph k (N.min (connected graph a + 1) m) l = Ok r).
Proof.
  intros Hscan.
  assert (TVec.in_bounds graph a) as Ha.
  { simpl in Hscan. apply bind_Ok in Hscan as (s & Hs%TVec.index_Ok & _).
    apply TVec.in_bounds_lookup. eauto. }
  split; [done|]. rewrite scan_cons in Hscan by done.
  case_decide as Hk; [left; by simplify_eq|right].
  apply bind_Ok in Hscan as (c & [-> Hc]%usize_add_Ok & Hscan).
  split_and!; [lia|done|]. rewrite <-Hscan. f_equal. case_decide; lia.
Qed.

(** [continue 'outer] is taken at the first node, in iteration order, that
    has fewer than [k] neighbours. *)
Lemma scan_Found graph k m l a :
  scan graph k m l = Ok (Found a) →
  ∃ pre post, l = pre ++ a :: post ∧ (connected graph a < k)%N ∧
    ∀ b, b ∈ pre → (k ≤ connected graph b)%N.
Proof.
  revert m. induction l as [|x l IH]; intros m Hscan; [done|].
  apply scan_cons_Ok in Hscan as [Hx [[Hk [= ->]]|(Hk & _ & Hscan)]].
  - exists [], l. set_solver.
  - apply IH in Hscan as (pre & post & -> & Ha & Hpre).
    exists (x :: pre), post. set_solver.
Qed.

(** A scan that runs to the end saw no node with fewer than [k] neighbours
    and returns the least [connected + 1], capped by the initial [min_k]. *)
Lemma scan_Minimum graph k m l m' :
  scan graph k m l = Ok (Minimum m') →
  (∀ b, b ∈ l → TVec.in_bounds graph b ∧ (k ≤ connected graph b)%N ∧
     (m' ≤ connected graph b + 1 ≤ usize_max)%N) ∧
  (m' ≤ m)%N ∧ (m' = m ∨ ∃ b, b ∈ l ∧ m' = (connected graph b + 1)%N).
Proof.
  revert m. induction l as [|x l IH]; intros m Hscan.
  { simpl in Hscan. simplify_eq. set_solver. }
  apply scan_cons_Ok in Hscan as [Hx [[_ [=]]|(Hk & Hov & Hscan)]].
  apply IH in Hscan as (Hall & Hle & Hmin). split_and!.
  - intros b [->|Hb]%elem_of_cons; [split_and!; [done|done|lia|done]|by apply Hall].
  - lia.
  - destruct Hmin as [->|(b & Hb & ->)]; [|right; exists b; set_solver].
    destruct (N.min_spec (connected graph x + 1) m) as [[_ ->]|[_ ->]];
      [right; exists x; set_solver|by left].
Qed.

(** The scan does not panic on nodes of the table whose degree can be
    incremented. *)
Lemma scan_total graph k m l :
  (∀ b, b ∈ l → TVec.in_bounds graph b ∧ (connected graph b < usize_max)%N) →
  ∃ r, scan graph k m l = Ok r.
Proof.
  revert m. induction l as [|x l IH]; intros m Hl; [by eexists|].
  destruct (Hl x) as [Hx Hc]; [left|]. rewrite scan_cons by done.
  case_decide; [by eexists|]. unfold usize_add. rewrite decide_True by lia.
  simpl. apply IH. intros b Hb. apply Hl. by right.
Qed.

(** With the threshold a completed scan returned, the scan stops at a node. *)
Lemma scan_after_Minimum graph k l m' :
  l ≠ [] → scan graph k usize_max l = Ok (Minimum m') →
  ∃ a, scan graph m' usize_max l = Ok (Found a).
Proof.
  intros Hne Hscan. pose proof Hscan as (Hall & Hle & Hmin)%scan_Minimum.
  assert (∃ b, b ∈ l ∧ (connected graph b < m')%N) as (b & Hb & Hlt).
  { destruct Hmin as [->|(b & Hb & ->)]; [|exists b; split; [done|lia]].
    destruct l as [|b l]; [done|]. exists b. split; [left|].
    destruct (Hall b) as (_ & _ & ?); [left|]. lia. }
  clear Hscan Hmin Hle Hne. generalize usize_max as m.
  induction l as [|x l IH]; intros m; [set_solver|].
  destruct (Hall x) as (Hx & Hkx & Hmx); [left|]. rewrite scan_cons by done.
  case_decide; [by eexists|].
  apply elem_of_cons in Hb as [->|Hb]; [lia|].
  unfold usize_add. rewrite decide_True by lia. simpl.
  apply IH; [|done]. intros c Hc. apply Hall. by right.
Qed.

End scan.

(** ** Eliminating one node *)

Section eliminate.
Implicit Types (graph : list (gset NodeId)) (a b node : NodeId).

(** [detach] removes [node] from the set of every node it visits and leaves
    the other sets alone. *)
Lemma detach_spec graph node others graph' :
  detach graph node others = Ok graph' →
  length graph' = length graph ∧
  ∀ x, nbrs graph' x =
    if decide (x ∈ others) then TBitSet.remove (nbrs graph x) node
    else nbrs graph x.
Proof.
  unfold detach. intros Hd.
  set (P := λ (pre : list NodeId) g, length g = length graph ∧ ∀ x, nbrs g x =
    if decide (x ∈ pre) then TBitSet.remove (nbrs graph x) node
    else nbrs graph x).
  revert Hd. apply (foldM_ind _ P); unfold P; clear P.
  { split; [done|]. intros x. by rewrite decide_False by set_solver. }
  intros pre a g g' _ [Hlen Hn] Hu. split.
  { by rewrite (TVec.update_length _ _ _ _ Hu). }
  intros x. rewrite (nbrs_update _ _ _ _ x Hu), !Hn.
  repeat case_decide; simplify_eq; set_solver.
Qed.

Lemma detach_total graph node others :
  (∀ b, b ∈ others → TVec.in_bounds graph b) →
  ∃ graph', detach graph node others = Ok graph'.
Proof.
  intros Hin.
  destruct (foldM_total
    (λ g other, TVec.update g other (λ s, TBitSet.remove s node))
    (λ g, length g = length graph) others graph) as (g' & Hg' & _); [done| |eauto].
  intros a g Ha Hlen.
  destruct (TVec.update_in_bounds g a (λ s, TBitSet.remove s node))
    as (s & _ & Hu).
  { unfold TVec.in_bounds. rewrite Hlen. by apply Hin. }
  eexists. split; [done|]. by rewrite (TVec.update_length _ _ _ _ Hu).
Qed.

Lemma detach_in_bounds graph node others graph' b :
  detach graph node others = Ok graph' → b ∈ others → TVec.in_bounds graph b.
Proof.
  intros Hd Hb. apply list_elem_of_split in Hb as (pre & post & ->).
  unfold detach in Hd. rewrite foldM_app in Hd.
  apply bind_Ok in Hd as (g1 & Hpre & Hpost). simpl in Hpost.
  apply bind_Ok in Hpost as (g2 & (s & Hs & _)%TVec.update_Ok & _).
  apply detach_spec in Hpre as [Hlen _].
  unfold TVec.in_bounds. rewrite <-Hlen. by eapply lookup_lt_Some.
Qed.

(** The state after an elimination. *)
Lemma eliminate_spec st node st' :
  eliminate st node = Ok st' →
  st_k st' = st_k st ∧ st_stack st' = node :: st_stack st ∧
  st_alive st' = st_alive st ∖ {[node]} ∧
  length (st_graph st') = length (st_graph st) ∧
  ∀ x, nbrs (st_graph st') x =
    if decide (x ∈ st_alive st ∧ x ≠ node)
    then nbrs (st_graph st) x ∖ {[node]} else nbrs (st_graph st) x.
Proof.
  unfold eliminate. intros He. simplify_result.
  match goal with H : detach _ _ _ = _ |- _ =>
    apply detach_spec in H as [Hlen Hn] end.
  split_and!; try done. intros y. rewrite Hn.
  apply decide_ext. rewrite TBitSet.elem_of_iter. set_solver.
Qed.

Lemma eliminate_total st node :
  (∀ b, b ∈ st_alive st → TVec.in_bounds (st_graph st) b) →
  ∃ st', eliminate st node = Ok st'.
Proof.
  intros Hin. unfold eliminate.
  destruct (detach_total (st_graph st) node
    (TBitSet.iter (TBitSet.remove (st_alive st) node))) as [g' ->]; [|by eexists].
  intros b ?%TBitSet.elem_of_iter. apply Hin. set_solver.
Qed.

End eliminate.

(** ** The loop invariant is kept *)

Section invariant.
Context (orig : list (gset NodeId)).
Implicit Types (st : elim_state) (a b node : NodeId).

Lemma elim_init_inv : bounded (MkGraph orig) → elim_inv orig (elim_init orig).
Proof.
  intros Hb. split; simpl.
  - done.
  - intros a. set_solver.
  - intros a _. set_solver.
  - constructor.
  - intros a _. apply set_eq. intros b. specialize (Hb a b).
    unfold adj, node_of in Hb. simpl in Hb. set_solver.
  - intros later a earlier Hnil. by destruct later.
  - intros a Ha. set_solver.
  - lia.
Qed.

Lemma inv_alive_in_bounds st a :
  elim_inv orig st → a ∈ st_alive st → TVec.in_bounds (st_graph st) a.
Proof.
  intros Hinv Ha. unfold TVec.in_bounds. rewrite (inv_length _ _ Hinv).
  apply (inv_cover _ _ Hinv). by left.
Qed.

(** The working table never records more neighbours than the original. *)
Lemma inv_nbrs_subseteq st a :
  elim_inv orig st → nbrs (st_graph st) a ⊆ nbrs orig a.
Proof.
  intros Hinv. destruct (decide (a ∈ st_alive st)) as [Ha|Ha].
  { rewrite (inv_alive_nbrs _ _ Hinv) by done. set_solver. }
  destruct (decide (a ∈ st_stack st)) as [(l & e & Hs)%list_elem_of_split|Hs].
  { rewrite (inv_stack_nbrs _ _ Hinv _ _ _ Hs). set_solver. }
  rewrite nbrs_out; [set_solver|]. unfold TVec.in_bounds.
  rewrite (inv_length _ _ Hinv). rewrite (inv_cover _ _ Hinv a). tauto.
Qed.

Lemma inv_connected_le st a :
  elim_inv orig st → TVec.in_bounds orig a →
  (connected (st_graph st) a ≤ max_degree (MkGraph orig))%N.
Proof.
  intros Hinv Ha. etrans; [|by apply (degree_le_max (MkGraph orig) a)].
  by apply TBitSet.element_count_mono, inv_nbrs_subseteq.
Qed.

(** Raising the threshold keeps the invariant. *)
Lemma inv_raise st k' :
  elim_inv orig st → (st_k st ≤ k' ≤ max_degree (MkGraph orig) + 1)%N →
  elim_inv orig {| st_k := k'; st_stack := st_stack st;
                   st_graph := st_graph st; st_alive := st_alive st |}.
Proof.
  intros [] Hk. split; simpl; try done; [|lia].
  intros a Ha. specialize (inv_stack_degree0 a Ha). lia.
Qed.

End invariant.

Section preservation.
Context (orig : list (gset NodeId)).
Implicit Types (st : elim_state) (a b node : NodeId).

(** What an elimination does to the neighbours, case by case. *)
Lemma eliminate_nbrs_alive st node st' a :
  eliminate st node = Ok st' → a ∈ st_alive st' →
  nbrs (st_graph st') a = nbrs (st_graph st) a ∖ {[node]}.
Proof.
  intros (_ & _ & Hal & _ & Hn)%eliminate_spec Ha. rewrite Hn.
  rewrite Hal in Ha. rewrite decide_True; set_solver.
Qed.

Lemma eliminate_nbrs_other st node st' a :
  eliminate st node = Ok st' → a ∉ st_alive st' →
  nbrs (st_graph st') a = nbrs (st_graph st) a.
Proof.
  intros (_ & _ & Hal & _ & Hn)%eliminate_spec Ha. rewrite Hn.
  rewrite Hal in Ha. rewrite decide_False; set_solver.
Qed.

Lemma eliminate_stack_nbrs st node st' later a earlier :
  elim_inv orig st → node ∈ st_alive st → eliminate st node = Ok st' →
  st_stack st' = later ++ a :: earlier →
  nbrs (st_graph st') a =
    nbrs orig a ∩ ({[a]} ∪ list_to_set later ∪ st_alive st').
Proof.
  intros Hinv Hnode He Hsplit.
  pose proof He as (_ & Hst & Hal & _)%eliminate_spec.
  assert (a ∉ st_alive st') as Ha.
  { rewrite Hal. rewrite Hst in Hsplit.
    destruct later as [|x later]; injection Hsplit as -> Hs; [set_solver|].
    intros [Ha%(inv_disjoint _ _ Hinv) _]%elem_of_difference.
    apply Ha. rewrite Hs. set_solver. }
  rewrite (eliminate_nbrs_other _ _ _ _ He Ha), Hal.
  rewrite Hst in Hsplit.
  destruct later as [|x later]; injection Hsplit as -> Hs.
  - rewrite (inv_alive_nbrs _ _ Hinv) by done.
    apply set_eq. intros b. destruct (decide (b = a)); set_solver.
  - rewrite (inv_stack_nbrs _ _ Hinv _ _ _ Hs).
    apply set_eq. intros b. destruct (decide (b = x)); set_solver.
Qed.

(** Eliminating an alive node with fewer than [k] neighbours keeps the
    invariant. *)
Lemma eliminate_inv st node st' :
  elim_inv orig st → node ∈ st_alive st →
  (connected (st_graph st) node < st_k st)%N →
  eliminate st node = Ok st' → elim_inv orig st'.
Proof.
  intros Hinv Hnode Hdeg He.
  pose proof He as (Hk & Hst & Hal & Hlen & _)%eliminate_spec.
  pose proof (inv_disjoint _ _ Hinv) as Hdis.
  split.
  - by rewrite Hlen, (inv_length _ _ Hinv).
  - intros a. rewrite (inv_cover _ _ Hinv), Hst, Hal.
    destruct (decide (a = node)); set_solver.
  - intros a. rewrite Hst, Hal. set_solver.
  - rewrite Hst. apply NoDup_cons. split; [by apply Hdis|apply Hinv].
  - intros a Ha. rewrite (eliminate_nbrs_alive _ _ _ _ He Ha).
    rewrite Hal in Ha |- *.
    rewrite (inv_alive_nbrs _ _ Hinv) by set_solver. set_solver.
  - intros later a earlier. by apply (eliminate_stack_nbrs st node).
  - intros a. rewrite Hst, Hk. unfold connected. intros Ha.
    rewrite (eliminate_nbrs_other _ _ _ a He).
    + apply elem_of_cons in Ha as [->|Ha]; [done|].
      by apply (inv_stack_degree _ _ Hinv).
    + rewrite Hal. apply elem_of_cons in Ha as [->|Ha]; [set_solver|].
      by intros [?%Hdis _]%elem_of_difference.
  - rewrite Hk. apply Hinv.
Qed.

End preservation.

(** ** One round *)

Section round.
Context (orig : list (gset NodeId)).
Implicit Types (st : elim_state) (a b node : NodeId).

Lemma round_Found st node st' :
  scan (st_graph st) (st_k st) usize_max (TBitSet.iter (st_alive st))
    = Ok (Found node) →
  round st = Ok st' → eliminate st node = Ok st'.
Proof. unfold round. by intros ->. Qed.

Lemma round_Minimum st m st' :
  scan (st_graph st) (st_k st) usize_max (TBitSet.iter (st_alive st))
    = Ok (Minimum m) →
  round st = Ok st' →
  st' = {| st_k := m; st_stack := st_stack st; st_graph := st_graph st;
           st_alive := st_alive st |}.
Proof. unfold round. intros ->. simpl. congruence. Qed.

(** The threshold a completed scan returns lies between the old threshold
    and the largest degree plus one. *)
Lemma scan_Minimum_bounds st m :
  elim_inv orig st → st_alive st ≠ ∅ →
  scan (st_graph st) (st_k st) usize_max (TBitSet.iter (st_alive st))
    = Ok (Minimum m) →
  (st_k st < m ≤ max_degree (MkGraph orig) + 1)%N.
Proof.
  intros Hinv Hne (Hall & _ & Hmin)%scan_Minimum.
  apply set_choose_L in Hne as [b0 Hb0].
  assert (∀ b, b ∈ st_alive st →
    (st_k st ≤ connected (st_graph st) b ≤ max_degree (MkGraph orig))%N
    ∧ (m ≤ connected (st_graph st) b + 1 ≤ usize_max)%N) as Hall'.
  { intros b Hb. destruct (Hall b) as (_ & ? & ?); [by apply TBitSet.elem_of_iter|].
    enough (connected (st_graph st) b ≤ max_degree (MkGraph orig))%N by lia.
    apply inv_connected_le; [done|]. apply (inv_cover _ _ Hinv). by left. }
  destruct (Hall' b0 Hb0) as [? ?].
  destruct Hmin as [->|(b & Hb%TBitSet.elem_of_iter & ->)]; [lia|].
  destruct (Hall' b Hb). lia.
Qed.

Lemma round_inv st st' :
  elim_inv orig st → st_alive st ≠ ∅ → round st = Ok st' → elim_inv orig st'.
Proof.
  intros Hinv Hne Hr. pose proof Hr as (r & Hscan & _)%bind_Ok.
  destruct r as [node|m].
  - apply (round_Found _ _ _ Hscan) in Hr.
    apply scan_Found in Hscan as (pre & post & Hit & Hdeg & _).
    apply (eliminate_inv orig st node); [done| |done..].
    apply TBitSet.elem_of_iter. rewrite Hit. set_solver.
  - rewrite (round_Minimum _ _ _ Hscan Hr). apply inv_raise; [done|].
    pose proof (scan_Minimum_bounds _ _ Hinv Hne Hscan). lia.
Qed.

(** On a table that passed the bounds check and is shorter than
    [usize::MAX], a round does not panic. *)
Lemma round_total st :
  bounded (MkGraph orig) → (TVec.len orig < usize_max)%N →
  elim_inv orig st → ∃ st', round st = Ok st'.
Proof.
  intros Hb Hlen Hinv. unfold round.
  destruct (scan_total (st_graph st) (st_k st) usize_max
    (TBitSet.iter (st_alive st))) as [r ->].
  { intros b Hb'%TBitSet.elem_of_iter. split; [by eapply inv_alive_in_bounds|].
    pose proof (max_degree_le_len (MkGraph orig) Hb) as Hmax. simpl in Hmax.
    enough (connected (st_graph st) b ≤ max_degree (MkGraph orig))%N by lia.
    apply inv_connected_le; [done|]. apply (inv_cover _ _ Hinv). by left. }
  destruct r as [node|m]; simpl; [|by eexists].
  apply eliminate_total. intros b. by apply (inv_alive_in_bounds orig).
Qed.

End round.

(** ** Termination *)

Section termination.
Implicit Types (st : elim_state) (a b node : NodeId).

Lemma scan_Err_kind graph k m l e :
  scan graph k m l = Err e → e = IndexOutOfBounds ∨ e = AddOverflow.
Proof.
  revert m. induction l as [|x l IH]; intros m; simpl; [done|].
  intros [[_ ->]%TVec.index_Err|(s & _ & He)]%bind_Err; [by left|].
  case_decide; [done|].
  apply bind_Err in He as [[_ ->]%usize_add_Err|(c & _ & ?%IH)]; auto.
Qed.

(** On nodes of the table the scan panics on the addition only, at a node
    with [usize::MAX] neighbours or more. *)
Lemma scan_Err_overflow graph k m l e :
  (∀ b, b ∈ l → TVec.in_bounds graph b) → scan graph k m l = Err e →
  e = AddOverflow ∧ ∃ b, b ∈ l ∧ (usize_max ≤ connected graph b)%N.
Proof.
  revert m. induction l as [|x l IH]; intros m Hl; [done|].
  rewrite scan_cons by (apply Hl; left). case_decide; [done|].
  intros [[Hov ->]%usize_add_Err|(c & _ & He)]%bind_Err.
  - split; [done|]. exists x. split; [left|lia].
  - destruct (IH _ ltac:(set_solver) He) as (-> & b & Hb & Hc).
    split; [done|]. exists b. split; [by right|done].
Qed.

Lemma eliminate_Err_kind st node e :
  eliminate st node = Err e → e = IndexOutOfBounds.
Proof.
  unfold eliminate. intros [He|(g & _ & [=])]%bind_Err.
  apply foldM_Err in He as (_ & a & _ & g & _ & _ & He).
  by apply TVec.update_Err in He as [_ ->].
Qed.

(** A round never reports an exhausted budget: it has none. *)
Lemma round_Err_kind st e : round st = Err e → e ≠ OutOfFuel.
Proof.
  unfold round. intros [He|(r & _ & He)]%bind_Err.
  { by apply scan_Err_kind in He as [->| ->]. }
  destruct r; [|done]. by apply eliminate_Err_kind in He as ->.
Qed.

Lemma iter_alive_nonempty st : st_alive st ≠ ∅ → TBitSet.iter (st_alive st) ≠ [].
Proof. intros Hne Hnil. by apply TBitSet.iter_nil in Hnil. Qed.

Lemma size_alive_pos st : st_alive st ≠ ∅ → 0 < size (st_alive st).
Proof.
  intros Hne. destruct (size (st_alive st)) eqn:Hs; [|lia].
  by apply size_empty_inv, leibniz_equiv in Hs.
Qed.

(** Every round that returns brings the loop closer to its end. *)
Lemma round_decreases st st' :
  st_alive st ≠ ∅ → round st = Ok st' → rounds_left st' < rounds_left st.
Proof.
  intros Hne Hr. pose proof (size_alive_pos _ Hne) as Hpos.
  pose proof Hr as (r & Hscan & _)%bind_Ok. unfold rounds_left at 2, stops.
  rewrite Hscan. destruct r as [node|m].
  - apply (round_Found _ _ _ Hscan) in Hr.
    apply scan_Found in Hscan as (pre & post & Hit & _).
    apply eliminate_spec in Hr as (_ & _ & Hal & _). unfold rounds_left.
    rewrite Hal, size_difference, size_singleton; [destruct (stops st'); lia|].
    apply singleton_subseteq_l, TBitSet.elem_of_iter. rewrite Hit. set_solver.
  - rewrite (round_Minimum _ _ _ Hscan Hr). unfold rounds_left, stops. simpl.
    destruct (scan_after_Minimum _ _ _ _ (iter_alive_nonempty _ Hne) Hscan)
      as [a ->]. lia.
Qed.

(** With a budget of at least [rounds_left] the loop does not run out. *)
Lemma elimination_fuel_enough fuel st :
  rounds_left st ≤ fuel → elimination fuel st ≠ Err OutOfFuel.
Proof.
  revert st. induction fuel as [|fuel IH]; intros st Hfuel; simpl;
    destruct (TBitSet.is_empty (st_alive st)) eqn:Hemp; try done;
    apply TBitSet.is_empty_false in Hemp as Hne.
  - pose proof (size_alive_pos _ Hne). unfold rounds_left in Hfuel.
    destruct (stops st); lia.
  - destruct (round st) as [st'|e] eqn:Hr; simpl.
    + apply IH. apply (round_decreases _ _ Hne) in Hr. lia.
    + intros [= ->]. by apply round_Err_kind in Hr.
Qed.

Lemma elimination_Err_kind fuel st e :
  elimination fuel st = Err e →
  e = IndexOutOfBounds ∨ e = AddOverflow ∨ e = OutOfFuel.
Proof.
  revert st. induction fuel as [|fuel IH]; intros st; simpl;
    destruct (TBitSet.is_empty (st_alive st)); try done; [naive_solver|].
  intros [He|(st' & _ & ?%IH)]%bind_Err; [|done].
  unfold round in He. apply bind_Err in He as [He|(r & _ & He)].
  { apply scan_Err_kind in He. naive_solver. }
  destruct r; [|done]. apply eliminate_Err_kind in He. auto.
Qed.

Lemma size_alive_init nodes :
  size (st_alive (elim_init nodes)) ≤ length nodes.
Proof. apply size_nodes_le. intros a. set_solver. Qed.

Lemma rounds_left_init nodes : rounds_left (elim_init nodes) ≤ elim_fuel nodes.
Proof.
  pose proof (size_alive_init nodes). unfold rounds_left, elim_fuel. lia.
Qed.

End termination.

(** ** The whole loop *)

Section loop.
Context (orig : list (gset NodeId)).
Implicit Types (st : elim_state) (fuel : nat).

Lemma elimination_unfold fuel st :
  st_alive st ≠ ∅ →
  elimination (S fuel) st = round st ≫= elimination fuel.
Proof.
  intros Hne%TBitSet.is_empty_false. simpl. by rewrite Hne.
Qed.

Lemma elimination_done fuel st : st_alive st = ∅ → elimination fuel st = Ok st.
Proof. intros He%TBitSet.is_empty_true. destruct fuel; simpl; by rewrite He. Qed.

(** Induction on the rounds of a loop that returns: the loop is at its end,
    or it runs a round and then the rest of the loop. *)
Lemma elimination_loop_ind (P : nat → elim_state → elim_state → Prop) :
  (∀ fuel st, st_alive st = ∅ → P fuel st st) →
  (∀ fuel st st1 st', st_alive st ≠ ∅ → round st = Ok st1 →
     elimination fuel st1 = Ok st' → P fuel st1 st' → P (S fuel) st st') →
  ∀ fuel st st', elimination fuel st = Ok st' → P fuel st st'.
Proof.
  intros Hend Hround fuel. induction fuel as [|fuel IH]; intros st st';
    (destruct (decide (st_alive st = ∅)) as [He|Hne];
      [rewrite elimination_done by done; intros [= <-]; by apply Hend|]).
  - simpl. by rewrite (proj2 (TBitSet.is_empty_false _) Hne).
  - rewrite elimination_unfold by done. intros (st1 & Hr & Hrun)%bind_Ok.
    apply (Hround fuel st st1); auto.
Qed.

(** The invariant holds when the loop returns, and no node is left alive. *)
Lemma elimination_inv fuel st st' :
  elim_inv orig st → elimination fuel st = Ok st' →
  elim_inv orig st' ∧ st_alive st' = ∅.
Proof.
  intros Hinv Hel. revert Hinv. revert fuel st st' Hel.
  apply (elimination_loop_ind
    (λ _ st st', elim_inv orig st → elim_inv orig st' ∧ st_alive st' = ∅));
    [done|].
  intros _ st st1 st' Hne Hr _ IH Hinv. by apply IH, (round_inv orig st).
Qed.

(** On a table that passed the bounds check and is shorter than
    [usize::MAX], the loop returns within its budget. *)
Lemma elimination_total fuel st :
  bounded (MkGraph orig) → (TVec.len orig < usize_max)%N →
  elim_inv orig st → rounds_left st ≤ fuel →
  ∃ st', elimination fuel st = Ok st'.
Proof.
  intros Hb Hlen. revert st. induction fuel as [|fuel IH]; intros st Hinv Hfuel;
    (destruct (decide (st_alive st = ∅)) as [He|Hne];
      [rewrite elimination_done by done; by eexists|]).
  - pose proof (size_alive_pos _ Hne). unfold rounds_left in Hfuel.
    destruct (stops st); lia.
  - rewrite elimination_unfold by done.
    destruct (round_total orig st) as [st1 Hr]; [done..|]. rewrite Hr. simpl.
    apply IH; [by apply (round_inv orig st)|].
    apply (round_decreases _ _ Hne) in Hr. lia.
Qed.

(** A round panics on a table that passed the bounds check only when
    [connected + 1] overflows, for which the table needs [usize::MAX]
    nodes. *)
Lemma round_Err st e :
  bounded (MkGraph orig) → elim_inv orig st → round st = Err e →
  e = AddOverflow ∧ (usize_max ≤ TVec.len orig)%N.
Proof.
  intros Hbd Hinv. unfold round. intros [He|(r & _ & He)]%bind_Err.
  - apply scan_Err_overflow in He as (-> & b & Hb%TBitSet.elem_of_iter & Hc);
      [|intros b ?%TBitSet.elem_of_iter; by eapply inv_alive_in_bounds].
    split; [done|]. pose proof (max_degree_le_len (MkGraph orig) Hbd) as Hmax.
    assert (connected (st_graph st) b ≤ max_degree (MkGraph orig))%N.
    { apply inv_connected_le; [done|]. apply (inv_cover _ _ Hinv). by left. }
    simpl in Hmax. lia.
  - destruct r as [node|]; [|done].
    destruct (eliminate_total st node) as [st' Hst']; [|congruence].
    intros b. by apply (inv_alive_in_bounds orig).
Qed.

Lemma elimination_Err fuel st e :
  bounded (MkGraph orig) → elim_inv orig st → elimination fuel st = Err e →
  e = OutOfFuel ∨ e = AddOverflow ∧ (usize_max ≤ TVec.len orig)%N.
Proof.
  intros Hbd. revert st. induction fuel as [|fuel IH]; intros st Hinv;
    (destruct (decide (st_alive st = ∅)) as [He|Hne];
      [by rewrite elimination_done by done|]).
  - simpl. rewrite (proj2 (TBitSet.is_empty_false _) Hne). intros [= <-].
    by left.
  - rewrite elimination_unfold by done.
    intros [He|(st1 & Hr & He)]%bind_Err; [right; by eapply round_Err|].
    apply (IH st1); [by apply (round_inv orig st)|done].
Qed.

End loop.

(** ** The number of rounds *)

Section rounds.
Implicit Types (st : elim_state) (fuel : nat).

(** What a round does to the two quantities that bound the loop: it takes
    a node from the alive set and leaves the threshold, or it leaves the
    alive set and raises the threshold. *)
Lemma round_progress st st' :
  st_alive st ≠ ∅ → round st = Ok st' →
  (S (size (st_alive st')) = size (st_alive st) ∧ st_k st' = st_k st) ∨
  (st_alive st' = st_alive st ∧ (st_k st < st_k st')%N).
Proof.
  intros Hne Hr. pose proof Hr as (r & Hscan & _)%bind_Ok.
  destruct r as [node|m].
  - left. apply (round_Found _ _ _ Hscan) in Hr.
    apply scan_Found in Hscan as (pre & post & Hit & _).
    apply eliminate_spec in Hr as (Hk & _ & Hal & _). split; [|done].
    assert (node ∈ st_alive st) as Hn.
    { apply TBitSet.elem_of_iter. rewrite Hit. set_solver. }
    rewrite Hal, size_difference, size_singleton by set_solver.
    pose proof (size_alive_pos _ Hne). lia.
  - right. rewrite (round_Minimum _ _ _ Hscan Hr). split; [done|]. simpl.
    apply scan_Minimum in Hscan as (Hall & _ & Hmin).
    apply set_choose_L in Hne as [b0 Hb0%TBitSet.elem_of_iter].
    destruct (Hall b0 Hb0) as (_ & ? & ?).
    destruct Hmin as [->|(b & Hb & ->)]; [lia|].
    destruct (Hall b Hb) as (_ & ? & _). lia.
Qed.

(** The threshold the loop returns is at least the one it started with. *)
Lemma elimination_k_le fuel st st' :
  elimination fuel st = Ok st' → (st_k st ≤ st_k st')%N.
Proof.
  revert fuel st st'.
  apply (elimination_loop_ind (λ _ st st', st_k st ≤ st_k st')%N); [done|].
  intros _ st st1 st' Hne Hr _ IH.
  destruct (round_progress _ _ Hne Hr) as [[_ Hk]|[_ Hk]]; lia.
Qed.

(** A larger budget does not change what the loop returns. *)
Lemma elimination_fuel_mono fuel fuel' st st' :
  elimination fuel st = Ok st' → fuel ≤ fuel' →
  elimination fuel' st = Ok st'.
Proof.
  intros Hel. revert fuel'. revert fuel st st' Hel.
  apply (elimination_loop_ind (λ fuel st st',
    ∀ fuel', fuel ≤ fuel' → elimination fuel' st = Ok st')).
  - intros _ st He fuel' _. by apply elimination_done.
  - intros fuel st st1 st' Hne Hr _ IH [|fuel'] Hle; [lia|].
    rewrite elimination_unfold, Hr by done. apply IH. lia.
Qed.

(** The loop returns within as many rounds as it has nodes to eliminate
    and steps to raise the threshold by. *)
Lemma elimination_rounds fuel st st' :
  elimination fuel st = Ok st' →
  elimination (size (st_alive st) + N.to_nat (st_k st' - st_k st)) st
    = Ok st'.
Proof.
  revert fuel st st'. apply (elimination_loop_ind (λ _ st st',
    elimination (size (st_alive st) + N.to_nat (st_k st' - st_k st)) st
      = Ok st')).
  { intros _ st He. by apply elimination_done. }
  intros fuel st st1 st' Hne Hr Hk%elimination_k_le IH.
  apply (elimination_fuel_mono
    (S (size (st_alive st1) + N.to_nat (st_k st' - st_k st1)))).
  { by rewrite elimination_unfold, Hr by done. }
  destruct (round_progress _ _ Hne Hr) as [[Hs Hk1]|[Ha Hk1]].
  - rewrite Hk1. lia.
  - rewrite Ha. lia.
Qed.

Lemma elimination_init_rounds nodes fuel st :
  elimination fuel (elim_init nodes) = Ok st →
  elimination (length nodes + N.to_nat (st_k st)) (elim_init nodes) = Ok st.
Proof.
  intros Hel%elimination_rounds. eapply elimination_fuel_mono; [done|].
  pose proof (size_alive_init nodes). simpl in *. lia.
Qed.

End rounds.

(** When the loop has returned, its variables form an elimination order. *)
Lemma elim_inv_order orig st :
  elim_inv orig st → st_alive st = ∅ →
  EliminationOrder orig (st_k st) (st_stack st) (st_graph st).
Proof.
  intros Hinv He. split.
  - apply Hinv.
  - apply Hinv.
  - intros a. rewrite (inv_cover _ _ Hinv), He. set_solver.
  - intros later a earlier Hs. rewrite (inv_stack_nbrs _ _ Hinv _ _ _ Hs), He.
    set_eq_solver.
  - apply Hinv.
  - apply Hinv.
Qed.


(** ** Properties of phase 1 *)

Section least.
Implicit Types (graph : list (gset NodeId)) (alive : gset NodeId).

(** The node at which the scan of the alive set stops is the alive node of
    least index with fewer than [k] neighbours. *)
Lemma scan_Found_least graph k m alive a :
  scan graph k m (TBitSet.iter alive) = Ok (Found a) →
  a ∈ alive ∧ (connected graph a < k)%N ∧
  ∀ b, b ∈ alive → (connected graph b < k)%N → index_le a b.
Proof.
  intros (pre & post & Hit & Ha & Hpre)%scan_Found. split_and!; [|done|].
  - apply TBitSet.elem_of_iter. rewrite Hit. set_solver.
  - intros b Hb Hk.
    destruct (TBitSet.iter_split _ _ _ _ b Hit Hb) as [?%Hpre|?]; [lia|done].
Qed.

(** The permutation of the nodes that an elimination order is. *)
Lemma order_Permutation orig k stack graph :
  EliminationOrder orig k stack graph → stack ≡ₚ TVec.index_iter orig.
Proof.
  intros Hord. apply NoDup_Permutation; [apply ord_nodup| |].
  - apply (NoDup_fmap_2 _), NoDup_seq.
  - intros a. by rewrite ord_nodes, TVec.elem_of_index_iter.
Qed.

End least.

(** C30 (functional): the scan of one round has two outcomes.  It leaves by
    [continue 'outer] at the alive node of least index that has fewer than
    [k] neighbours in the working table (ties go to the lowest index); or it
    runs to the end, in which case no alive node has fewer than [k]
    neighbours and the threshold it computes is the least [connected + 1]
    among the alive nodes ([usize::MAX] if that is smaller). *)
Theorem scan_outcomes (graph : list (gset NodeId)) (k : usize)
    (alive : gset NodeId) (r : scan_outcome) :
  scan graph k usize_max (TBitSet.iter alive) = Ok r →
  match r with
  | Found a =>
      a ∈ alive ∧ (connected graph a < k)%N ∧
      ∀ b, b ∈ alive → (connected graph b < k)%N → index_le a b
  | Minimum m =>
      (∀ b, b ∈ alive →
         (k ≤ connected graph b)%N ∧ (m ≤ connected graph b + 1)%N) ∧
      (m = usize_max ∨ ∃ b, b ∈ alive ∧ m = (connected graph b + 1)%N)
  end.
Proof.
  destruct r as [a|m]; [apply scan_Found_least|].
  intros (Hall & _ & Hmin)%scan_Minimum. split.
  - intros b Hb%TBitSet.elem_of_iter. destruct (Hall b Hb) as (_ & ? & ?).
    split; [done|lia].
  - destruct Hmin as [|(b & Hb%TBitSet.elem_of_iter & ?)]; eauto.
Qed.

Lemma scan_outcomes_witness :
  (∀ b, b ∈ ({[node_a; node_c]} : gset NodeId) →
     (0 ≤ connected (nodes simple_graph) b)%N ∧
     (3 ≤ connected (nodes simple_graph) b + 1)%N) ∧
  (3%N = usize_max ∨
   ∃ b, b ∈ ({[node_a; node_c]} : gset NodeId) ∧
     3%N = (connected (nodes simple_graph) b + 1)%N).
Proof.
  apply (scan_outcomes (nodes simple_graph) 0 {[node_a; node_c]} (Minimum 3)).
  by vm_compute.
Defined.

#[local] Instance impl_preorder {A} (P : A → Prop) :
  PreOrder (λ s s' : A, P s → P s').
Proof. split; [by intros ?|intros ? ? ? ? ? ?; auto]. Qed.

Section whole_loop.
Context (orig : list (gset NodeId)).
Implicit Types (st : elim_state) (fuel : nat).

(** The loop rule for a relation between the states before and after: what
    every round does, the loop does. *)
Lemma elimination_rule (R : relation elim_state) `{!PreOrder R} fuel st st' :
  (∀ st st', elim_inv orig st → st_alive st ≠ ∅ → round st = Ok st' → R st st') →
  elim_inv orig st → elimination fuel st = Ok st' → R st st'.
Proof.
  intros Hround Hinv Hel. revert Hinv. revert fuel st st' Hel.
  apply (elimination_loop_ind (λ _ st st', elim_inv orig st → R st st'));
    [done|].
  intros _ st st1 st' Hne Hr _ IH Hinv.
  etrans; [by apply Hround|]. by apply IH, (round_inv orig st).
Qed.

Lemma elimination_init_order fuel st :
  bounded (MkGraph orig) → elimination fuel (elim_init orig) = Ok st →
  EliminationOrder orig (st_k st) (st_stack st) (st_graph st) ∧ st_alive st = ∅.
Proof.
  intros Hb Hel.
  apply (elimination_inv orig) in Hel as [Hinv He]; [|by apply elim_init_inv].
  split; [by apply elim_inv_order|done].
Qed.

(** A round keeps the threshold tight: an elimination leaves it alone, and
    a completed scan sets it to the least degree plus one among the alive
    nodes, whose sets are the original ones restricted to the alive set. *)
Lemma round_tight st st' :
  elim_inv orig st → st_alive st ≠ ∅ → round st = Ok st' →
  tight orig st → tight orig st'.
Proof.
  intros Hinv Hne Hr Ht. pose proof Hr as (r & Hscan & _)%bind_Ok.
  destruct r as [node|m].
  - apply (round_Found _ _ _ Hscan), eliminate_spec in Hr as [Hk _].
    unfold tight. by rewrite Hk.
  - rewrite (round_Minimum _ _ _ Hscan Hr). right. exists (st_alive st).
    apply scan_Minimum in Hscan as [Hall _]. split_and!; [done| |]; simpl.
    + intros a Ha. apply (inv_cover _ _ Hinv). by left.
    + intros a Ha. destruct (Hall a) as (_ & _ & Hm & _);
        [by apply TBitSet.elem_of_iter|].
      unfold degree_in. by rewrite <-(inv_alive_nbrs _ _ Hinv).
Qed.

Lemma elimination_tight fuel st st' :
  elim_inv orig st → elimination fuel st = Ok st' →
  tight orig st → tight orig st'.
Proof.
  apply (elimination_rule (λ st st', tight orig st → tight orig st')).
  intros st1 st2 Hinv Hne Hr. by apply round_tight.
Qed.

End whole_loop.

(** C8 (invariant): every iteration of ['outer] that does not panic keeps
    the loop invariant [elim_inv]: the working table is the original one
    restricted as the comment in the source says, the stack and the alive
    set partition the nodes, and every node on the stack had fewer than [k]
    neighbours left when it was eliminated. *)
Theorem round_preserves_inv (orig : list (gset NodeId)) (st st' : elim_state) :
  elim_inv orig st → st_alive st ≠ ∅ → round st = Ok st' → elim_inv orig st'.
Proof. apply round_inv. Qed.

Lemma round_preserves_inv_witness :
  elim_inv (nodes simple_graph)
    (MkElim 3 [node_a]
       [{[node_c; node_d]}; {[node_c; node_d]};
        {[node_b; node_d]}; {[node_b; node_c]}]
       {[node_b; node_c; node_d]}).
Proof.
  assert (valid simple_graph) as [Hb _] by compute_done.
  apply (round_preserves_inv _
    (MkElim 3 [] (nodes simple_graph) {[node_a; node_b; node_c; node_d]}));
    [|compute_done|by vm_compute].
  apply (round_inv _ (elim_init (nodes simple_graph)));
    [by apply elim_init_inv|compute_done|by vm_compute].
Defined.

(** C9 (termination): the loop ['outer] ends within [2 * n] iterations on a
    table of [n] nodes, whatever the table holds: with that budget or more
    the model never reports [OutOfFuel]; and when it returns it has done so
    within [n + k] iterations for the threshold [k] it returns, one for
    every node and at most one for every value the threshold passes. *)
Theorem elimination_terminates (nodes : list (gset NodeId)) (fuel : nat) :
  elim_fuel nodes ≤ fuel →
  elimination fuel (elim_init nodes) ≠ Err OutOfFuel ∧
  ∀ st, elimination fuel (elim_init nodes) = Ok st →
    elimination (length nodes + N.to_nat (st_k st)) (elim_init nodes) = Ok st.
Proof.
  intros Hfuel. split; [|intros st; apply elimination_init_rounds].
  apply elimination_fuel_enough. etrans; [apply rounds_left_init|done].
Qed.

Lemma elimination_terminates_witness :
  elimination 8 (elim_init (nodes simple_graph)) ≠ Err OutOfFuel ∧
  ∀ st, elimination 8 (elim_init (nodes simple_graph)) = Ok st →
    elimination (length (nodes simple_graph) + N.to_nat (st_k st))
      (elim_init (nodes simple_graph)) = Ok st.
Proof. apply elimination_terminates. compute_done. Defined.

(** C6 (refinement): when the loop returns on a table whose edges all lead
    to nodes of the table, no node is left alive and the variables [k],
    [stack] and [graph] satisfy the interface [EliminationOrder] that
    phase 2 relies on. *)
Theorem elimination_establishes_order (orig : list (gset NodeId)) (fuel : nat)
    (st : elim_state) :
  bounded (MkGraph orig) → elimination fuel (elim_init orig) = Ok st →
  EliminationOrder orig (st_k st) (st_stack st) (st_graph st) ∧ st_alive st = ∅.
Proof. apply elimination_init_order. Qed.

Lemma elimination_establishes_order_witness :
  let st := MkElim 3 [node_d; node_c; node_b; node_a]
              [{[node_c; node_d]}; {[node_c; node_d]}; {[node_d]}; ∅] ∅ in
  EliminationOrder (nodes simple_graph) (st_k st) (st_stack st) (st_graph st)
  ∧ st_alive st = ∅.
Proof.
  intros st. apply (elimination_establishes_order _ 8); [|by vm_compute].
  assert (valid simple_graph) as [Hb _] by compute_done. exact Hb.
Defined.

(** The threshold [k] never decreases while the loop runs. *)
Lemma threshold_monotone (orig : list (gset NodeId)) (fuel : nat)
    (st st' : elim_state) :
  elim_inv orig st → elimination fuel st = Ok st' → (st_k st ≤ st_k st')%N.
Proof. intros _. apply elimination_k_le. Qed.

(** Phase 1 eliminates every node of the table exactly once: the stack it
    leaves is a permutation of the nodes. *)
Lemma elimination_permutation (orig : list (gset NodeId)) (fuel : nat)
    (st : elim_state) :
  bounded (MkGraph orig) → elimination fuel (elim_init orig) = Ok st →
  st_stack st ≡ₚ TVec.index_iter orig.
Proof.
  intros Hb [Hord _]%elimination_init_order; [|done].
  by eapply order_Permutation.
Qed.

(** C40 (liveness): a round that only raises the threshold is followed by a
    round that eliminates a node: with the threshold a completed scan
    returned, the next scan of the same alive set stops at a node. *)
Theorem raise_then_eliminate (graph : list (gset NodeId)) (k : usize)
    (l : list NodeId) (m : usize) :
  l ≠ [] → scan graph k usize_max l = Ok (Minimum m) →
  ∃ a, scan graph m usize_max l = Ok (Found a).
Proof. apply scan_after_Minimum. Qed.

Lemma raise_then_eliminate_witness :
  ∃ a, scan (nodes simple_graph) 3 usize_max [node_a; node_c] = Ok (Found a).
Proof. apply (raise_then_eliminate _ 0); [done|by vm_compute]. Defined.
