(* ===== verification/Peeling.v ===== *)
(** * Phase 1 against an abstract peeling system

    The loop ['outer] of [minimal_coloring] ([src/src/lib.rs]) keeps a
    working copy of the table and scans the alive nodes in the order of
    [alive.iter()].  What it implements is independent of both: a
    transition system [peel] on the threshold, the stack and the alive set
    alone, with two rules.  A node with fewer than [k] alive neighbours may
    be eliminated, any such node; and when a node of least degree among the
    alive ones has at least [k] alive neighbours, [k] may be raised to that
    degree plus one.

    The file proves, by rule induction, that every complete run of [peel]
    ends with the degeneracy of the graph plus one, whichever nodes it
    picked; and that the loop of the source is one of these runs: [round]
    simulates [peel] under the loop invariant, with [peel_of] forgetting
    the working table.  So the [k] returned does not depend on the order in
    which the bit set enumerates its members. *)

From stdpp Require Import sorting gmap numbers list relations.
From S2P Require Import Prelude Tindex Graph Degeneracy Elimination.

#[local] Set Warnings "-clear-no-such-hyp".

(** The abstract state: the threshold, the stack and the alive set. *)
Record peel_state : Type := MkPeel {
  p_k : usize;
  p_stack : list NodeId;
  p_alive : gset NodeId
}.

(** One step of the peeling system on the table [orig]. *)
Inductive peel (orig : list (gset NodeId)) : relation peel_state :=
| peel_eliminate k stack alive a :
    a ∈ alive → (degree_in orig alive a < k)%N →
    peel orig (MkPeel k stack alive) (MkPeel k (a :: stack) (alive ∖ {[a]}))
| peel_raise k stack alive a :
    a ∈ alive → (k ≤ degree_in orig alive a)%N →
    (∀ b, b ∈ alive → (degree_in orig alive a ≤ degree_in orig alive b)%N) →
    peel orig (MkPeel k stack alive)
      (MkPeel (degree_in orig alive a + 1) stack alive).

(** The state on entry: [k = 0], an empty stack, every node alive. *)
Definition peel_init (orig : list (gset NodeId)) : peel_state :=
  MkPeel 0 [] (TBitSet.collect (TVec.index_iter orig)).

(** The abstract state of the local variables of the loop. *)
Definition peel_of (st : elim_state) : peel_state :=
  MkPeel (st_k st) (st_stack st) (st_alive st).

(** What every reachable state of the peeling system satisfies. *)
Record peel_inv (orig : list (gset NodeId)) (s : peel_state) : Prop := {
  pi_cover : ∀ a, TVec.in_bounds orig a ↔ a ∈ p_alive s ∨ a ∈ p_stack s;
  pi_disjoint : ∀ a, a ∈ p_alive s → a ∉ p_stack s;
  pi_nodup : NoDup (p_stack s);
  (** a node on the stack has fewer than [k] neighbours among itself, the
      nodes eliminated after it and the alive nodes *)
  pi_degree : ∀ later a earlier, p_stack s = later ++ a :: earlier →
    (degree_in orig ({[a]} ∪ list_to_set later ∪ p_alive s) a < p_k s)%N;
  (** and the threshold was never raised too far *)
  pi_tight : p_k s = 0%N ∨
    ∃ S : gset NodeId, S ≠ ∅ ∧ (∀ a, a ∈ S → TVec.in_bounds orig a) ∧
      ∀ a, a ∈ S → (p_k s ≤ degree_in orig S a + 1)%N
}.

(** ** The invariant of the peeling system *)

Section system.
Context (orig : list (gset NodeId)).
Implicit Types (s : peel_state) (a b : NodeId).

Lemma peel_init_inv : peel_inv orig (peel_init orig).
Proof.
  split; simpl; [set_solver|set_solver|constructor| |by left].
  intros later a earlier Hnil. by destruct later.
Qed.

Lemma peel_eliminate_inv k stack alive a :
  a ∈ alive → (degree_in orig alive a < k)%N →
  peel_inv orig (MkPeel k stack alive) →
  peel_inv orig (MkPeel k (a :: stack) (alive ∖ {[a]})).
Proof.
  intros Ha Hdeg [Hcov Hdis Hnd Hst Ht]. simpl in *. split; simpl; [| | | |done].
  - intros b. rewrite Hcov. destruct (decide (b = a)); set_solver.
  - intros b [Hb Hne%not_elem_of_singleton]%elem_of_difference.
    apply not_elem_of_cons. split; [done|by apply Hdis].
  - constructor; [by apply Hdis|done].
  - intros later x earlier Hs.
    destruct later as [|y later]; injection Hs as <- Hs.
    + replace ({[a]} ∪ list_to_set [] ∪ alive ∖ {[a]}) with alive; [done|].
      apply set_eq. intros b. destruct (decide (b = a)); set_solver.
    + replace ({[x]} ∪ list_to_set (a :: later) ∪ alive ∖ {[a]})
        with ({[x]} ∪ list_to_set later ∪ alive); [by eapply Hst|].
      apply set_eq. intros b. destruct (decide (b = a)); set_solver.
Qed.

Lemma peel_raise_inv k stack alive a :
  a ∈ alive → (k ≤ degree_in orig alive a)%N →
  (∀ b, b ∈ alive → (degree_in orig alive a ≤ degree_in orig alive b)%N) →
  peel_inv orig (MkPeel k stack alive) →
  peel_inv orig (MkPeel (degree_in orig alive a + 1) stack alive).
Proof.
  intros Ha Hk Hmin [Hcov Hdis Hnd Hst Ht]. simpl in *.
  split; simpl; [done..| |].
  - intros later x earlier Hs. specialize (Hst later x earlier Hs). lia.
  - right. exists alive. split_and!; [set_solver| |].
    + intros b Hb. apply Hcov. by left.
    + intros b Hb. specialize (Hmin b Hb). lia.
Qed.

Lemma peel_inv_step s s' : peel_inv orig s → peel orig s s' → peel_inv orig s'.
Proof.
  intros Hinv Hstep. revert Hinv.
  destruct Hstep; [by apply peel_eliminate_inv|by apply peel_raise_inv].
Qed.

Lemma peel_inv_rtc s s' :
  peel_inv orig s → rtc (peel orig) s s' → peel_inv orig s'.
Proof. intros Hinv Hrun. induction Hrun; eauto using peel_inv_step. Qed.

(** A complete run leaves an elimination ordering with bound [k - 1]. *)
Lemma peel_inv_ordering s :
  peel_inv orig s → p_alive s = ∅ → ordering orig (p_k s - 1) (p_stack s).
Proof.
  intros [Hcov Hdis Hnd Hst Ht] He. split; [done| |].
  - intros a. rewrite Hcov, He. set_solver.
  - intros later a earlier Hs. specialize (Hst later a earlier Hs).
    enough (degree_in orig (list_to_set later) a
            ≤ degree_in orig ({[a]} ∪ list_to_set later ∪ p_alive s) a)%N by lia.
    apply TBitSet.element_count_mono. set_solver.
Qed.

(** A complete run ends with the degeneracy plus one. *)
Lemma peel_inv_degeneracy s :
  loop_free (MkGraph orig) → orig ≠ [] →
  peel_inv orig s → p_alive s = ∅ →
  p_k s ≠ 0%N ∧ degeneracy orig (p_k s - 1).
Proof.
  intros Hl Hne Hinv He.
  assert (p_k s ≠ 0%N) as Hk.
  { assert (MkNodeId 0 ∈ p_stack s) as (later & earlier & Hs)%list_elem_of_split.
    { destruct (proj1 (pi_cover _ _ Hinv (MkNodeId 0))) as [Ha|Ha]; [|set_solver|done].
      unfold TVec.in_bounds, idx. simpl. destruct orig; [done|simpl; lia]. }
    pose proof (pi_degree _ _ Hinv _ _ _ Hs). lia. }
  split; [done|]. split; [eexists; by apply peel_inv_ordering|].
  intros d' stack' Ho.
  destruct (pi_tight _ _ Hinv) as [?|(S & HS & Hin & Hdeg)]; [done|].
  apply (ordering_dense orig d' stack' S); [done..|].
  intros a Ha. specialize (Hdeg a Ha). lia.
Qed.

(** Two complete runs end with the same threshold, whatever they picked. *)
Lemma peel_confluent_k s1 s2 :
  loop_free (MkGraph orig) →
  rtc (peel orig) (peel_init orig) s1 → p_alive s1 = ∅ →
  rtc (peel orig) (peel_init orig) s2 → p_alive s2 = ∅ →
  p_k s1 = p_k s2.
Proof.
  intros Hl Hr1%(peel_inv_rtc _ _ peel_init_inv) He1
    Hr2%(peel_inv_rtc _ _ peel_init_inv) He2.
  destruct (decide (orig = [])) as [Hnil|Hne].
  { destruct (pi_tight _ _ Hr1) as [Hk1|(S & HS & Hin & _)],
      (pi_tight _ _ Hr2) as [Hk2|(S' & HS' & Hin' & _)]; [congruence|..];
      try (apply set_choose_L in HS as [a Ha%Hin]);
      try (apply set_choose_L in HS' as [a' Ha'%Hin']);
      unfold TVec.in_bounds in *; subst orig; simpl in *; lia. }
  destruct (peel_inv_degeneracy s1 Hl Hne Hr1 He1) as [Hk1 [[st1 Ho1] Hm1]].
  destruct (peel_inv_degeneracy s2 Hl Hne Hr2 He2) as [Hk2 [[st2 Ho2] Hm2]].
  pose proof (Hm1 _ _ Ho2). pose proof (Hm2 _ _ Ho1). lia.
Qed.

End system.

(** ** The loop of the source is a run of the peeling system *)

Section simulation.
Context (orig : list (gset NodeId)).
Implicit Types (st : elim_state) (a b : NodeId).

(** Under the loop invariant the working table of an alive node has as
    many members as the node has alive neighbours. *)
Lemma inv_connected_alive st a :
  elim_inv orig st → a ∈ st_alive st →
  connected (st_graph st) a = degree_in orig (st_alive st) a.
Proof.
  intros Hinv Ha. unfold connected, degree_in.
  by rewrite (inv_alive_nbrs _ _ Hinv).
Qed.

(** The node at which a completed scan found its minimum. *)
Lemma scan_Minimum_attained st m :
  elim_inv orig st → st_alive st ≠ ∅ →
  scan (st_graph st) (st_k st) usize_max (TBitSet.iter (st_alive st))
    = Ok (Minimum m) →
  ∃ a, a ∈ st_alive st ∧ m = (degree_in orig (st_alive st) a + 1)%N ∧
    (st_k st ≤ degree_in orig (st_alive st) a)%N ∧
    ∀ b, b ∈ st_alive st →
      (degree_in orig (st_alive st) a ≤ degree_in orig (st_alive st) b)%N.
Proof.
  intros Hinv Hne (Hall & _ & Hmin)%scan_Minimum.
  assert (∀ b, b ∈ st_alive st →
    (st_k st ≤ degree_in orig (st_alive st) b)%N ∧
    (m ≤ degree_in orig (st_alive st) b + 1 ≤ usize_max)%N) as Hall'.
  { intros b Hb. rewrite <-(inv_connected_alive st b) by done.
    destruct (Hall b) as (_ & ? & ?); [by apply TBitSet.elem_of_iter|done]. }
  assert (∃ a, a ∈ st_alive st ∧ m = (degree_in orig (st_alive st) a + 1)%N)
    as (a & Ha & ->).
  { destruct Hmin as [->|(b & Hb%TBitSet.elem_of_iter & ->)].
    - apply set_choose_L in Hne as [a Ha]. exists a. split; [done|].
      destruct (Hall' a Ha). lia.
    - exists b. by rewrite <-(inv_connected_alive st b). }
  exists a. split_and!; [done..|apply Hall', Ha|].
  intros b Hb. destruct (Hall' b Hb). lia.
Qed.

(** One iteration of ['outer] is one step of the peeling system. *)
Lemma round_peel st st' :
  elim_inv orig st → st_alive st ≠ ∅ → round st = Ok st' →
  peel orig (peel_of st) (peel_of st').
Proof.
  intros Hinv Hne Hr. pose proof Hr as (r & Hscan & _)%bind_Ok.
  destruct r as [node|m].
  - apply (round_Found _ _ _ Hscan) in Hr.
    apply eliminate_spec in Hr as (Hk & Hs & Ha & _).
    apply scan_Found_least in Hscan as (Hnode & Hdeg & _).
    unfold peel_of. rewrite Hk, Hs, Ha. apply peel_eliminate; [done|].
    by rewrite <-(inv_connected_alive st node).
  - rewrite (round_Minimum _ _ _ Hscan Hr). unfold peel_of. simpl.
    destruct (scan_Minimum_attained st m Hinv Hne Hscan)
      as (a & Ha & -> & Hk & Hmin).
    by apply peel_raise.
Qed.

#[local] Instance peel_of_preorder :
  PreOrder (λ st st', rtc (peel orig) (peel_of st) (peel_of st')).
Proof. split; [by intros st|intros st1 st2 st3 ? ?; by etrans]. Qed.

(** The loop is a run of the peeling system. *)
Lemma elimination_peel fuel st st' :
  elim_inv orig st → elimination fuel st = Ok st' →
  rtc (peel orig) (peel_of st) (peel_of st').
Proof.
  apply (elimination_rule orig
    (λ st st', rtc (peel orig) (peel_of st) (peel_of st'))).
  intros st1 st2 Hinv Hne Hr. by apply rtc_once, round_peel.
Qed.

Lemma elimination_init_peel fuel st :
  bounded (MkGraph orig) → elimination fuel (elim_init orig) = Ok st →
  rtc (peel orig) (peel_init orig) (peel_of st) ∧ p_alive (peel_of st) = ∅.
Proof.
  intros Hb Hel. split.
  - by apply (elimination_peel fuel (elim_init orig)); [apply elim_init_inv|].
  - by apply (elimination_inv orig) in Hel as [_ He]; [|apply elim_init_inv].
Qed.

End simulation.

(** ** Properties *)

(** C14 (refinement): the loop ['outer] refines the peeling system: every
    iteration is a step of [peel] on the threshold, the stack and the alive
    set ([round_peel]), so a call of phase 1 that returns on a table whose
    edges lead to nodes of the table is a complete run of the system from
    its initial state. *)
Theorem elimination_refines_peel (orig : list (gset NodeId)) (fuel : nat)
    (st : elim_state) :
  bounded (MkGraph orig) → elimination fuel (elim_init orig) = Ok st →
  rtc (peel orig) (peel_init orig) (peel_of st) ∧ p_alive (peel_of st) = ∅.
Proof. apply elimination_init_peel. Qed.

Lemma elimination_refines_peel_witness :
  let s := MkPeel 3 [node_d; node_c; node_b; node_a] ∅ in
  rtc (peel (nodes simple_graph)) (peel_init (nodes simple_graph)) s ∧
  p_alive s = ∅.
Proof.
  apply (elimination_refines_peel (nodes simple_graph) 8
    (MkElim 3 [node_d; node_c; node_b; node_a]
       [{[node_c; node_d]}; {[node_c; node_d]}; {[node_d]}; ∅] ∅));
    [|by vm_compute].
  assert (valid simple_graph) as [Hb _] by compute_done. exact Hb.
Defined.

(** C15 (safety): the threshold does not depend on the order of the scan:
    on a table without self-loops whose edges lead to nodes of the table,
    every complete run of the peeling system, whichever eligible nodes it
    eliminates and in whatever order, ends with the [k] that phase 1
    returns. *)
Theorem threshold_order_independent (orig : list (gset NodeId)) (fuel : nat)
    (st : elim_state) (s : peel_state) :
  bounded (MkGraph orig) → loop_free (MkGraph orig) →
  elimination fuel (elim_init orig) = Ok st →
  rtc (peel orig) (peel_init orig) s → p_alive s = ∅ →
  p_k s = st_k st.
Proof.
  intros Hb Hl [Hrun He]%elimination_init_peel Hs Hes; [|done].
  by apply (peel_confluent_k orig s (peel_of st)).
Qed.

Lemma threshold_order_independent_witness :
  p_k (MkPeel 3 [node_c; node_d; node_a; node_b] ∅) = 3%N.
Proof.
  apply (threshold_order_independent (nodes simple_graph) 8
    (MkElim 3 [node_d; node_c; node_b; node_a]
       [{[node_c; node_d]}; {[node_c; node_d]}; {[node_d]}; ∅] ∅));
    [|compute_done|by vm_compute| |done].
  { assert (valid simple_graph) as [Hb _] by compute_done. exact Hb. }
  set (alive := TBitSet.collect (TVec.index_iter (I:=NodeId)
    (nodes simple_graph))).
  assert (degree_in (nodes simple_graph) alive node_a + 1 = 3)%N as Hk
    by (by vm_compute).
  assert (alive = {[node_a; node_b; node_c; node_d]}) as Halive by compute_done.
  assert (({[node_a; node_b; node_c; node_d]} : gset NodeId) ∖ {[node_b]}
    ∖ {[node_a]} ∖ {[node_d]} ∖ {[node_c]} = ∅) as Hend by compute_done.
  (* raise the threshold to 3, then eliminate b, a, d and c *)
  eapply rtc_l; [apply (peel_raise _ 0 [] alive node_a); [compute_done..|]|].
  { change (set_Forall (λ b, (degree_in (nodes simple_graph) alive node_a
      ≤ degree_in (nodes simple_graph) alive b)%N) alive). compute_done. }
  rewrite Hk, Halive, <-Hend.
  eapply rtc_l; [apply (peel_eliminate _ _ _ _ node_b); compute_done|].
  eapply rtc_l; [apply (peel_eliminate _ _ _ _ node_a); compute_done|].
  eapply rtc_l; [apply (peel_eliminate _ _ _ _ node_d); compute_done|].
  eapply rtc_l; [apply (peel_eliminate _ _ _ _ node_c); compute_done|].
  done.
Defined.
