(* ===== verification/Greedy.v ===== *)
(** * Phase 2 of [minimal_coloring]: greedy assignment

    Models the second loop of [Graph::minimal_coloring] in
    [src/src/lib.rs]: nodes are popped from the elimination stack and each
    receives the least colour of [0..k] that no neighbour recorded in the
    working table holds.

    - [range] is [0..k];
    - [exclude] is the loop [for other in graph[node].iter()];
    - [pick_color] computes the right-hand side of [colors[node] = ...];
    - [assign] is the loop [while let Some(node) = stack.pop()]. *)

From stdpp Require Import sorting gmap numbers list.
From S2P Require Import Prelude Tindex Graph Degeneracy.

#[local] Set Warnings "-clear-no-such-hyp".

(** The colours [0..k]. *)
Definition range (k : usize) : list usize := N.of_nat <$> seq 0 (N.to_nat k).

(** [for other in graph[node].iter() { allowed_colors.remove(colors[other]); }] *)
Definition exclude (colors : TVec NodeId usize) (allowed : TBitSet usize)
    (others : list NodeId) : result (TBitSet usize) :=
  foldM (λ allowed other,
           c ← TVec.index colors other; Ok (TBitSet.remove allowed c))
    allowed others.

(** The first colour left in [allowed_colors]; [unwrap] panics when none is. *)
Definition pick_color (graph : TVec NodeId (TBitSet NodeId)) (k : usize)
    (colors : TVec NodeId usize) (node : NodeId) : result usize :=
  s ← TVec.index graph node;
  allowed ← exclude colors (TBitSet.collect (range k)) (TBitSet.iter s);
  unwrap (head (TBitSet.iter allowed)).

(** [while let Some(node) = stack.pop() { ... }]; the head of [stack] is the
    top of the stack. *)
Fixpoint assign (graph : TVec NodeId (TBitSet NodeId)) (k : usize)
    (stack : list NodeId) (colors : TVec NodeId usize)
    : result (TVec NodeId usize) :=
  match stack with
  | [] => Ok colors
  | node :: stack =>
      c ← pick_color graph k colors node;
      colors ← TVec.set colors node c;
      assign graph k stack colors
  end.

(** [tvec![usize::max_value(); graph.len()]] *)
Definition colors_init (graph : TVec NodeId (TBitSet NodeId))
    : TVec NodeId usize :=
  TVec.repeat usize_max (TVec.len graph).

(** The colours the nodes of [others] hold. *)
Definition colors_of (colors : list usize) (others : list NodeId) : list usize :=
  omap (λ b, colors !! idx b) others.

(** The state of the colour table once the nodes of [processed] have been
    popped: each holds a colour of [0..k] that none of its recorded
    neighbours (other than itself) holds. *)
Record colored (graph : list (gset NodeId)) (k : usize)
    (processed : list NodeId) (colors : list usize) : Prop := {
  col_length : length colors = length graph;
  col_range : ∀ a, a ∈ processed →
    ∃ c, colors !! idx a = Some c ∧ (c < k)%N;
  col_differ : ∀ a b, a ∈ processed → b ∈ nbrs graph a → b ≠ a →
    colors !! idx a ≠ colors !! idx b
}.

(** ** The set of allowed colours *)

Section allowed.
Implicit Types (k c : usize) (colors : list usize) (allowed : gset usize)
  (others : list NodeId) (a b : NodeId).

Lemma elem_of_range k c : c ∈ range k ↔ (c < k)%N.
Proof.
  unfold range. rewrite list_elem_of_fmap. split.
  - intros (n & -> & Hn%elem_of_seq). lia.
  - intros Hc. exists (N.to_nat c). rewrite elem_of_seq. split; lia.
Qed.

Lemma NoDup_range k : NoDup (range k).
Proof. apply (NoDup_fmap_2 _), NoDup_seq. Qed.

Lemma size_range k : size (TBitSet.collect (range k)) = N.to_nat k.
Proof.
  unfold TBitSet.collect. rewrite size_list_to_set by apply NoDup_range.
  unfold range. by rewrite length_fmap, length_seq.
Qed.

Lemma size_list_to_set_le (l : list usize) :
  size (list_to_set (C:=gset usize) l) ≤ length l.
Proof.
  induction l as [|x l IH]; [by rewrite list_to_set_nil, size_empty|].
  rewrite list_to_set_cons, size_union_alt, size_singleton. simpl.
  assert (list_to_set l ∖ {[x]} ⊆ list_to_set (C:=gset usize) l)
    as Hsub%subseteq_size by set_solver. lia.
Qed.

Lemma length_omap_le {A B} (f : A → option B) (l : list A) :
  length (omap f l) ≤ length l.
Proof.
  induction l as [|x l IH]; [done|]. cbn. destruct (f x); simpl; lia.
Qed.

Lemma length_colors_of colors others :
  length (colors_of colors others) ≤ length others.
Proof. apply length_omap_le. Qed.

Lemma elem_of_colors_of colors others c :
  c ∈ colors_of colors others ↔ ∃ b, b ∈ others ∧ colors !! idx b = Some c.
Proof. unfold colors_of. rewrite list_elem_of_omap. naive_solver. Qed.

(** [exclude] removes from [allowed] exactly the colours held by [others]. *)
Lemma exclude_spec colors allowed others allowed' :
  exclude colors allowed others = Ok allowed' →
  allowed' = allowed ∖ list_to_set (colors_of colors others).
Proof.
  unfold exclude. revert allowed.
  induction others as [|b others IH]; intros allowed; simpl.
  { intros [= <-]. unfold colors_of. simpl. set_eq_solver. }
  intros (al & (c & Hc%TVec.index_Ok & [= <-])%bind_Ok & ->%IH)%bind_Ok.
  unfold colors_of. simpl. rewrite Hc. simpl. set_eq_solver.
Qed.

Lemma exclude_total colors allowed others :
  (∀ b, b ∈ others → TVec.in_bounds colors b) →
  ∃ allowed', exclude colors allowed others = Ok allowed'.
Proof.
  unfold exclude. revert allowed.
  induction others as [|b others IH]; intros allowed Hin; simpl; [by eexists|].
  destruct (TVec.index_in_bounds colors b) as [c ->]; [apply Hin; left|].
  simpl. apply IH. intros b' Hb'. apply Hin. by right.
Qed.

Lemma exclude_in_bounds colors allowed others allowed' b :
  exclude colors allowed others = Ok allowed' → b ∈ others →
  TVec.in_bounds colors b.
Proof.
  unfold exclude. revert allowed.
  induction others as [|x others IH]; intros allowed; simpl; [set_solver|].
  intros (al & (c & Hc%TVec.index_Ok & _)%bind_Ok & Hrest)%bind_Ok.
  intros [->|Hb]%elem_of_cons; [|by eapply IH].
  apply TVec.in_bounds_lookup. eauto.
Qed.

(** On slots of the colour table the loop returns, with that set. *)
Lemma exclude_eval colors allowed others :
  (∀ b, b ∈ others → TVec.in_bounds colors b) →
  exclude colors allowed others
  = Ok (allowed ∖ list_to_set (colors_of colors others)).
Proof.
  intros Hin. destruct (exclude_total colors allowed others) as [al Hal]; [done|].
  by rewrite Hal, (exclude_spec _ _ _ _ Hal).
Qed.

(** Removing fewer colours than there are leaves one. *)
Lemma allowed_nonempty k (cs : list usize) :
  length cs < N.to_nat k →
  TBitSet.collect (range k) ∖ list_to_set cs ≠ (∅ : gset usize).
Proof.
  intros Hlen Hemp. apply (f_equal size) in Hemp.
  rewrite size_empty, size_difference_alt, size_range in Hemp.
  pose proof (size_list_to_set_le cs).
  assert (TBitSet.collect (range k) ∩ list_to_set cs
          ⊆ list_to_set (C:=gset usize) cs) as Hsub%subseteq_size by set_solver.
  lia.
Qed.

End allowed.

(** ** Choosing a colour *)

Section pick.
Implicit Types (graph : list (gset NodeId)) (k c : usize)
  (colors : list usize) (a b : NodeId).

Lemma pick_color_inv graph k colors a c :
  pick_color graph k colors a = Ok c →
  TVec.in_bounds graph a ∧
  (∀ b, b ∈ nbrs graph a → TVec.in_bounds colors b) ∧
  ∃ rest, TBitSet.iter (TBitSet.collect (range k) ∖
      list_to_set (colors_of colors (TBitSet.iter (nbrs graph a))))
    = c :: rest.
Proof.
  unfold pick_color.
  intros (s & Hs & (al & Hex & Hc%unwrap_Ok)%bind_Ok)%bind_Ok.
  pose proof Hs as Hin%TVec.index_Ok. apply nbrs_index in Hs as <-.
  split_and!.
  - apply TVec.in_bounds_lookup. eauto.
  - intros b Hb%TBitSet.elem_of_iter. by eapply exclude_in_bounds.
  - apply exclude_spec in Hex as ->. destruct (TBitSet.iter _); naive_solver.
Qed.

(** The colour chosen is one of [0..k], no neighbour recorded for [a] holds
    it, and every smaller colour is held by such a neighbour. *)
Lemma pick_color_spec graph k colors a c :
  pick_color graph k colors a = Ok c →
  (c < k)%N ∧
  (∀ b, b ∈ nbrs graph a → colors !! idx b ≠ Some c) ∧
  (∀ c', (c' < c)%N → ∃ b, b ∈ nbrs graph a ∧ colors !! idx b = Some c').
Proof.
  intros (_ & _ & rest & [Hc Hmin]%TBitSet.iter_head)%pick_color_inv.
  apply elem_of_difference in Hc as [Hk%TBitSet.elem_of_collect%elem_of_range Hex].
  rewrite elem_of_list_to_set, elem_of_colors_of in Hex.
  setoid_rewrite TBitSet.elem_of_iter in Hex. split_and!; [done|naive_solver|].
  intros c' Hc'.
  destruct (decide (c' ∈ colors_of colors (TBitSet.iter (nbrs graph a))))
    as [(b & Hb%TBitSet.elem_of_iter & ?)%elem_of_colors_of|Hn]; [eauto|].
  specialize (Hmin c'). unfold index_le in Hmin. simpl in Hmin.
  rewrite elem_of_difference, TBitSet.elem_of_collect, elem_of_range,
    elem_of_list_to_set in Hmin.
  unfold id in Hmin. assert (c ≤ c')%N by (apply Hmin; split; [lia|done]). lia.
Qed.

(** With fewer than [k] recorded neighbours, all of them slots of the
    colour table, a colour is found: [unwrap] does not panic. *)
Lemma pick_color_total graph k colors a :
  TVec.in_bounds graph a →
  (∀ b, b ∈ nbrs graph a → TVec.in_bounds colors b) →
  (connected graph a < k)%N →
  ∃ c, pick_color graph k colors a = Ok c.
Proof.
  intros Ha Hin Hdeg. unfold pick_color. rewrite index_nbrs by done. simpl.
  destruct (exclude_total colors (TBitSet.collect (range k))
    (TBitSet.iter (nbrs graph a))) as [al Hex].
  { intros b ?%TBitSet.elem_of_iter. by apply Hin. }
  rewrite Hex. simpl. apply exclude_spec in Hex as ->.
  destruct (TBitSet.iter _) as [|c rest] eqn:Hit; [|by eexists].
  apply TBitSet.iter_nil, allowed_nonempty in Hit; [done|].
  pose proof (length_colors_of colors (TBitSet.iter (nbrs graph a))) as Hl.
  rewrite TBitSet.length_iter in Hl.
  unfold connected, TBitSet.element_count in Hdeg. lia.
Qed.

Lemma pick_color_Err_kind graph k colors a e :
  pick_color graph k colors a = Err e → e = IndexOutOfBounds ∨ e = UnwrapNone.
Proof.
  unfold pick_color. intros [[_ ->]%TVec.index_Err|(s & _ & He)]%bind_Err; [by left|].
  apply bind_Err in He as [He|(al & _ & He)].
  - apply foldM_Err in He as (_ & b & _ & al & _ & _ & He).
    apply bind_Err in He as [[_ ->]%TVec.index_Err|(? & _ & [=])]. by left.
  - destruct (head _); simplify_eq/=. by right.
Qed.

Lemma assign_Err_kind graph k stack colors e :
  assign graph k stack colors = Err e → e = IndexOutOfBounds ∨ e = UnwrapNone.
Proof.
  revert colors. induction stack as [|a l IH]; intros colors; simpl; [done|].
  intros [He|(c & _ & [He|(cs & _ & He)]%bind_Err)]%bind_Err.
  - by eapply pick_color_Err_kind.
  - apply TVec.update_Err in He as [_ ->]. by left.
  - by eapply IH.
Qed.

End pick.

(** ** The assignment loop, against the interface of phase 1 *)

Section assign.
Context (orig : list (gset NodeId)) (k : usize) (stack : list NodeId)
  (graph : list (gset NodeId)) `{!EliminationOrder orig k stack graph}.
Implicit Types (processed todo : list NodeId) (colors : list usize)
  (a b : NodeId).

Lemma ord_in_bounds a : a ∈ stack → TVec.in_bounds graph a.
Proof. intros Ha%ord_nodes. unfold TVec.in_bounds. by rewrite ord_length. Qed.

(** The recorded neighbours of a node were popped before it. *)
Lemma ord_nbrs_popped processed a rest b :
  stack = processed ++ a :: rest → b ∈ nbrs graph a → b ≠ a → b ∈ processed.
Proof. intros Hs. rewrite (ord_nbrs _ _ _ Hs). set_solver. Qed.

Lemma ord_nbrs_processed processed todo a b :
  stack = processed ++ todo → a ∈ processed → b ∈ nbrs graph a → b ≠ a →
  b ∈ processed.
Proof.
  intros Hs (l & e & ->)%list_elem_of_split Hb Hne.
  rewrite <-app_assoc in Hs. simpl in Hs.
  pose proof (ord_nbrs_popped _ _ _ _ Hs Hb Hne). set_solver.
Qed.

Lemma ord_fresh processed a rest :
  stack = processed ++ a :: rest → a ∉ processed.
Proof.
  intros Hs Ha. pose proof ord_nodup as Hnd. rewrite Hs in Hnd.
  apply NoDup_app in Hnd as (_ & Hdis & _). apply (Hdis a Ha). left.
Qed.

Lemma colored_init : colored graph k [] (colors_init graph).
Proof.
  split.
  - unfold colors_init, TVec.repeat, TVec.len. rewrite length_replicate. lia.
  - intros a ?%elem_of_nil. done.
  - intros a b ?%elem_of_nil. done.
Qed.

(** Popping one node and giving it the colour [pick_color] chose. *)
Lemma colored_step processed a rest colors c colors' :
  stack = processed ++ a :: rest →
  colored graph k processed colors →
  pick_color graph k colors a = Ok c → TVec.set colors a c = Ok colors' →
  colored graph k (processed ++ [a]) colors'.
Proof.
  intros Hs Hcol (Hck & Hfree & _)%pick_color_spec Hset.
  pose proof (ord_fresh _ _ _ Hs) as Hfresh.
  assert (∀ b, b ≠ a → colors' !! idx b = colors !! idx b) as Hother.
  { intros b Hb. rewrite (TVec.update_lookup _ _ _ _ b Hset).
    by rewrite decide_False. }
  assert (colors' !! idx a = Some c) as Hnew.
  { rewrite (TVec.update_lookup _ _ _ _ a Hset), decide_True by done.
    apply TVec.update_Ok in Hset as (x & -> & _). done. }
  split.
  - rewrite (TVec.update_length _ _ _ _ Hset). apply Hcol.
  - intros b [Hb| ->%list_elem_of_singleton]%elem_of_app; [|eauto].
    rewrite Hother by (by intros ->). by apply (col_range _ _ _ _ Hcol).
  - intros x b [Hx| ->%list_elem_of_singleton]%elem_of_app Hb Hne.
    + assert (b ∈ processed) as Hbp.
      { eapply (ord_nbrs_processed _ (a :: rest)); done. }
      rewrite !Hother by (by intros ->). by apply (col_differ _ _ _ _ Hcol).
    + rewrite Hnew, Hother by done. intros Heq. by apply (Hfree b).
Qed.

Lemma colored_in_bounds processed colors a :
  colored graph k processed colors → a ∈ stack → TVec.in_bounds colors a.
Proof.
  intros Hcol Ha%ord_in_bounds. unfold TVec.in_bounds in *.
  by rewrite (col_length _ _ _ _ Hcol).
Qed.

(** The loop establishes [colored] for the whole stack. *)
Lemma assign_colored processed todo colors colors' :
  stack = processed ++ todo → colored graph k processed colors →
  assign graph k todo colors = Ok colors' → colored graph k stack colors'.
Proof.
  revert processed colors.
  induction todo as [|a rest IH]; intros processed colors Hs Hcol; simpl.
  { intros [= <-]. by rewrite Hs, app_nil_r. }
  intros (c & Hpick & (colors1 & Hset & Hrest)%bind_Ok)%bind_Ok.
  apply (IH (processed ++ [a]) colors1); [by rewrite <-app_assoc| |done].
  by eapply colored_step.
Qed.

(** The loop does not panic: every index is in bounds and a colour is
    always left. *)
Lemma assign_total processed todo colors :
  stack = processed ++ todo → colored graph k processed colors →
  ∃ colors', assign graph k todo colors = Ok colors'.
Proof.
  revert processed colors.
  induction todo as [|a rest IH]; intros processed colors Hs Hcol; simpl;
    [by eexists|].
  assert (a ∈ stack) as Ha by (rewrite Hs; set_solver).
  destruct (pick_color_total graph k colors a) as [c Hpick].
  { by apply ord_in_bounds. }
  { intros b Hb. apply (colored_in_bounds processed); [done|].
    destruct (decide (b = a)) as [->|Hne]; [done|]. rewrite Hs.
    pose proof (ord_nbrs_popped _ _ _ _ Hs Hb Hne). set_solver. }
  { by apply ord_degree. }
  rewrite Hpick. simpl.
  destruct (TVec.update_in_bounds colors a (λ _, c)) as (x & _ & Hset).
  { by apply (colored_in_bounds processed). }
  unfold TVec.set. rewrite Hset. simpl.
  apply (IH (processed ++ [a])); [by rewrite <-app_assoc|].
  by eapply colored_step.
Qed.

(** Two distinct nodes of the stack: one was popped before the other. *)
Lemma stack_order a b :
  a ∈ stack → b ∈ stack → a ≠ b →
  (∃ l e, stack = l ++ a :: e ∧ b ∈ l) ∨ (∃ l e, stack = l ++ b :: e ∧ a ∈ l).
Proof.
  intros (l & e & Hs)%list_elem_of_split Hb Hne. rewrite Hs in Hb.
  apply elem_of_app in Hb as [Hb|[?|Hb]%elem_of_cons]; [left; eauto|done|].
  apply list_elem_of_split in Hb as (l' & e' & ->). right.
  exists (l ++ a :: l'), e'. rewrite <-app_assoc. split; [done|set_solver].
Qed.

(** A colour table that is [colored] for the whole stack is a proper
    colouring of the original graph. *)
Lemma colored_proper colors :
  symmetric (MkGraph orig) → colored graph k stack colors →
  proper (MkGraph orig) k colors.
Proof.
  intros Hsym Hcol.
  assert (∀ a c, colors !! idx a = Some c → a ∈ stack) as Hstack.
  { intros a c Hc%lookup_lt_Some. apply ord_nodes. unfold TVec.in_bounds.
    by rewrite <-ord_length, <-(col_length _ _ _ _ Hcol). }
  split.
  - simpl. rewrite <-ord_length. apply Hcol.
  - intros a c Hc. destruct (col_range _ _ _ _ Hcol a) as (c' & Hc' & ?);
      [by eapply Hstack|]. congruence.
  - intros a b ca cb Hab Hne Ha Hb Heq. subst cb.
    destruct (stack_order a b) as [(l & e & Hs & Hl)|(l & e & Hs & Hl)];
      [by eapply Hstack..|done| |].
    + apply (col_differ _ _ _ _ Hcol a b); [by eapply Hstack| |done|congruence].
      rewrite (ord_nbrs _ _ _ Hs). unfold adj in Hab. simpl in Hab. set_solver.
    + apply (col_differ _ _ _ _ Hcol b a); [by eapply Hstack| |done|congruence].
      rewrite (ord_nbrs _ _ _ Hs). apply Hsym in Hab. unfold adj in Hab.
      simpl in Hab. set_solver.
Qed.

(** *** Reading the original table instead of the working one

    The nodes that the original table lists for [a] and the working table
    does not were eliminated before [a]: when [a] is popped they still hold
    the sentinel, which is no colour of [0..k]. *)

Lemma exclude_orig processed a rest colors :
  stack = processed ++ a :: rest → bounded (MkGraph orig) → (k ≤ usize_max)%N →
  (∀ b, b ∈ stack → b ∉ processed → colors !! idx b = Some usize_max) →
  TBitSet.collect (range k)
    ∖ list_to_set (colors_of colors (TBitSet.iter (nbrs orig a)))
  = TBitSet.collect (range k)
    ∖ list_to_set (colors_of colors (TBitSet.iter (nbrs graph a))).
Proof.
  intros Hs Hb Hk Hun. apply set_eq. intros c.
  rewrite !elem_of_difference, !elem_of_list_to_set, !elem_of_colors_of,
    TBitSet.elem_of_collect, elem_of_range.
  setoid_rewrite TBitSet.elem_of_iter.
  rewrite (ord_nbrs (graph:=graph) _ _ _ Hs).
  split; intros [Hc Hn]; (split; [done|]); intros (b & Hba & Hcb); apply Hn;
    exists b; (split; [|done]); [set_solver|].
  apply elem_of_intersection. split; [done|].
  destruct (decide (b ∈ processed)) as [|Hnp]; [set_solver|].
  rewrite Hun in Hcb; [simplify_eq; lia| |done].
  apply (ord_nodes (graph:=graph)). by apply (Hb a b).
Qed.

Lemma pick_color_orig processed a rest colors :
  stack = processed ++ a :: rest → bounded (MkGraph orig) → (k ≤ usize_max)%N →
  length colors = length orig →
  (∀ b, b ∈ stack → b ∉ processed → colors !! idx b = Some usize_max) →
  pick_color orig k colors a = pick_color graph k colors a.
Proof.
  intros Hs Hb Hk Hlen Hun.
  assert (a ∈ stack) as Ha by (rewrite Hs; set_solver).
  assert (∀ b, b ∈ nbrs orig a → TVec.in_bounds colors b) as Hin.
  { intros b Hab. unfold TVec.in_bounds. rewrite Hlen. by apply (Hb a b). }
  unfold pick_color.
  rewrite !index_nbrs by (by apply ord_in_bounds || by apply ord_nodes). simpl.
  rewrite !exclude_eval; simpl.
  - by rewrite (exclude_orig processed a rest).
  - intros b Hab%TBitSet.elem_of_iter. apply Hin.
    rewrite (ord_nbrs _ _ _ Hs) in Hab. set_solver.
  - intros b Hab%TBitSet.elem_of_iter. by apply Hin.
Qed.

(** Phase 2 computes the same table from the original adjacency. *)
Lemma assign_orig processed todo colors :
  stack = processed ++ todo → bounded (MkGraph orig) → (k ≤ usize_max)%N →
  length colors = length orig →
  (∀ b, b ∈ stack → b ∉ processed → colors !! idx b = Some usize_max) →
  assign orig k todo colors = assign graph k todo colors.
Proof.
  intros Hs Hb Hk. revert processed colors Hs.
  induction todo as [|a rest IH]; intros processed colors Hs Hlen Hun; [done|].
  simpl. rewrite (pick_color_orig processed a rest) by done.
  result_cases (pick_color graph k colors a) as c Hpick.
  result_cases (TVec.set colors a c) as colors' Hset.
  apply (IH (processed ++ [a])); [by rewrite <-app_assoc| |].
  - by rewrite (TVec.update_length _ _ _ _ Hset).
  - intros b Hbs Hnp. rewrite (TVec.update_lookup _ _ _ _ b Hset).
    rewrite decide_False by set_solver. apply Hun; set_solver.
Qed.

Lemma assign_init_orig :
  bounded (MkGraph orig) → (k ≤ usize_max)%N →
  assign orig k stack (colors_init orig) = assign graph k stack (colors_init graph).
Proof.
  intros Hb Hk. unfold colors_init, TVec.len.
  rewrite (ord_length (graph:=graph)).
  apply (assign_orig []); [done..| |].
  - unfold TVec.repeat. rewrite length_replicate. lia.
  - intros b Hbs%ord_nodes _. apply lookup_replicate_2.
    unfold TVec.in_bounds in Hbs. lia.
Qed.

(** The whole of phase 2, from the initial colour table. *)
Lemma assign_init_proper colors :
  symmetric (MkGraph orig) →
  assign graph k stack (colors_init graph) = Ok colors →
  proper (MkGraph orig) k colors.
Proof.
  intros Hsym Has. apply colored_proper; [done|].
  by apply (assign_colored [] stack (colors_init graph));
    [|apply colored_init|].
Qed.

Lemma assign_init_total :
  ∃ colors, assign graph k stack (colors_init graph) = Ok colors.
Proof. by apply (assign_total [] stack); [|apply colored_init]. Qed.

End assign.

(** ** Properties of phase 2 *)

(** C29 (functional): the colour chosen for a node is the first free one:
    it is below [k], no neighbour recorded for the node in the working
    table holds it, and every smaller colour is held by such a neighbour. *)
Theorem pick_color_least (graph : list (gset NodeId)) (k : usize)
    (colors : list usize) (a : NodeId) (c : usize) :
  pick_color graph k colors a = Ok c →
  (c < k)%N ∧
  (∀ b, b ∈ nbrs graph a → colors !! idx b ≠ Some c) ∧
  (∀ c', (c' < c)%N → ∃ b, b ∈ nbrs graph a ∧ colors !! idx b = Some c').
Proof. apply pick_color_spec. Qed.

Lemma pick_color_least_witness :
  let graph := [{[node_c; node_d]}; {[node_c; node_d]}; {[node_d]}; ∅] in
  let colors := [usize_max; usize_max; 1; 0]%N in
  (2 < 3)%N ∧
  (∀ b, b ∈ nbrs graph node_b → colors !! idx b ≠ Some 2%N) ∧
  (∀ c', (c' < 2)%N → ∃ b, b ∈ nbrs graph node_b ∧ colors !! idx b = Some c').
Proof. intros graph colors. apply pick_color_least. by vm_compute. Defined.

(** C7 (refinement): phase 2 is correct against the interface of phase 1
    alone: given any threshold, stack and working table that form an
    [EliminationOrder] of a symmetric table, the colours it assigns are a
    proper colouring of that table with [k] colours. *)
Theorem assign_proper (orig : list (gset NodeId)) (k : usize)
    (stack : list NodeId) (graph : list (gset NodeId)) (colors : list usize) :
  EliminationOrder orig k stack graph → symmetric (MkGraph orig) →
  assign graph k stack (colors_init graph) = Ok colors →
  proper (MkGraph orig) k colors.
Proof.
  intros Hord. by apply assign_init_proper.
Qed.

Lemma assign_proper_witness : proper simple_graph 3 [2; 2; 1; 0]%N.
Proof.
  apply (assign_proper (nodes simple_graph) 3 [node_d; node_c; node_b; node_a]
    [{[node_c; node_d]}; {[node_c; node_d]}; {[node_d]}; ∅]);
    [by apply order_check_sound; vm_compute| |by vm_compute].
  assert (valid simple_graph) as [_ Hs] by compute_done. exact Hs.
Defined.
