(* ===== verification/MinimalColoring.v ===== *)
(** * [Graph::minimal_coloring] and its result

    Models the struct [Coloring] and the method [minimal_coloring] of
    [src/src/lib.rs], composed of the invariant check, phase 1
    ([Elimination]) and phase 2 ([Greedy]) as in the source. *)

From stdpp Require Import sorting gmap numbers list.
From S2P Require Import Prelude Tindex Graph Degeneracy Elimination Greedy.

#[local] Set Warnings "-clear-no-such-hyp".

(** [pub struct Coloring { pub k: usize, pub nodes: TVec<NodeId, usize> }] *)
Module Coloring.
Record t : Type := Make { k : usize; nodes : TVec NodeId usize }.
End Coloring.

Abbreviation Coloring := Coloring.t.

(** [g.minimal_coloring()] *)
Definition minimal_coloring (g : Graph) : result Coloring :=
  _ ← check_invariants g;
  st ← elimination (elim_fuel (nodes g)) (elim_init (nodes g));
  colors ← assign (st_graph st) (st_k st) (st_stack st)
             (colors_init (st_graph st));
  Ok {| Coloring.k := st_k st; Coloring.nodes := colors |}.

(** A graph without edges: every adjacency set is empty. *)
Definition edgeless (g : Graph) : Prop := Forall (λ s, s = ∅) (nodes g).

(** The unit test [tests::simple]: the graph is built by the calls of the
    test and the five assertions are checked on the result. *)
Definition simple : result unit :=
  let g := new in
  let '(g, a) := add_node g in
  let '(g, b) := add_node g in
  let '(g, c) := add_node g in
  let '(g, d) := add_node g in
  g ← add_edge g a c;
  g ← add_edge g a d;
  g ← add_edge g b c;
  g ← add_edge g b d;
  g ← add_edge g c d;
  coloring ← minimal_coloring g;
  let colors := Coloring.nodes coloring in
  _ ← assert (bool_decide (Coloring.k coloring = 3%N));
  ca ← TVec.index colors a; cb ← TVec.index colors b;
  _ ← assert (bool_decide (ca = cb));
  ca ← TVec.index colors a; cc ← TVec.index colors c;
  _ ← assert (bool_decide (ca ≠ cc));
  ca ← TVec.index colors a; cd ← TVec.index colors d;
  _ ← assert (bool_decide (ca ≠ cd));
  cc ← TVec.index colors c; cd ← TVec.index colors d;
  assert (bool_decide (cc ≠ cd)).

(** ** The steps of a call that returned *)

Section composition.
Implicit Types (g : Graph) (c : Coloring) (st : elim_state).

Lemma minimal_coloring_inv g c :
  minimal_coloring g = Ok c →
  valid g ∧ ∃ st,
    elimination (elim_fuel (nodes g)) (elim_init (nodes g)) = Ok st ∧
    assign (st_graph st) (st_k st) (st_stack st) (colors_init (st_graph st))
      = Ok (Coloring.nodes c) ∧
    Coloring.k c = st_k st.
Proof.
  unfold minimal_coloring.
  intros (u & Hv%check_invariants_Ok & (st & Hel & (colors & Has & [= <-])
    %bind_Ok)%bind_Ok)%bind_Ok. eauto.
Qed.

(** Phase 1 on a valid graph leaves an elimination order. *)
Lemma elimination_order g st :
  valid g → elimination (elim_fuel (nodes g)) (elim_init (nodes g)) = Ok st →
  EliminationOrder (nodes g) (st_k st) (st_stack st) (st_graph st).
Proof.
  intros [Hb _] Hel. destruct g as [orig].
  by apply (elimination_init_order orig) in Hel as [? _].
Qed.

Lemma minimal_coloring_proper_aux g c :
  minimal_coloring g = Ok c → proper g (Coloring.k c) (Coloring.nodes c).
Proof.
  intros ([Hb Hs] & st & Hel & Has & ->)%minimal_coloring_inv.
  pose proof (elimination_order g st (conj Hb Hs) Hel) as Hord.
  destruct g as [orig]. by eapply assign_init_proper.
Qed.

Lemma minimal_coloring_k_aux g c :
  minimal_coloring g = Ok c → (Coloring.k c ≤ max_degree g + 1)%N.
Proof.
  intros (Hv & st & Hel & _ & ->)%minimal_coloring_inv.
  pose proof (elimination_order g st Hv Hel) as Hord.
  destruct g as [orig]. apply ord_k.
Qed.

Lemma minimal_coloring_total_aux g :
  valid g → (TVec.len (nodes g) < usize_max)%N →
  ∃ c, minimal_coloring g = Ok c.
Proof.
  intros Hv Hlen. unfold minimal_coloring.
  rewrite (proj2 (check_invariants_Ok g ()) Hv). simpl.
  destruct (elimination_total (nodes g) (elim_fuel (nodes g))
    (elim_init (nodes g))) as [st Hel];
    [apply Hv|done|apply elim_init_inv, Hv|apply rounds_left_init|].
  rewrite Hel. simpl.
  pose proof (elimination_order g st Hv Hel) as Hord.
  destruct (assign_init_total (nodes g) (st_k st) (st_stack st) (st_graph st))
    as [colors ->]. simpl. eauto.
Qed.

(** The panics a call can end in. *)
Lemma minimal_coloring_Err_kind g e :
  minimal_coloring g = Err e →
  e = AssertionFailed ∨ e = IndexOutOfBounds ∨ e = AddOverflow ∨ e = UnwrapNone.
Proof.
  unfold minimal_coloring. intros [He|(u & _ & He)]%bind_Err.
  { apply check_invariants_Err in He. auto. }
  apply bind_Err in He as [He|(st & _ & He)].
  - destruct (decide (e = OutOfFuel)) as [->|Hne].
    { by eapply elimination_fuel_enough in He; [|apply rounds_left_init]. }
    apply elimination_Err_kind in He. naive_solver.
  - apply bind_Err in He as [He%assign_Err_kind|(colors & _ & [=])].
    naive_solver.
Qed.

(** On a graph that passed [check_invariants] the only panic left is the
    overflow of [connected + 1], for which the graph needs [usize::MAX]
    nodes. *)
Lemma minimal_coloring_Err_valid g e :
  valid g → minimal_coloring g = Err e →
  e = AddOverflow ∧ (usize_max ≤ TVec.len (nodes g))%N.
Proof.
  intros Hv. unfold minimal_coloring.
  rewrite (proj2 (check_invariants_Ok g ()) Hv). simpl.
  intros [He|(st & Hel & He)]%bind_Err.
  - destruct (elimination_Err (nodes g) _ _ _ (proj1 Hv)
      (elim_init_inv _ (proj1 Hv)) He) as [->|?]; [|done].
    by eapply elimination_fuel_enough in He; [|apply rounds_left_init].
  - pose proof (elimination_order g st Hv Hel) as Hord.
    destruct (assign_init_total (nodes g) (st_k st) (st_stack st)
      (st_graph st)) as [colors Hc].
    rewrite Hc in He. by simpl in He.
Qed.

Lemma minimal_coloring_Err_invalid g :
  ¬ valid g →
  check_invariants g = Err AssertionFailed ∧
  minimal_coloring g = Err AssertionFailed.
Proof.
  intros Hv%check_invariants_invalid. unfold minimal_coloring.
  by rewrite Hv.
Qed.

End composition.

(** ** Small graphs *)

Section small.
Implicit Types (g : Graph) (c : Coloring).

Lemma edgeless_nbrs g a : edgeless g → nbrs (nodes g) a = ∅.
Proof.
  intros He. unfold nbrs. destruct (nodes g !! idx a) as [s|] eqn:Hs; [|done].
  by apply (Forall_lookup_1 _ _ _ _ He) in Hs.
Qed.

Lemma edgeless_valid g : edgeless g → valid g.
Proof.
  intros He. split; intros a b; unfold adj; rewrite edgeless_nbrs by done;
    set_solver.
Qed.

Lemma edgeless_max_degree g : edgeless g → max_degree g = 0%N.
Proof.
  intros He. destruct (max_degree_attained g) as [|(a & _ & ->)]; [done|].
  unfold degree, connected, TBitSet.element_count.
  by rewrite edgeless_nbrs, size_empty.
Qed.

(** A graph with a node needs a colour; the graph without nodes needs none. *)
Lemma minimal_coloring_k_zero g c :
  minimal_coloring g = Ok c → Coloring.k c = 0%N ↔ nodes g = [].
Proof.
  intros Hc. split.
  - apply minimal_coloring_inv in Hc as (Hv & st & Hel & _ & ->).
    pose proof (elimination_order g st Hv Hel) as Hord.
    destruct g as [[|s orig]]; [done|]. intros Hk.
    assert (MkNodeId 0 ∈ st_stack st) as Hin.
    { apply ord_nodes. unfold TVec.in_bounds, idx. simpl. lia. }
    apply ord_degree in Hin. lia.
  - destruct g as [orig]. simpl. intros ->. vm_compute in Hc. by simplify_eq.
Qed.

End small.

(** ** The threshold is the degeneracy plus one *)

(** A set of nodes that forces [k]: each member has at least [k - 1]
    neighbours in the set. *)
Lemma minimal_coloring_core (g : Graph) (c : Coloring) :
  nodes g ≠ [] → minimal_coloring g = Ok c →
  ∃ S : gset NodeId, S ≠ ∅ ∧ (∀ a, a ∈ S → node_of g a) ∧
    ∀ a, a ∈ S → (Coloring.k c - 1 ≤ degree_in (nodes g) S a)%N.
Proof.
  intros Hne Hc. pose proof (minimal_coloring_k_zero g c Hc) as Hz.
  apply minimal_coloring_inv in Hc as (Hv & st & Hel & _ & Hkc).
  rewrite Hkc in *. destruct g as [orig]. simpl in *.
  destruct (elimination_tight orig _ _ _ (elim_init_inv orig (proj1 Hv)) Hel)
    as [?|(S & HS & Hin & Hdeg)]; [by left|naive_solver|].
  exists S. split_and!; [done..|]. intros a Ha. specialize (Hdeg a Ha). lia.
Qed.

Lemma minimal_coloring_degeneracy_aux (g : Graph) (c : Coloring) :
  loop_free g → nodes g ≠ [] → minimal_coloring g = Ok c →
  Coloring.k c ≠ 0%N ∧ degeneracy (nodes g) (Coloring.k c - 1).
Proof.
  intros Hl Hne Hc. pose proof (minimal_coloring_k_zero g c Hc) as Hz.
  assert (Coloring.k c ≠ 0%N) as Hk by (by intros ?%Hz). split; [done|].
  destruct (minimal_coloring_core g c Hne Hc) as (S & HS & Hin & Hdeg).
  apply minimal_coloring_inv in Hc as (Hv & st & Hel & _ & Hkc).
  rewrite Hkc in *. pose proof (elimination_order g st Hv Hel) as Hord.
  destruct g as [orig]. simpl in *. split.
  { exists (st_stack st). by eapply order_ordering. }
  intros d' stack' Ho. by apply (ordering_dense orig d' stack' S).
Qed.

(** ** Properties of [minimal_coloring] *)

(** C1 (functional): on a graph that satisfies the invariants checked by
    [check_invariants] and has fewer than [usize::MAX] nodes,
    [minimal_coloring] returns; the colour table it returns has one slot a
    node, every slot holds a colour below [k], the two ends of every edge
    between distinct nodes hold different colours, and [k] is at most the
    largest degree plus one. *)
Theorem minimal_coloring_correct (g : Graph) :
  valid g → (TVec.len (nodes g) < usize_max)%N →
  ∃ c, minimal_coloring g = Ok c ∧
       proper g (Coloring.k c) (Coloring.nodes c) ∧
       (Coloring.k c ≤ max_degree g + 1)%N.
Proof.
  intros Hv Hlen. destruct (minimal_coloring_total_aux g Hv Hlen) as [c Hc].
  exists c. split_and!; [done| |].
  - by apply minimal_coloring_proper_aux.
  - by apply minimal_coloring_k_aux.
Qed.

Lemma minimal_coloring_correct_witness :
  ∃ c, minimal_coloring simple_graph = Ok c ∧
       proper simple_graph (Coloring.k c) (Coloring.nodes c) ∧
       (Coloring.k c ≤ max_degree simple_graph + 1)%N.
Proof. apply minimal_coloring_correct; compute_done. Defined.

(** C2 (safety): whenever [minimal_coloring] returns, the result is a proper
    colouring of the graph with the colours [0..k]: no slot keeps the
    sentinel [usize::MAX] and adjacent distinct nodes differ. *)
Theorem minimal_coloring_proper (g : Graph) (c : Coloring) :
  minimal_coloring g = Ok c → proper g (Coloring.k c) (Coloring.nodes c).
Proof. apply minimal_coloring_proper_aux. Qed.

Lemma minimal_coloring_proper_witness :
  proper simple_graph 3 [2; 2; 1; 0]%N.
Proof.
  apply (minimal_coloring_proper simple_graph (Coloring.Make 3 [2; 2; 1; 0]%N)).
  by vm_compute.
Defined.

(** On a graph built through the interface the two ends of every edge hold
    different colours. *)
Lemma minimal_coloring_reachable (g : Graph) (a b : NodeId) :
  reachable g → (TVec.len (nodes g) < usize_max)%N → adj g a b →
  ∃ c ca cb, minimal_coloring g = Ok c ∧
    Coloring.nodes c !! idx a = Some ca ∧ Coloring.nodes c !! idx b = Some cb ∧
    ca ≠ cb ∧ (ca < Coloring.k c)%N ∧ (cb < Coloring.k c)%N.
Proof.
  intros [[Hb Hs] Hl]%reachable_wf_aux Hlen Hab.
  destruct (minimal_coloring_total_aux g (conj Hb Hs) Hlen) as [c Hc].
  pose proof (minimal_coloring_proper_aux g c Hc) as [Hlc Hr He].
  destruct (lookup_lt_is_Some_2 (Coloring.nodes c) (idx a)) as [ca Ha].
  { rewrite Hlc. by apply (elem_of_nbrs_in_bounds _ a b). }
  destruct (lookup_lt_is_Some_2 (Coloring.nodes c) (idx b)) as [cb Hcb].
  { rewrite Hlc. by apply (Hb a b). }
  exists c, ca, cb. split_and!; eauto.
  apply (He a b); [done| |done..]. intros ->. by apply (Hl b).
Qed.

(** C3 (termination): the budget [elim_fuel] given to the model of the
    ['outer] loop is never exhausted: on every graph, valid or not,
    [minimal_coloring] returns or panics, so the loop of the source ends. *)
Theorem minimal_coloring_terminates (g : Graph) :
  minimal_coloring g ≠ Err OutOfFuel.
Proof. intros He. apply minimal_coloring_Err_kind in He. naive_solver. Qed.

(** C11 (error): the panics of [minimal_coloring] are two.  On a graph
    that violates an invariant (an edge to a node that does not exist, or
    an edge recorded in one direction only) it panics in
    [check_invariants], with a failed assertion, before it computes
    anything.  On a graph that satisfies them it panics only when
    [connected + 1] overflows, which takes [usize::MAX] nodes: no index is
    out of bounds and [unwrap] is never called on [None]. *)
Theorem minimal_coloring_panics (g : Graph) (e : panic) :
  (¬ valid g →
   check_invariants g = Err AssertionFailed ∧
   minimal_coloring g = Err AssertionFailed) ∧
  (valid g → minimal_coloring g = Err e →
   e = AddOverflow ∧ (usize_max ≤ TVec.len (nodes g))%N).
Proof.
  split; [apply minimal_coloring_Err_invalid|apply minimal_coloring_Err_valid].
Qed.

Lemma minimal_coloring_panics_witness :
  check_invariants (MkGraph [{[node_b]}; ∅]) = Err AssertionFailed ∧
  minimal_coloring (MkGraph [{[node_b]}; ∅]) = Err AssertionFailed.
Proof.
  apply (proj1 (minimal_coloring_panics (MkGraph [{[node_b]}; ∅])
    AssertionFailed)).
  compute_done.
Defined.

Lemma minimal_coloring_edgeless_aux (g : Graph) :
  edgeless g → nodes g ≠ [] → (TVec.len (nodes g) < usize_max)%N →
  minimal_coloring g = Ok (Coloring.Make 1 (replicate (length (nodes g)) 0%N)).
Proof.
  intros He Hne Hlen.
  destruct (minimal_coloring_total_aux g (edgeless_valid g He) Hlen) as [c Hc].
  pose proof (minimal_coloring_k_aux g c Hc) as Hk.
  pose proof (minimal_coloring_k_zero g c Hc) as Hz.
  pose proof (minimal_coloring_proper_aux g c Hc) as [Hl Hr _].
  rewrite edgeless_max_degree in Hk by done.
  assert (Coloring.k c ≠ 0%N) as Hk0 by (by intros ?%Hz).
  assert (Coloring.k c = 1%N) as Hk1 by lia.
  rewrite Hc. destruct c as [k colors]. simpl in *. subst k. do 2 f_equal.
  symmetry. apply replicate_as_Forall. split; [done|].
  apply Forall_lookup. intros i x Hx.
  specialize (Hr (of_idx i) x). rewrite idx_of_idx in Hr. specialize (Hr Hx). lia.
Qed.

(** C37 (functional): a graph without edges is coloured with one colour, [k]
    is [1] and every node holds colour [0]; unless it has no node, when [k]
    is [0] and the table is empty. *)
Theorem minimal_coloring_edgeless (g : Graph) :
  edgeless g → (TVec.len (nodes g) < usize_max)%N →
  minimal_coloring g =
    Ok (Coloring.Make (if decide (nodes g = []) then 0%N else 1%N)
          (replicate (length (nodes g)) 0%N)).
Proof.
  intros He Hlen. case_decide as Hn; [|by apply minimal_coloring_edgeless_aux].
  destruct g as [v]. simpl in Hn. by subst v.
Qed.

Lemma minimal_coloring_edgeless_witness :
  minimal_coloring (MkGraph [∅; ∅; ∅]) = Ok (Coloring.Make 1 [0; 0; 0]%N).
Proof.
  apply (minimal_coloring_edgeless (MkGraph [∅; ∅; ∅])); [|compute_done].
  by repeat constructor.
Defined.

(** The unit test [tests::simple] passes: on the graph it builds, [k] is
    [3], the nodes [a] and [b] share a colour, and [a], [c] and [d] hold
    three different colours.  [Complete] proves what the test checks for
    complete graphs of every size less one edge. *)
Lemma simple_passes : simple = Ok ().
Proof. by vm_compute. Qed.

(** The cycle of four nodes gets [k = 3] and a table that uses the two
    colours [0] and [1]. *)
Lemma cycle_coloring :
  minimal_coloring
    (MkGraph [ {[node_b; node_d]}; {[node_a; node_c]};
               {[node_b; node_d]}; {[node_a; node_c]} ])
  = Ok (Coloring.Make 3 [1; 0; 1; 0]%N).
Proof. by vm_compute. Qed.

(** C4 (functional): on a graph without self-loops that has a node, the
    [k] returned is the degeneracy of the graph plus one: the nodes can be
    ordered so that each has at most [k - 1] neighbours among those
    eliminated after it, and no ordering does with less. *)
Theorem minimal_coloring_degeneracy (g : Graph) (c : Coloring) :
  loop_free g → nodes g ≠ [] → minimal_coloring g = Ok c →
  ∃ d, Coloring.k c = (d + 1)%N ∧ degeneracy (nodes g) d.
Proof.
  intros Hl Hne Hc.
  destruct (minimal_coloring_degeneracy_aux g c Hl Hne Hc) as [Hk Hd].
  exists (Coloring.k c - 1)%N. split; [lia|done].
Qed.

Lemma minimal_coloring_degeneracy_witness :
  ∃ d, 3%N = (d + 1)%N ∧ degeneracy (nodes simple_graph) d.
Proof.
  apply (minimal_coloring_degeneracy simple_graph
    (Coloring.Make 3 [2; 2; 1; 0]%N)); [compute_done|done|by vm_compute].
Defined.
