(* ===== verification/Bounds.v ===== *)
(** * Bounds on the number of colours

    [minimal_coloring] of [src/src/lib.rs] returns the degeneracy of the
    graph plus one ([MinimalColoring]).  This file turns that into the two
    bounds a client can check on a graph at hand: any elimination ordering
    bounds [k] from above, and any set of nodes in which every member has
    many neighbours, a clique in particular, bounds it from below.  Between
    the two lies the chromatic number of the graph, the least number of
    colours of a proper colouring, which the method bounds from above and
    does not compute; it exists, since whether [n] colours are enough can
    be decided by trying every table ([colorable_dec]).  The number of
    edges bounds [k] as well: [k (k - 1)] is at most the sum of the
    degrees. *)

From stdpp Require Import sorting gmap numbers list.
From S2P Require Import Prelude Tindex Graph Degeneracy Elimination Greedy.
From S2P Require Import MinimalColoring.

#[local] Set Warnings "-clear-no-such-hyp".

(** A set of nodes of the graph that are adjacent to one another. *)
Definition clique (g : Graph) (S : gset NodeId) : Prop :=
  (∀ a, a ∈ S → node_of g a) ∧ ∀ a b, a ∈ S → b ∈ S → a ≠ b → adj g a b.

#[global] Instance clique_dec g S : Decision (clique g S).
Proof.
  refine (cast_if (decide
    (set_Forall (λ a, node_of g a) S ∧
     set_Forall (λ a, set_Forall (λ b, a ≠ b → adj g a b) S) S)));
    unfold clique, set_Forall in *; naive_solver.
Defined.

(** The nodes of [g] can be coloured with the colours [0..n]. *)
Definition colorable (g : Graph) (n : usize) : Prop :=
  ∃ colors, proper g n colors.

(** The chromatic number: the least [n] for which [g] is [colorable]. *)
Definition chromatic (g : Graph) (chi : usize) : Prop :=
  colorable g chi ∧ ∀ n, colorable g n → (chi ≤ n)%N.

(** Every table of [len] colours below [n]: the candidates for a colouring
    with [n] colours of a graph with [len] nodes. *)
Fixpoint tables (n : usize) (len : nat) : list (list usize) :=
  match len with
  | 0 => [[]]
  | S len => c ← range n; (c ::.) <$> tables n len
  end.

(** The sum of the degrees of the nodes: the number of pairs the table
    records, twice the number of edges of a symmetric graph. *)
Definition degree_sum (g : Graph) : usize :=
  N.of_nat (sum_list_with (λ a, N.to_nat (degree g a))
              (TVec.index_iter (nodes g))).

(** Every node has [d] neighbours. *)
Definition regular (g : Graph) (d : usize) : Prop :=
  ∀ a, node_of g a → degree g a = d.

#[global] Instance regular_dec g d : Decision (regular g d).
Proof.
  refine (cast_if (decide
    (Forall (λ a, degree g a = d) (TVec.index_iter (nodes g)))));
    rewrite Forall_forall in *; unfold regular;
    by setoid_rewrite <-TVec.elem_of_index_iter.
Defined.

Section bounds.
Implicit Types (g : Graph) (c : Coloring) (S : gset NodeId) (a b : NodeId)
  (d m : usize).

(** An ordering in which every node has at most [d] later neighbours:
    [d + 1] colours are enough for the method. *)
Lemma minimal_coloring_k_upper g c d stack :
  loop_free g → ordering (nodes g) d stack → minimal_coloring g = Ok c →
  (Coloring.k c ≤ d + 1)%N.
Proof.
  intros Hl Ho Hc. destruct (decide (nodes g = [])) as [Hnil|Hne].
  { apply (minimal_coloring_k_zero g c Hc) in Hnil. lia. }
  destruct (minimal_coloring_degeneracy_aux g c Hl Hne Hc) as [Hk [_ Hmin]].
  specialize (Hmin d stack Ho). lia.
Qed.

(** A set of nodes each of which has at least [m] neighbours in the set:
    the method returns more than [m] colours. *)
Lemma minimal_coloring_k_lower g c S m :
  loop_free g → S ≠ ∅ → (∀ a, a ∈ S → node_of g a) →
  (∀ a, a ∈ S → (m ≤ degree_in (nodes g) S a)%N) →
  minimal_coloring g = Ok c → (m + 1 ≤ Coloring.k c)%N.
Proof.
  intros Hl HS Hin Hm Hc.
  assert (nodes g ≠ []) as Hne.
  { apply set_choose_L in HS as [a Ha%Hin]. intros Hnil.
    unfold node_of, TVec.in_bounds in Ha. rewrite Hnil in Ha. simpl in Ha. lia. }
  destruct (minimal_coloring_degeneracy_aux g c Hl Hne Hc)
    as [Hk [[stack Ho] _]].
  destruct g as [orig].
  pose proof (ordering_dense orig _ stack S m Hl Ho HS Hin Hm). lia.
Qed.

(** In a clique every member has all the others as neighbours. *)
Lemma clique_degree_in g S a :
  clique g S → a ∈ S → (N.of_nat (size S) ≤ degree_in (nodes g) S a + 1)%N.
Proof.
  intros [_ Hadj] Ha. unfold degree_in, TBitSet.element_count.
  assert (S ∖ {[a]} ⊆ nbrs (nodes g) a ∩ S) as Hsub%subseteq_size.
  { intros b [Hb Hne%not_elem_of_singleton]%elem_of_difference.
    apply elem_of_intersection. split; [|done]. by apply (Hadj a b). }
  rewrite size_difference, size_singleton in Hsub by set_solver. lia.
Qed.

(** The method never returns fewer colours than a clique has members. *)
Lemma minimal_coloring_k_clique g c S :
  loop_free g → clique g S → minimal_coloring g = Ok c →
  (N.of_nat (size S) ≤ Coloring.k c)%N.
Proof.
  intros Hl Hcl Hc. destruct (decide (S = ∅)) as [->|HS].
  { rewrite size_empty. lia. }
  pose proof (minimal_coloring_k_lower g c S (N.of_nat (size S) - 1) Hl HS
    (proj1 Hcl)) as Hlow.
  assert (size S ≠ 0) by (by intros ?%size_empty_inv%leibniz_equiv).
  enough (N.of_nat (size S) - 1 + 1 ≤ Coloring.k c)%N by lia.
  apply Hlow; [|done]. intros a Ha.
  pose proof (clique_degree_in g S a Hcl Ha). lia.
Qed.

(** When every node has at least [m] neighbours, so has the node
    eliminated first, whichever it is: the method returns more than [m]
    colours. *)
Lemma minimal_coloring_k_min_degree g c m :
  loop_free g → nodes g ≠ [] → (∀ a, node_of g a → (m ≤ degree g a)%N) →
  minimal_coloring g = Ok c → (m + 1 ≤ Coloring.k c)%N.
Proof.
  intros Hl Hne Hm Hc.
  pose proof Hc as ([Hbd _] & _)%minimal_coloring_inv.
  set (S := list_to_set (TVec.index_iter (nodes g)) : gset NodeId).
  assert (∀ a, a ∈ S ↔ node_of g a) as HS.
  { intros a. unfold S. by rewrite elem_of_list_to_set, TVec.elem_of_index_iter. }
  apply (minimal_coloring_k_lower g c S m); [done| |by intros a ?%HS| |done].
  - intros Hnil. apply (not_elem_of_empty (C:=gset NodeId) (of_idx 0)).
    rewrite <-Hnil. apply HS. unfold node_of, TVec.in_bounds.
    rewrite idx_of_idx. destruct (nodes g); [done|simpl; lia].
  - intros a Ha%HS. etrans; [by apply Hm|]. unfold degree_in, degree, connected.
    apply TBitSet.element_count_mono. intros b Hb.
    apply elem_of_intersection. split; [done|]. by apply HS, (Hbd a b).
Qed.

(** A set of nodes each of which has at least [m] neighbours in the set
    has more than [m] members. *)
Lemma dense_size g S m :
  loop_free g → S ≠ ∅ →
  (∀ a, a ∈ S → (m ≤ degree_in (nodes g) S a)%N) →
  (m + 1 ≤ N.of_nat (size S))%N.
Proof.
  intros Hl [a Ha]%set_choose_L Hm. specialize (Hm a Ha).
  unfold degree_in, TBitSet.element_count in Hm.
  assert (nbrs (nodes g) a ∩ S ⊆ S ∖ {[a]}) as Hsub%subseteq_size.
  { intros b [Hb HbS]%elem_of_intersection. apply elem_of_difference.
    split; [done|]. intros ->%elem_of_singleton. by apply (Hl a). }
  rewrite (size_difference S {[a]}), size_singleton in Hsub by set_solver.
  assert (size S ≠ 0) by (intros ?%size_empty_inv; set_solver). lia.
Qed.

(** The degrees of the members of such a set add up to its size times
    [m], at most the sum of all degrees. *)
Lemma dense_degree_sum g S m :
  (∀ a, a ∈ S → node_of g a) →
  (∀ a, a ∈ S → (m ≤ degree_in (nodes g) S a)%N) →
  (N.of_nat (size S) * m ≤ degree_sum g)%N.
Proof.
  intros Hin Hm. unfold degree_sum. set (f a := N.to_nat (degree g a)).
  assert (elements S ⊆+ TVec.index_iter (nodes g)) as Hsub.
  { apply NoDup_submseteq; [apply NoDup_elements|]. intros a Ha%elem_of_elements.
    by apply TVec.elem_of_index_iter, Hin. }
  apply (sum_list_with_submseteq f) in Hsub.
  pose proof (sum_list_with_ge f (elements S) (N.to_nat m)) as Hge.
  unfold size, set_size in *. simpl in *.
  enough (length (elements S) * N.to_nat m ≤ sum_list_with f (elements S))
    by lia.
  apply Hge. intros a Ha%elem_of_elements. specialize (Hm a Ha).
  enough (degree_in (nodes g) S a ≤ degree g a)%N by (unfold f; lia).
  apply TBitSet.element_count_mono. set_solver.
Qed.

(** The method returns [k] colours only if the table records [k (k - 1)]
    pairs: a graph with few edges gets few colours. *)
Lemma minimal_coloring_k_edges g c :
  loop_free g → minimal_coloring g = Ok c →
  (Coloring.k c * (Coloring.k c - 1) ≤ degree_sum g)%N.
Proof.
  intros Hl Hc. destruct (decide (nodes g = [])) as [Hnil|Hne].
  { apply (minimal_coloring_k_zero g c Hc) in Hnil. rewrite Hnil. lia. }
  destruct (minimal_coloring_core g c Hne Hc) as (S & HS & Hin & Hdeg).
  pose proof (dense_size g S _ Hl HS Hdeg).
  pose proof (dense_degree_sum g S _ Hin Hdeg). nia.
Qed.

(** On a regular graph the method returns the degree plus one. *)
Lemma minimal_coloring_regular_aux g c d :
  loop_free g → nodes g ≠ [] → regular g d →
  minimal_coloring g = Ok c → Coloring.k c = (d + 1)%N.
Proof.
  intros Hl Hne Hr Hc. apply N.le_antisymm.
  - etrans; [by apply minimal_coloring_k_aux|].
    destruct (max_degree_attained g) as [->|(a & Ha & ->)]; [lia|].
    rewrite (Hr a Ha). lia.
  - apply (minimal_coloring_k_min_degree g c d); [done..| |done].
    intros a Ha. by rewrite (Hr a Ha).
Qed.

(** Pigeons: a set mapped one-to-one into the numbers below [n] has at
    most [n] members. *)
Lemma size_inj_below S (f : NodeId → nat) (n : nat) :
  (∀ a, a ∈ S → f a < n) →
  (∀ a b, a ∈ S → b ∈ S → f a = f b → a = b) → size S ≤ n.
Proof.
  intros Hlt Hinj. unfold size, set_size. simpl.
  rewrite <-(length_fmap f). trans (length (seq 0 n)); [|by rewrite length_seq].
  apply submseteq_length, NoDup_submseteq.
  - apply NoDup_fmap_2_strong; [|apply NoDup_elements].
    intros a b Ha%elem_of_elements Hb%elem_of_elements. by apply Hinj.
  - intros x (a & -> & Ha%elem_of_elements)%list_elem_of_fmap.
    apply elem_of_seq. specialize (Hlt a Ha). lia.
Qed.

(** The members of a clique hold different colours in any proper
    colouring. *)
Lemma clique_colorable g S n :
  clique g S → colorable g n → (N.of_nat (size S) ≤ n)%N.
Proof.
  intros [Hin Hadj] [colors [Hlen Hr He]].
  assert (∀ a, a ∈ S → ∃ ca, colors !! idx a = Some ca) as Hcol.
  { intros a Ha%Hin. apply lookup_lt_is_Some. by rewrite Hlen. }
  enough (size S ≤ N.to_nat n) by lia.
  apply (size_inj_below S (λ a, N.to_nat (default 0%N (colors !! idx a)))).
  - intros a [ca Hca]%Hcol. rewrite Hca. simpl. specialize (Hr a ca Hca). lia.
  - intros a b Ha Hb Hab. destruct (decide (a = b)) as [|Hne]; [done|].
    destruct (Hcol a Ha) as [ca Hca], (Hcol b Hb) as [cb Hcb].
    rewrite Hca, Hcb in Hab. simpl in Hab.
    destruct (He a b ca cb); [by apply Hadj|done..|lia].
Qed.

(** The colouring returned shows that [k] colours are enough. *)
Lemma minimal_coloring_colorable g c :
  minimal_coloring g = Ok c → colorable g (Coloring.k c).
Proof. intros Hc. exists (Coloring.nodes c). by apply minimal_coloring_proper_aux. Qed.

Lemma minimal_coloring_k_chromatic g c chi :
  minimal_coloring g = Ok c → chromatic g chi → (chi ≤ Coloring.k c)%N.
Proof. intros Hc [_ Hmin]. by apply Hmin, minimal_coloring_colorable. Qed.

(** The chromatic number of a graph that has a clique of [n] nodes and a
    colouring with [n] colours. *)
Lemma chromatic_clique g S n :
  clique g S → N.of_nat (size S) = n → colorable g n → chromatic g n.
Proof.
  intros Hcl <- Hn. split; [done|]. intros m Hm. by eapply clique_colorable.
Qed.

(** ** The chromatic number exists *)

Lemma elem_of_tables n len colors :
  colors ∈ tables n len ↔
    length colors = len ∧ Forall (λ x, (x < n)%N) colors.
Proof.
  revert colors. induction len as [|len IH]; intros colors; simpl.
  { rewrite list_elem_of_singleton. split; [by intros ->|].
    by intros [->%nil_length_inv _]. }
  rewrite list_elem_of_bind. split.
  - intros (x & (l & -> & [Hl Hf]%IH)%list_elem_of_fmap & Hx%elem_of_range).
    simpl. split; [by rewrite Hl|by constructor].
  - destruct colors as [|x l]; [by intros [? _]|].
    intros [[= Hl] [Hx Hf]%Forall_cons]. exists x.
    split; [|by apply elem_of_range]. apply list_elem_of_fmap. exists l.
    split; [done|]. by apply IH.
Qed.

Lemma colorable_tables g n :
  colorable g n ↔ Exists (proper g n) (tables n (length (nodes g))).
Proof.
  rewrite Exists_exists. split; [|intros (colors & _ & Hp); by exists colors].
  intros [colors Hp]. exists colors. split; [|done].
  destruct Hp as [Hlen Hr _]. apply elem_of_tables. split; [done|].
  apply Forall_lookup. intros i x Hi. apply (Hr (of_idx i)).
  by rewrite idx_of_idx.
Qed.

(** Whether [n] colours are enough is decided by trying every table. *)
#[global] Instance colorable_dec g n : Decision (colorable g n).
Proof.
  refine (cast_if (decide
    (Exists (proper g n) (tables n (length (nodes g))))));
    by rewrite colorable_tables.
Defined.

(** A graph that can be coloured has a chromatic number. *)
Lemma colorable_chromatic g n :
  colorable g n → ∃ chi, chromatic g chi ∧ (chi ≤ n)%N.
Proof.
  induction (N.lt_wf_0 n) as [n _ IH]. intros Hn.
  destruct (decide (Exists (colorable g) (range n)))
    as [(m & Hm%elem_of_range & Hcm)%Exists_exists|Hno].
  - destruct (IH m Hm Hcm) as (chi & Hchi & Hle). exists chi.
    split; [done|lia].
  - exists n. split; [|done]. split; [done|]. intros m Hm. apply N.le_ngt.
    intros Hlt. apply Hno, Exists_exists. exists m. by rewrite elem_of_range.
Qed.

End bounds.

(** ** Properties *)

(** C26 (bounds): a graph without self-loops that the method colours has a
    chromatic number, which the method does not compute, and the number of
    colours returned lies between bounds a client can read off the graph:
    the size of any clique is at most the chromatic number, which is at
    most [k], which is at most [d + 1] for any ordering of the nodes in
    which each has at most [d] neighbours among the nodes that follow it;
    and [k (k - 1)] is at most the sum of the degrees, twice the number of
    edges. *)
Theorem minimal_coloring_k_between (g : Graph) (c : Coloring)
    (S : gset NodeId) (d : usize) (stack : list NodeId) :
  loop_free g → minimal_coloring g = Ok c →
  clique g S → ordering (nodes g) d stack →
  ∃ chi, chromatic g chi ∧
    (N.of_nat (size S) ≤ chi ≤ Coloring.k c)%N ∧ (Coloring.k c ≤ d + 1)%N ∧
    (Coloring.k c * (Coloring.k c - 1) ≤ degree_sum g)%N.
Proof.
  intros Hl Hc Hcl Ho.
  destruct (colorable_chromatic g _ (minimal_coloring_colorable g c Hc))
    as (chi & Hchi & Hle).
  exists chi. split_and!; [done| |done| |].
  - eapply clique_colorable; [done|apply Hchi].
  - by eapply minimal_coloring_k_upper.
  - by apply minimal_coloring_k_edges.
Qed.

Lemma minimal_coloring_k_between_witness :
  ∃ chi, chromatic simple_graph chi ∧
    (N.of_nat (size ({[node_a; node_c; node_d]} : gset NodeId)) ≤ chi ≤ 3)%N ∧
    (3 ≤ 2 + 1)%N ∧ (3 * (3 - 1) ≤ degree_sum simple_graph)%N.
Proof.
  apply (minimal_coloring_k_between simple_graph
    (Coloring.Make 3 [2; 2; 1; 0]%N) {[node_a; node_c; node_d]} 2
    [node_d; node_c; node_b; node_a]);
    [compute_done|by vm_compute|compute_done|].
  assert (EliminationOrder (nodes simple_graph) 3
    [node_d; node_c; node_b; node_a]
    [{[node_c; node_d]}; {[node_c; node_d]}; {[node_d]}; ∅]) as Hord
    by (by apply order_check_sound; vm_compute).
  apply (order_ordering (nodes simple_graph) 3 _ _). compute_done.
Defined.

(** C27 (functional): on a graph without self-loops in which every node has
    [d] neighbours the method returns [k = d + 1], whatever the number of
    colours the graph needs: a cycle of even length gets [k = 3] and the
    complete bipartite graph with [n] nodes on each side [k = n + 1], where
    two colours are enough. *)
Theorem minimal_coloring_regular (g : Graph) (c : Coloring) (d : usize) :
  loop_free g → nodes g ≠ [] → regular g d →
  minimal_coloring g = Ok c → Coloring.k c = (d + 1)%N.
Proof. apply minimal_coloring_regular_aux. Qed.

Lemma minimal_coloring_regular_witness :
  let k33 := MkGraph (replicate 3 {[MkNodeId 3; MkNodeId 4; MkNodeId 5]} ++
                      replicate 3 {[MkNodeId 0; MkNodeId 1; MkNodeId 2]}) in
  ∃ c, minimal_coloring k33 = Ok c ∧ Coloring.k c = 4%N ∧
       colorable k33 2.
Proof.
  intros k33.
  assert (minimal_coloring k33 = Ok (Coloring.Make 4 [1; 1; 1; 0; 0; 0]%N))
    as Hc by (by vm_compute).
  eexists. split; [exact Hc|]. split.
  - apply (minimal_coloring_regular k33 _ 3); [compute_done..|exact Hc].
  - exists [1; 1; 1; 0; 0; 0]%N. by apply proper_check_spec; vm_compute.
Defined.
