(* ===== verification/Isomorphism.v ===== *)
(** * Renumbering the nodes

    The identifiers of [src/src/lib.rs] are the positions of the nodes in
    the table, handed out by [add_node] in the order of the calls.
    [minimal_coloring] scans the nodes in that order, so the colours it
    assigns depend on the numbering.  The number of colours does not: [k]
    is the degeneracy plus one, and the degeneracy is a property of the
    graph up to isomorphism.

    [isomorphic] is the equivalence of two tables that differ by a
    renumbering of their nodes; [degeneracy] is [Proper] for it, and
    [minimal_coloring] returns the same [k] on isomorphic graphs. *)

From stdpp Require Import sorting gmap numbers list.
From S2P Require Import Prelude Tindex Graph Degeneracy Elimination Greedy.
From S2P Require Import MinimalColoring.

#[local] Set Warnings "-clear-no-such-hyp".

(** [π] renumbers the nodes of [orig] into those of [orig'], and [π']
    renumbers them back. *)
Record relabel (π π' : NodeId → NodeId) (orig orig' : list (gset NodeId))
    : Prop := {
  relabel_cancel : ∀ a, π' (π a) = a;
  relabel_cancel' : ∀ a, π (π' a) = a;
  relabel_bounds : ∀ a, TVec.in_bounds orig a ↔ TVec.in_bounds orig' (π a);
  relabel_nbrs : ∀ a b, b ∈ nbrs orig a ↔ π b ∈ nbrs orig' (π a)
}.

(** Two tables of the same graph, up to the numbering of the nodes. *)
Definition isomorphic (orig orig' : list (gset NodeId)) : Prop :=
  ∃ π π', relabel π π' orig orig'.

(** The renumbering that exchanges [x] and [y]. *)
Definition swap_nodes (x y a : NodeId) : NodeId :=
  if decide (a = x) then y else if decide (a = y) then x else a.

(** ** Renumberings *)

Lemma size_set_map_inj `{Countable A, Countable B} (f : A → B)
    `{!Inj (=) (=) f} (X : gset A) :
  size (set_map f X : gset B) = size X.
Proof.
  unfold set_map. rewrite size_list_to_set by apply (NoDup_fmap_2 _), NoDup_elements.
  by rewrite length_fmap.
Qed.

Section relabel.
Implicit Types (π : NodeId → NodeId) (orig : list (gset NodeId))
  (a b : NodeId) (S : gset NodeId).

Lemma relabel_id orig : relabel id id orig orig.
Proof. by split. Qed.

Lemma relabel_sym π π' orig orig' :
  relabel π π' orig orig' → relabel π' π orig' orig.
Proof.
  intros [Hc Hc' Hb Hn]. split; [done..| |].
  - intros a. by rewrite (Hb (π' a)), Hc'.
  - intros a b. by rewrite (Hn (π' a) (π' b)), !Hc'.
Qed.

Lemma relabel_trans π1 π1' π2 π2' orig1 orig2 orig3 :
  relabel π1 π1' orig1 orig2 → relabel π2 π2' orig2 orig3 →
  relabel (π2 ∘ π1) (π1' ∘ π2') orig1 orig3.
Proof.
  intros [Hc1 Hc1' Hb1 Hn1] [Hc2 Hc2' Hb2 Hn2]. split; simpl.
  - intros a. by rewrite Hc2, Hc1.
  - intros a. by rewrite Hc1', Hc2'.
  - intros a. by rewrite Hb1, Hb2.
  - intros a b. by rewrite Hn1, Hn2.
Qed.

Lemma relabel_inj π π' orig orig' : relabel π π' orig orig' → Inj (=) (=) π.
Proof. intros [Hc _ _ _] a b Hab. by rewrite <-(Hc a), Hab, Hc. Qed.

(** A renumbering keeps the number of neighbours inside a set. *)
Lemma degree_in_relabel π π' orig orig' S a :
  relabel π π' orig orig' →
  degree_in orig' (set_map π S) (π a) = degree_in orig S a.
Proof.
  intros Hr. pose proof (relabel_inj _ _ _ _ Hr) as Hinj.
  unfold degree_in, TBitSet.element_count. f_equal.
  rewrite <-(size_set_map_inj π (nbrs orig a ∩ S)). f_equal.
  apply set_eq. intros x.
  rewrite elem_of_intersection, !elem_of_map. split.
  - intros [Hx (b & -> & Hb)]. exists b. split; [done|].
    apply elem_of_intersection. split; [by apply (relabel_nbrs _ _ _ _ Hr)|done].
  - intros (b & -> & [Hb HS]%elem_of_intersection).
    split; [by apply (relabel_nbrs _ _ _ _ Hr)|eauto].
Qed.

(** A renumbered elimination ordering is one of the renumbered table. *)
Lemma ordering_relabel π π' orig orig' d stack :
  relabel π π' orig orig' → ordering orig d stack →
  ordering orig' d (π <$> stack).
Proof.
  intros Hr [Hnd Hnodes Hdeg]. pose proof (relabel_inj _ _ _ _ Hr) as Hinj.
  split.
  - by apply (NoDup_fmap_2 _).
  - intros a'. rewrite list_elem_of_fmap. split.
    + intros (a & -> & Ha%Hnodes). by apply (relabel_bounds _ _ _ _ Hr).
    + intros Ha'. exists (π' a'). rewrite (relabel_cancel' _ _ _ _ Hr).
      split; [done|]. apply Hnodes, (relabel_bounds _ _ _ _ Hr).
      by rewrite (relabel_cancel' _ _ _ _ Hr).
  - intros later' a' earlier' Hs.
    apply fmap_app_inv in Hs as (later & rest & -> & Hrest & ->).
    symmetry in Hrest. apply fmap_cons_inv in Hrest as (a & earlier & -> & -> & ->).
    rewrite (list_to_set_fmap_L (C:=gset NodeId)).
    rewrite (degree_in_relabel π π' orig orig') by done. eauto.
Qed.

Lemma degeneracy_relabel π π' orig orig' d :
  relabel π π' orig orig' → degeneracy orig d → degeneracy orig' d.
Proof.
  intros Hr [[stack Ho] Hmin]. split.
  - exists (π <$> stack). by eapply ordering_relabel.
  - intros d' stack' Ho'. apply (Hmin d' (π' <$> stack')).
    by eapply ordering_relabel; [apply relabel_sym|].
Qed.

Lemma loop_free_relabel π π' orig orig' :
  relabel π π' orig orig' → loop_free (MkGraph orig) →
  loop_free (MkGraph orig').
Proof.
  intros Hr Hl a Ha. apply (Hl (π' a)). unfold adj in *. simpl in *.
  apply (relabel_nbrs _ _ _ _ Hr). by rewrite (relabel_cancel' _ _ _ _ Hr).
Qed.

Lemma relabel_nil π π' orig orig' :
  relabel π π' orig orig' → orig = [] → orig' = [].
Proof.
  intros Hr -> . destruct orig' as [|s orig']; [done|].
  assert (TVec.in_bounds (I:=NodeId) (s :: orig') (MkNodeId 0)) as Hin.
  { unfold TVec.in_bounds, idx. simpl. lia. }
  rewrite <-(relabel_cancel' _ _ _ _ Hr (MkNodeId 0)) in Hin.
  apply (relabel_bounds _ _ _ _ Hr) in Hin.
  unfold TVec.in_bounds in Hin. simpl in Hin. lia.
Qed.

(** Exchanging two nodes of tables that pass [check_invariants]: what is
    left to check concerns the nodes of the tables only. *)
Lemma relabel_swap x y orig orig' :
  TVec.in_bounds orig x → TVec.in_bounds orig y →
  length orig = length orig' →
  valid (MkGraph orig) → valid (MkGraph orig') →
  Forall (λ a, Forall (λ b,
    b ∈ nbrs orig a ↔ swap_nodes x y b ∈ nbrs orig' (swap_nodes x y a))
    (TVec.index_iter orig)) (TVec.index_iter orig) →
  relabel (swap_nodes x y) (swap_nodes x y) orig orig'.
Proof.
  intros Hx Hy Hlen [Hb _] [Hb' _] Hall.
  assert (∀ a, swap_nodes x y (swap_nodes x y a) = a) as Hinv.
  { intros a. unfold swap_nodes. repeat case_decide; congruence. }
  assert (∀ a, TVec.in_bounds orig a ↔ TVec.in_bounds orig' (swap_nodes x y a))
    as Hbounds.
  { intros a. unfold TVec.in_bounds in *. rewrite <-Hlen. unfold swap_nodes.
    repeat case_decide; subst; tauto. }
  split; [done..|]. intros a b.
  destruct (decide (TVec.in_bounds orig a)) as [Ha|Ha];
    [destruct (decide (TVec.in_bounds orig b)) as [Hbb|Hbb]|].
  - rewrite Forall_forall in Hall. specialize (Hall a).
    rewrite Forall_forall in Hall.
    by apply Hall; apply TVec.elem_of_index_iter.
  - split; intros Hab.
    + by apply (Hb a b) in Hab.
    + apply (Hb' (swap_nodes x y a) (swap_nodes x y b)) in Hab.
      by apply Hbounds in Hab.
  - rewrite (nbrs_out orig a), (nbrs_out orig' (swap_nodes x y a));
      [done|by rewrite <-Hbounds|done].
Qed.

End relabel.

(** ** Isomorphic tables *)

#[global] Instance isomorphic_equivalence : Equivalence isomorphic.
Proof.
  split.
  - intros orig. exists id, id. apply relabel_id.
  - intros orig orig' (π & π' & Hr). exists π', π. by apply relabel_sym.
  - intros o1 o2 o3 (π1 & π1' & H1) (π2 & π2' & H2).
    exists (π2 ∘ π1), (π1' ∘ π2'). by eapply relabel_trans.
Qed.

#[global] Instance degeneracy_proper :
  Proper (isomorphic ==> (=) ==> iff) degeneracy.
Proof.
  intros orig orig' (π & π' & Hr) d ? <-. split.
  - by eapply degeneracy_relabel.
  - by eapply degeneracy_relabel, relabel_sym.
Qed.

Lemma degeneracy_unique orig d d' :
  degeneracy orig d → degeneracy orig d' → d = d'.
Proof.
  intros [[s Ho] Hmin] [[s' Ho'] Hmin'].
  pose proof (Hmin _ _ Ho'). pose proof (Hmin' _ _ Ho). lia.
Qed.

(** The method returns the same [k] on isomorphic graphs. *)
Lemma minimal_coloring_k_isomorphic (g g' : Graph) (c c' : Coloring) :
  isomorphic (nodes g) (nodes g') → loop_free g →
  minimal_coloring g = Ok c → minimal_coloring g' = Ok c' →
  Coloring.k c = Coloring.k c'.
Proof.
  intros Hiso Hl Hc Hc'. pose proof Hiso as (π & π' & Hr).
  destruct (decide (nodes g = [])) as [Hnil|Hne].
  { pose proof (relabel_nil _ _ _ _ Hr Hnil) as Hnil'.
    apply (minimal_coloring_k_zero g c Hc) in Hnil.
    apply (minimal_coloring_k_zero g' c' Hc') in Hnil'. congruence. }
  assert (nodes g' ≠ []) as Hne'.
  { intros Hnil'. by apply Hne, (relabel_nil _ _ _ _ (relabel_sym _ _ _ _ Hr)). }
  assert (loop_free g') as Hl'.
  { destruct g as [orig], g' as [orig']. by eapply loop_free_relabel. }
  destruct (minimal_coloring_degeneracy_aux g c Hl Hne Hc) as [Hk Hd].
  destruct (minimal_coloring_degeneracy_aux g' c' Hl' Hne' Hc') as [Hk' Hd'].
  rewrite Hiso in Hd. pose proof (degeneracy_unique _ _ _ Hd Hd'). lia.
Qed.

(** ** Properties *)

(** C21 (equivalence): the number of colours does not depend on the
    numbering of the nodes: on two graphs without self-loops that differ
    by a renumbering of their nodes, [minimal_coloring] returns the same
    [k] (the colour tables differ in general). *)
Theorem minimal_coloring_isomorphic (g g' : Graph) (c c' : Coloring) :
  isomorphic (nodes g) (nodes g') → loop_free g →
  minimal_coloring g = Ok c → minimal_coloring g' = Ok c' →
  Coloring.k c = Coloring.k c'.
Proof. apply minimal_coloring_k_isomorphic. Qed.

Lemma minimal_coloring_isomorphic_witness :
  Coloring.k (Coloring.Make 2 [1; 0; 0]%N)
  = Coloring.k (Coloring.Make 2 [0; 1; 0]%N).
Proof.
  apply (minimal_coloring_isomorphic
    (MkGraph [ {[node_b; node_c]}; {[node_a]}; {[node_a]} ])
    (MkGraph [ {[node_b]}; {[node_a; node_c]}; {[node_b]} ]));
    [|compute_done|by vm_compute..].
  exists (swap_nodes node_a node_b), (swap_nodes node_a node_b).
  apply relabel_swap; compute_done.
Defined.
