(* ===== verification/GreedySpec.v ===== *)
(** * Phase 2 against its mathematical specification

    The second loop of [minimal_coloring] in [src/src/lib.rs] works on a
    table with a sentinel, a bit set of the colours [0..k] and the table
    that phase 1 has thinned out.  What it computes is the greedy colouring
    along the elimination order: taking the nodes as they are popped, each
    receives the least natural number that none of its neighbours in the
    graph has received before.  [greedy] is that colouring, as a finite map
    without bound, sentinel or working table; this file proves that the
    loop computes it. *)

From stdpp Require Import sorting gmap numbers list.
From S2P Require Import Prelude Tindex Graph Degeneracy Elimination Greedy.
From S2P Require Import MinimalColoring.

#[local] Set Warnings "-clear-no-such-hyp".

(** The least number that is not a member of [s]. *)
Definition mex (s : gset N) : N :=
  default 0%N
    (head (TBitSet.iter
             (TBitSet.collect (range (N.of_nat (size s) + 1)) ∖ s))).

(** The colours that the neighbours of [a] hold in the colouring [φ]. *)
Definition used (orig : list (gset NodeId)) (φ : gmap NodeId N)
    (a : NodeId) : gset N :=
  set_omap (λ b, φ !! b) (nbrs orig a).

(** The greedy colouring of the nodes of [order], taken from its head. *)
Fixpoint greedy (orig : list (gset NodeId)) (order : list NodeId)
    (φ : gmap NodeId N) : gmap NodeId N :=
  match order with
  | [] => φ
  | a :: order => greedy orig order (<[a := mex (used orig φ a)]> φ)
  end.

(** The map [φ] holds the colours that the table [colors] holds for the
    nodes of [processed], and nothing else. *)
Definition agree (processed : list NodeId) (colors : list usize)
    (φ : gmap NodeId N) : Prop :=
  ∀ b c, φ !! b = Some c ↔ b ∈ processed ∧ colors !! idx b = Some c.

(** ** The least excluded number *)

Section mex.
Implicit Types (s : gset N) (c : N).

Lemma mex_spec s : (mex s ∉ s) ∧ ∀ c, (c < mex s)%N → c ∈ s.
Proof.
  unfold mex.
  destruct (TBitSet.iter _) as [|c rest] eqn:Hit.
  { apply TBitSet.iter_nil in Hit. rewrite <-(list_to_set_elements_L s) in Hit at 2.
    apply allowed_nonempty in Hit; [done|].
    assert (length (elements s) = size s) as Hlen by done. lia. }
  apply TBitSet.iter_head in Hit as [Hc Hmin]. simpl.
  apply elem_of_difference in Hc as [Hc Hs]. split; [done|].
  intros c' Hc'. destruct (decide (c' ∈ s)) as [|Hn]; [done|].
  apply TBitSet.elem_of_collect, elem_of_range in Hc.
  assert (index_le c c') as Hle; [|unfold index_le in Hle; simpl in Hle; lia].
  apply Hmin, elem_of_difference. split; [|done].
  apply TBitSet.elem_of_collect, elem_of_range. lia.
Qed.

Lemma mex_unique s c : c ∉ s → (∀ c', (c' < c)%N → c' ∈ s) → mex s = c.
Proof.
  intros Hc Hlt. destruct (mex_spec s) as [Hm Hmlt].
  destruct (N.lt_trichotomy (mex s) c) as [Hl|[?|Hl]]; [|done|].
  - by apply Hlt in Hl.
  - by apply Hmlt in Hl.
Qed.

(** A set with fewer than [k] members excludes a number below [k]. *)
Lemma mex_le_size s : (mex s ≤ N.of_nat (size s))%N.
Proof.
  destruct (mex_spec s) as [_ Hlt].
  destruct (decide (mex s ≤ N.of_nat (size s))%N) as [|Hgt]; [done|].
  assert (TBitSet.collect (range (N.of_nat (size s) + 1)) ⊆ s) as Hsub.
  { intros c Hc%TBitSet.elem_of_collect%elem_of_range. apply Hlt. lia. }
  apply subseteq_size in Hsub. rewrite size_range in Hsub. lia.
Qed.

End mex.

(** ** The loop computes the greedy colouring *)

Section greedy.
Context (orig : list (gset NodeId)) (k : usize) (stack : list NodeId)
  (graph : list (gset NodeId)) `{!EliminationOrder orig k stack graph}.
Implicit Types (processed todo : list NodeId) (colors : list usize)
  (φ : gmap NodeId N) (a b : NodeId).

(** The colours the loop removes for [a] are the colours used around [a]. *)
Lemma excluded_used processed a rest colors φ :
  loop_free (MkGraph orig) → stack = processed ++ a :: rest →
  agree processed colors φ →
  list_to_set (colors_of colors (TBitSet.iter (nbrs graph a)))
  = used orig φ a.
Proof.
  intros Hl Hs Hag. apply set_eq. intros c. unfold used.
  rewrite elem_of_list_to_set, elem_of_colors_of, elem_of_set_omap.
  setoid_rewrite TBitSet.elem_of_iter. rewrite (ord_nbrs _ _ _ Hs).
  setoid_rewrite (Hag _ c). specialize (Hl a). unfold adj in Hl. simpl in Hl.
  split; intros (b & Hb & Hc); exists b.
  - destruct (decide (b = a)) as [->|]; set_solver.
  - set_solver.
Qed.

Lemma pick_color_mex processed a rest colors φ c :
  loop_free (MkGraph orig) → stack = processed ++ a :: rest →
  agree processed colors φ →
  pick_color graph k colors a = Ok c → mex (used orig φ a) = c.
Proof.
  intros Hl Hs Hag (_ & Hfree & Hlt)%pick_color_spec.
  rewrite <-(excluded_used processed a rest colors) by done.
  apply mex_unique; [|intros c' Hc'];
    rewrite elem_of_list_to_set, elem_of_colors_of;
    setoid_rewrite TBitSet.elem_of_iter.
  - intros (b & Hb & Hc). by apply (Hfree b).
  - by apply Hlt.
Qed.

(** The colour chosen is at most the number of nodes recorded for [a]. *)
Lemma pick_color_le_connected a colors c :
  pick_color graph k colors a = Ok c → (c ≤ connected graph a)%N.
Proof.
  intros (_ & Hfree & Hlt)%pick_color_spec.
  set (cs := colors_of colors (TBitSet.iter (nbrs graph a))).
  assert (mex (list_to_set cs) = c) as <-.
  { apply mex_unique; [|intros c' Hc'];
      rewrite elem_of_list_to_set; unfold cs; rewrite elem_of_colors_of;
      setoid_rewrite TBitSet.elem_of_iter; [|by apply Hlt].
    intros (b & Hb & Hc). by apply (Hfree b). }
  etrans; [apply mex_le_size|].
  pose proof (size_list_to_set_le cs). pose proof (length_colors_of colors
    (TBitSet.iter (nbrs graph a))) as Hl. rewrite TBitSet.length_iter in Hl.
  unfold connected, TBitSet.element_count. fold cs in Hl. lia.
Qed.

(** The working table records for a node some of its neighbours. *)
Lemma ord_connected_le a :
  a ∈ stack → (connected graph a ≤ connected orig a)%N.
Proof.
  intros (later & earlier & Hs)%list_elem_of_split.
  apply TBitSet.element_count_mono. rewrite (ord_nbrs _ _ _ Hs). set_solver.
Qed.

(** The loop gives no node a colour above its degree. *)
Lemma assign_le_degree processed todo colors colors' :
  stack = processed ++ todo →
  (∀ a c, a ∈ processed → colors !! idx a = Some c →
     (c ≤ connected orig a)%N) →
  assign graph k todo colors = Ok colors' →
  ∀ a c, a ∈ stack → colors' !! idx a = Some c → (c ≤ connected orig a)%N.
Proof.
  revert processed colors.
  induction todo as [|a rest IH]; intros processed colors Hs Hle; simpl.
  { intros [= <-]. by rewrite Hs, app_nil_r. }
  intros (c & Hpick & (colors1 & Hset & Hrest)%bind_Ok)%bind_Ok.
  apply (IH (processed ++ [a]) colors1); [by rewrite <-app_assoc| |done].
  intros b cb Hb. rewrite (TVec.update_lookup _ _ _ _ b Hset).
  case_decide as Hab; [subst b|].
  - apply TVec.update_Ok in Hset as (x & -> & _). intros [= <-].
    etrans; [by eapply pick_color_le_connected|].
    apply ord_connected_le. rewrite Hs. set_solver.
  - apply Hle. set_solver.
Qed.

(** Every colour below the colour of a node is held by one of its
    neighbours: the invariant of the loop, and what makes the colouring a
    greedy one. *)
Lemma assign_grundy processed todo colors colors' :
  loop_free (MkGraph orig) → stack = processed ++ todo →
  (∀ a c c', a ∈ processed → colors !! idx a = Some c → (c' < c)%N →
     ∃ b, b ∈ processed ∧ b ∈ nbrs orig a ∧ colors !! idx b = Some c') →
  assign graph k todo colors = Ok colors' →
  ∀ a c c', a ∈ stack → colors' !! idx a = Some c → (c' < c)%N →
    ∃ b, b ∈ stack ∧ b ∈ nbrs orig a ∧ colors' !! idx b = Some c'.
Proof.
  intros Hl. revert processed colors.
  induction todo as [|a rest IH]; intros processed colors Hs Hinv; simpl.
  { intros [= <-]. by rewrite Hs, app_nil_r. }
  intros (c & Hpick & (colors1 & Hset & Hrest)%bind_Ok)%bind_Ok.
  apply (IH (processed ++ [a]) colors1); [by rewrite <-app_assoc| |done].
  pose proof (ord_fresh orig k stack graph _ _ _ Hs) as Hfresh.
  assert (∀ b, b ∈ processed → colors1 !! idx b = colors !! idx b) as Hold.
  { intros b Hb. rewrite (TVec.update_lookup _ _ _ _ b Hset).
    rewrite decide_False; [done|]. by intros ->. }
  intros x cx c' Hx Hcx Hlt.
  assert (∃ b, b ∈ processed ∧ b ∈ nbrs orig x ∧ colors !! idx b = Some c')
    as (b & Hb & Hxb & Hcb); [|exists b; rewrite Hold by done; set_solver].
  apply elem_of_app in Hx as [Hx| ->%list_elem_of_singleton].
  { rewrite Hold in Hcx by done. by eapply Hinv. }
  rewrite (TVec.update_lookup _ _ _ _ a Hset), decide_True in Hcx by done.
  apply TVec.update_Ok in Hset as (y & Hy & _). rewrite Hy in Hcx.
  injection Hcx as <-.
  apply pick_color_spec in Hpick as (_ & _ & Hsm).
  destruct (Hsm c' Hlt) as (b & Hb & Hcb). exists b.
  assert (b ≠ a) as Hne.
  { intros ->. rewrite (ord_nbrs _ _ _ Hs) in Hb. apply (Hl a).
    unfold adj. simpl. set_solver. }
  split_and!; [by eapply ord_nbrs_popped| |done].
  rewrite (ord_nbrs _ _ _ Hs) in Hb. set_solver.
Qed.

Lemma agree_step processed a rest colors φ c colors' :
  stack = processed ++ a :: rest → agree processed colors φ →
  TVec.set colors a c = Ok colors' →
  agree (processed ++ [a]) colors' (<[a := c]> φ).
Proof.
  intros Hs Hag Hset b c'. pose proof (ord_fresh orig k stack graph _ _ _ Hs) as Hfresh.
  rewrite (TVec.update_lookup _ _ _ _ b Hset), elem_of_app,
    list_elem_of_singleton.
  apply TVec.update_Ok in Hset as (x & Hx & _).
  destruct (decide (a = b)) as [<-|Hne].
  - rewrite lookup_insert_eq, Hx. naive_solver.
  - rewrite lookup_insert_ne, (Hag b c') by done. naive_solver.
Qed.

Lemma assign_greedy_aux processed todo colors φ colors' :
  loop_free (MkGraph orig) → stack = processed ++ todo →
  agree processed colors φ → assign graph k todo colors = Ok colors' →
  agree stack colors' (greedy orig todo φ).
Proof.
  intros Hl. revert processed colors φ.
  induction todo as [|a rest IH]; intros processed colors φ Hs Hag; simpl.
  { intros [= <-]. by rewrite Hs, app_nil_r. }
  intros (c & Hpick & (colors1 & Hset & Hrest)%bind_Ok)%bind_Ok.
  rewrite (pick_color_mex processed a rest colors φ c) by done.
  apply (IH (processed ++ [a]) colors1); [by rewrite <-app_assoc| |done].
  by eapply agree_step.
Qed.

(** The table returned holds, for every node, its greedy colour. *)
Lemma assign_init_greedy colors a :
  loop_free (MkGraph orig) →
  assign graph k stack (colors_init graph) = Ok colors →
  TVec.in_bounds orig a → colors !! idx a = greedy orig stack ∅ !! a.
Proof.
  intros Hl Has Ha.
  pose proof (assign_greedy_aux [] stack (colors_init graph) ∅ colors Hl
    eq_refl) as Hag.
  assert (is_Some (colors !! idx a)) as [c Hc].
  { apply lookup_lt_is_Some.
    destruct (assign_colored orig k stack graph [] stack (colors_init graph)
      colors eq_refl (colored_init k graph) Has) as [-> _ _].
    unfold TVec.in_bounds in Ha. by rewrite (ord_length (graph:=graph)). }
  rewrite Hc. symmetry. apply Hag; [|done|].
  - intros b c'. rewrite lookup_empty, elem_of_nil. naive_solver.
  - split; [by apply (ord_nodes (graph:=graph))|done].
Qed.

End greedy.

(** The method returns the greedy colouring along an order of the nodes. *)
Lemma minimal_coloring_greedy_aux (g : Graph) (c : Coloring) :
  loop_free g → minimal_coloring g = Ok c →
  ∃ order, order ≡ₚ TVec.index_iter (nodes g) ∧
    ∀ a, node_of g a →
      Coloring.nodes c !! idx a = greedy (nodes g) order ∅ !! a.
Proof.
  intros Hl (Hv & st & Hel & Has & _)%minimal_coloring_inv.
  pose proof (elimination_order g st Hv Hel) as Hord.
  exists (st_stack st). destruct g as [orig]. split.
  - by eapply order_Permutation.
  - intros a Ha. by eapply assign_init_greedy.
Qed.

(** No node holds a colour above the number of its neighbours. *)
Lemma minimal_coloring_le_degree (g : Graph) (c : Coloring) (a : NodeId)
    (ca : usize) :
  minimal_coloring g = Ok c → Coloring.nodes c !! idx a = Some ca →
  (ca ≤ connected (nodes g) a)%N.
Proof.
  intros (Hv & st & Hel & Has & _)%minimal_coloring_inv Hca.
  pose proof (elimination_order g st Hv Hel) as Hord. destruct g as [orig].
  destruct (assign_colored orig (st_k st) (st_stack st) (st_graph st) []
    (st_stack st) _ _ eq_refl (colored_init _ _) Has) as [Hlen _ _].
  apply (assign_le_degree orig (st_k st) (st_stack st) (st_graph st) []
    (st_stack st) _ _ eq_refl) with (a:=a) (c:=ca) in Has; [done| | |done].
  - by intros b cb ?%elem_of_nil.
  - apply (ord_nodes (graph:=st_graph st)). unfold TVec.in_bounds.
    apply lookup_lt_Some in Hca. rewrite Hlen in Hca.
    by rewrite <-(ord_length (graph:=st_graph st)).
Qed.

(** A node holds a colour only if its neighbours hold all smaller ones. *)
Lemma minimal_coloring_grundy_aux (g : Graph) (c : Coloring) (a : NodeId)
    (ca c' : usize) :
  loop_free g → minimal_coloring g = Ok c →
  Coloring.nodes c !! idx a = Some ca → (c' < ca)%N →
  ∃ b, adj g a b ∧ Coloring.nodes c !! idx b = Some c'.
Proof.
  intros Hl (Hv & st & Hel & Has & _)%minimal_coloring_inv Hca Hlt.
  pose proof (elimination_order g st Hv Hel) as Hord. destruct g as [orig].
  destruct (assign_colored orig (st_k st) (st_stack st) (st_graph st) []
    (st_stack st) _ _ eq_refl (colored_init _ _) Has) as [Hlen _ _].
  assert (a ∈ st_stack st) as Ha.
  { apply (ord_nodes (graph:=st_graph st)). unfold TVec.in_bounds.
    apply lookup_lt_Some in Hca. rewrite Hlen in Hca.
    by rewrite <-(ord_length (graph:=st_graph st)). }
  destruct (assign_grundy orig (st_k st) (st_stack st) (st_graph st) []
    (st_stack st) (colors_init (st_graph st)) (Coloring.nodes c) Hl eq_refl
    ltac:(by intros ? ? ? ?%elem_of_nil) Has a ca c' Ha Hca Hlt)
    as (b & _ & Hb & Hcb).
  by exists b.
Qed.

(** ** Properties *)

(** C17 (refinement): phase 2 implements the greedy colouring: for an
    [EliminationOrder] of a table without self-loops, the table that the
    loop returns holds for every node the least number that no neighbour of
    the node in the original table received before it, the nodes taken in
    the order in which they are popped. *)
Theorem assign_greedy (orig : list (gset NodeId)) (k : usize)
    (stack : list NodeId) (graph : list (gset NodeId)) (colors : list usize)
    (a : NodeId) :
  EliminationOrder orig k stack graph → loop_free (MkGraph orig) →
  assign graph k stack (colors_init graph) = Ok colors →
  TVec.in_bounds orig a → colors !! idx a = greedy orig stack ∅ !! a.
Proof. intros Hord. by apply assign_init_greedy. Qed.

Lemma assign_greedy_witness :
  [2; 2; 1; 0]%N !! idx node_b
  = greedy (nodes simple_graph) [node_d; node_c; node_b; node_a] ∅ !! node_b.
Proof.
  apply (assign_greedy (nodes simple_graph) 3 [node_d; node_c; node_b; node_a]
    [{[node_c; node_d]}; {[node_c; node_d]}; {[node_d]}; ∅]);
    [by apply order_check_sound; vm_compute|compute_done|by vm_compute|
     compute_done].
Defined.

(** C28 (functional): the colouring is a greedy one, whatever the order:
    in the table that [minimal_coloring] returns the colour of a node is at
    most the number of its neighbours and, on a graph without self-loops,
    every smaller colour is held by one of its neighbours. *)
Theorem minimal_coloring_grundy (g : Graph) (c : Coloring) (a : NodeId)
    (ca : usize) :
  minimal_coloring g = Ok c → Coloring.nodes c !! idx a = Some ca →
  (ca ≤ connected (nodes g) a)%N ∧
  (loop_free g → ∀ c', (c' < ca)%N →
     ∃ b, adj g a b ∧ Coloring.nodes c !! idx b = Some c').
Proof.
  intros Hc Hca. split; [by eapply minimal_coloring_le_degree|].
  intros Hl c'. by apply minimal_coloring_grundy_aux.
Qed.

Lemma minimal_coloring_grundy_witness :
  (2 ≤ connected (nodes simple_graph) node_a)%N ∧
  (loop_free simple_graph → ∀ c', (c' < 2)%N →
     ∃ b, adj simple_graph node_a b ∧ [2; 2; 1; 0]%N !! idx b = Some c').
Proof.
  apply (minimal_coloring_grundy simple_graph (Coloring.Make 3 [2; 2; 1; 0]%N)
    node_a); by vm_compute.
Defined.
