(* ===== verification/Palette.v ===== *)
(** * The colours a colouring uses

    The doc comment of [Coloring::k] in [src/src/lib.rs] reads "the amount
    of unique colors needed", and the specification calls [k] the number of
    distinct colours used.  The method returns the threshold phase 1 ended
    with.  This file relates the two: the colours that occur in the table
    returned are exactly [0..m] for their number [m], which is at most [k]
    and can be less, and the table is a proper colouring with [m] colours
    already. *)

From stdpp Require Import sorting gmap numbers list.
From S2P Require Import Prelude Tindex Graph Degeneracy Elimination Greedy.
From S2P Require Import MinimalColoring Bounds GreedySpec.

#[local] Set Warnings "-clear-no-such-hyp".

(** The colours that occur in the table of a colouring. *)
Definition colors_used (c : Coloring) : TBitSet usize :=
  TBitSet.collect (Coloring.nodes c).

(** The number of distinct colours used. *)
Definition palette (c : Coloring) : usize :=
  TBitSet.element_count (colors_used c).

(** A set of numbers that holds every number below each of its members. *)
Definition downward_closed (s : TBitSet usize) : Prop :=
  ∀ c c', c ∈ s → (c' < c)%N → c' ∈ s.

(** ** Initial segments *)

Section segment.
Implicit Types (s : TBitSet usize) (c : usize).

Lemma downward_closed_below s c :
  downward_closed s → c ∈ s → (c < TBitSet.element_count s)%N.
Proof.
  intros Hd Hc. unfold TBitSet.element_count.
  assert (TBitSet.collect (range (c + 1)) ⊆ s) as Hsub%subseteq_size.
  { intros c'. unfold TBitSet.collect.
    rewrite elem_of_list_to_set, elem_of_range. intros Hc'.
    destruct (decide (c' = c)) as [->|]; [done|]. apply (Hd c); [done|lia]. }
  rewrite size_range in Hsub. lia.
Qed.

(** A downward closed set is the set of the numbers below its size. *)
Lemma downward_closed_range s :
  downward_closed s → s = TBitSet.collect (range (TBitSet.element_count s)).
Proof.
  intros Hd. apply set_subseteq_size_eq.
  - intros c Hc. unfold TBitSet.collect.
    rewrite elem_of_list_to_set, elem_of_range.
    by apply downward_closed_below.
  - rewrite size_range. unfold TBitSet.element_count. lia.
Qed.

End segment.

(** ** The colours of [minimal_coloring] *)

Section palette.
Implicit Types (g : Graph) (c : Coloring).

Lemma elem_of_colors_used c x :
  x ∈ colors_used c ↔ ∃ a : NodeId, Coloring.nodes c !! idx a = Some x.
Proof.
  unfold colors_used, TBitSet.collect.
  rewrite elem_of_list_to_set, list_elem_of_lookup. split.
  - intros [i Hi]. exists (of_idx i). by rewrite idx_of_idx.
  - intros [a Ha]. by exists (idx a).
Qed.

(** Every colour below a colour of the table is in the table. *)
Lemma colors_used_downward_closed g c :
  loop_free g → minimal_coloring g = Ok c → downward_closed (colors_used c).
Proof.
  intros Hl Hc x x' [a Ha]%elem_of_colors_used Hlt.
  destruct (minimal_coloring_grundy_aux g c a x x' Hl Hc Ha Hlt)
    as (b & _ & Hb).
  apply elem_of_colors_used. by exists b.
Qed.

Lemma palette_le_k g c :
  minimal_coloring g = Ok c → (palette c ≤ Coloring.k c)%N.
Proof.
  intros [_ Hr _]%minimal_coloring_proper_aux.
  assert (colors_used c ⊆ TBitSet.collect (range (Coloring.k c)))
    as Hsub%subseteq_size.
  { intros x [a Ha]%elem_of_colors_used. unfold TBitSet.collect.
    rewrite elem_of_list_to_set, elem_of_range. by apply (Hr a). }
  rewrite size_range in Hsub. unfold palette, TBitSet.element_count. lia.
Qed.

(** The table is a proper colouring with the colours it uses. *)
Lemma palette_proper g c :
  loop_free g → minimal_coloring g = Ok c →
  proper g (palette c) (Coloring.nodes c).
Proof.
  intros Hl Hc.
  destruct (minimal_coloring_proper_aux g c Hc) as [Hlen _ He].
  split; [done| |done]. intros a x Ha.
  apply downward_closed_below; [by eapply colors_used_downward_closed|].
  apply elem_of_colors_used. by exists a.
Qed.

(** No colouring of the graph uses fewer colours than its chromatic number,
    and neither does this one. *)
Lemma palette_chromatic g c chi :
  loop_free g → minimal_coloring g = Ok c → chromatic g chi →
  (chi ≤ palette c)%N.
Proof.
  intros Hl Hc [_ Hmin]. apply Hmin. exists (Coloring.nodes c).
  by apply palette_proper.
Qed.

End palette.

(** ** Properties *)

(** C39 (functional): [k] bounds the number of colours in the table and is
    not that number: on a graph without self-loops the colours that
    [minimal_coloring] uses are exactly the numbers below their count [m],
    the table is a proper colouring with [m] colours, and [m] is at most
    [k]; on the cycle of four nodes [m] is [2] and [k] is [3]. *)
Theorem colors_used_initial (g : Graph) (c : Coloring) :
  loop_free g → minimal_coloring g = Ok c →
  colors_used c = TBitSet.collect (range (palette c)) ∧
  proper g (palette c) (Coloring.nodes c) ∧
  (palette c ≤ Coloring.k c)%N.
Proof.
  intros Hl Hc. split_and!.
  - by eapply downward_closed_range, colors_used_downward_closed.
  - by apply palette_proper.
  - by eapply palette_le_k.
Qed.

Lemma colors_used_initial_witness :
  let g := MkGraph [ {[node_b; node_d]}; {[node_a; node_c]};
                     {[node_b; node_d]}; {[node_a; node_c]} ] in
  let c := Coloring.Make 3 [1; 0; 1; 0]%N in
  palette c = 2%N ∧
  colors_used c = TBitSet.collect (range (palette c)) ∧
  proper g (palette c) (Coloring.nodes c) ∧
  (palette c ≤ 3)%N.
Proof.
  intros g c. split; [by vm_compute|].
  apply (colors_used_initial g c); [compute_done|by vm_compute].
Defined.
