(* ===== verification/Interplay.v ===== *)
(** * The mutations and the colouring together

    A client of [src/src/lib.rs] edits a graph with [add_node], [add_edge]
    and [remove_edge] and colours it with [minimal_coloring].  This file
    states what a call of one of the mutations means for the next
    colouring: the two ends of an edge just added are told apart; the
    number of colours [k] can only grow when an edge is added and only
    shrink when one is removed, by one at most; a node added leaves it as it
    was, unless it is the first.  These facts rest on [k] being the
    degeneracy plus one, a quantity that is monotone in the set of edges
    and moves by one at most when one edge does. *)

From stdpp Require Import sorting gmap numbers list.
From S2P Require Import Prelude Tindex Graph Degeneracy Elimination Greedy.
From S2P Require Import MinimalColoring Bounds.

#[local] Set Warnings "-clear-no-such-hyp".

(** [g] has the nodes of [g'] and some of its edges. *)
Definition subgraph (g g' : Graph) : Prop :=
  length (nodes g) = length (nodes g') ∧ ∀ a b, adj g a b → adj g' a b.

(** [g'] has the nodes of [g] and at most one neighbour more at each. *)
Definition one_more (g g' : Graph) : Prop :=
  length (nodes g) = length (nodes g') ∧
  ∀ a, ∃ y, nbrs (nodes g') a ⊆ nbrs (nodes g) a ∪ {[y]}.

(** What a call means for the next [k]. *)
Definition k_after (o : op) (k k' : usize) : Prop :=
  match o with
  | AddNode => k' = N.max k 1
  | AddEdge _ _ => (k ≤ k' ≤ k + 1)%N
  | RemoveEdge _ _ => (k' ≤ k ≤ k' + 1)%N
  end.

#[global] Instance subgraph_preorder : PreOrder subgraph.
Proof.
  split; [by intros g|].
  intros g1 g2 g3 [Hl1 H1] [Hl2 H2]. split; [congruence|auto].
Qed.

(** ** The degeneracy is monotone *)

Section monotone.
Implicit Types (g : Graph) (c : Coloring) (a b : NodeId).

Lemma subgraph_degree_in g g' (S : gset NodeId) a :
  subgraph g g' → (degree_in (nodes g) S a ≤ degree_in (nodes g') S a)%N.
Proof.
  intros [_ Hsub]. apply TBitSet.element_count_mono.
  intros b [Hb HS]%elem_of_intersection. apply elem_of_intersection.
  split; [by apply (Hsub a b)|done].
Qed.

(** An ordering of a graph is an ordering of each of its subgraphs. *)
Lemma ordering_subgraph g g' d stack :
  subgraph g g' → ordering (nodes g') d stack → ordering (nodes g) d stack.
Proof.
  intros Hsub [Hnd Hnodes Hdeg]. split; [done| |].
  - intros a. rewrite Hnodes. unfold TVec.in_bounds. by rewrite (proj1 Hsub).
  - intros later a earlier Hs. etrans; [by apply subgraph_degree_in|eauto].
Qed.

Lemma degeneracy_mono g g' d d' :
  subgraph g g' → degeneracy (nodes g) d → degeneracy (nodes g') d' →
  (d ≤ d')%N.
Proof.
  intros Hsub [_ Hmin] [[stack Ho] _].
  by apply (Hmin d' stack), (ordering_subgraph g g').
Qed.

Lemma minimal_coloring_k_mono g g' c c' :
  subgraph g g' → loop_free g → loop_free g' →
  minimal_coloring g = Ok c → minimal_coloring g' = Ok c' →
  (Coloring.k c ≤ Coloring.k c')%N.
Proof.
  intros Hsub Hl Hl' Hc Hc'.
  destruct (decide (nodes g = [])) as [Hnil|Hne].
  { apply (minimal_coloring_k_zero g c Hc) in Hnil. lia. }
  assert (nodes g' ≠ []) as Hne'.
  { intros Hnil. destruct Hsub as [Hlen _]. rewrite Hnil in Hlen.
    by destruct (nodes g). }
  destruct (minimal_coloring_degeneracy_aux g c Hl Hne Hc) as [Hk Hd].
  destruct (minimal_coloring_degeneracy_aux g' c' Hl' Hne' Hc') as [Hk' Hd'].
  pose proof (degeneracy_mono g g' _ _ Hsub Hd Hd'). lia.
Qed.

Lemma add_edge_subgraph g a b g' : add_edge g a b = Ok g' → subgraph g g'.
Proof.
  intros Hadd. split; [by rewrite (add_edge_length _ _ _ _ Hadd)|].
  intros x y Hxy. apply (add_edge_adj _ _ _ _ _ _ Hadd). by left.
Qed.

Lemma remove_edge_subgraph g a b g' :
  remove_edge g a b = Ok g' → subgraph g' g.
Proof.
  intros Hrm. split; [by rewrite (remove_edge_length _ _ _ _ Hrm)|].
  intros x y Hxy. by apply (remove_edge_adj _ _ _ _ _ _ Hrm) in Hxy as [? _].
Qed.

(** ** One edge moves [k] by one at most *)

Lemma one_more_degree_in g g' (S : gset NodeId) a :
  one_more g g' → (degree_in (nodes g') S a ≤ degree_in (nodes g) S a + 1)%N.
Proof.
  intros [_ Hone]. destruct (Hone a) as [y Hy].
  apply (TBitSet.element_count_add_le _ _ y). unfold TBitSet.add. set_solver.
Qed.

Lemma ordering_one_more g g' d stack :
  one_more g g' → ordering (nodes g) d stack →
  ordering (nodes g') (d + 1) stack.
Proof.
  intros Hone [Hnd Hnodes Hdeg]. split; [done| |].
  - intros a. rewrite Hnodes. unfold TVec.in_bounds. by rewrite (proj1 Hone).
  - intros later a earlier Hs. etrans; [by apply one_more_degree_in|].
    specialize (Hdeg later a earlier Hs). lia.
Qed.

Lemma minimal_coloring_k_one_more g g' c c' :
  one_more g g' → loop_free g → loop_free g' →
  minimal_coloring g = Ok c → minimal_coloring g' = Ok c' →
  (Coloring.k c' ≤ Coloring.k c + 1)%N.
Proof.
  intros Hone Hl Hl' Hc Hc'.
  destruct (decide (nodes g = [])) as [Hnil|Hne].
  { enough (Coloring.k c' = 0%N) by lia.
    apply (minimal_coloring_k_zero g' c' Hc'). destruct Hone as [Hlen _].
    rewrite Hnil in Hlen. by destruct (nodes g'). }
  destruct (minimal_coloring_degeneracy_aux g c Hl Hne Hc)
    as [Hk [[stack Ho] _]].
  pose proof (minimal_coloring_k_upper g' c' _ stack Hl'
    (ordering_one_more g g' _ _ Hone Ho) Hc'). lia.
Qed.

Lemma add_edge_one_more g a b g' : add_edge g a b = Ok g' → one_more g g'.
Proof.
  intros Hadd. split; [by rewrite (add_edge_length _ _ _ _ Hadd)|].
  intros x. exists (if decide (x = a) then b else a). intros y Hy.
  apply (add_edge_adj _ _ _ _ x y Hadd) in Hy. unfold adj in Hy.
  case_decide; set_solver.
Qed.

Lemma remove_edge_one_more g a b g' :
  remove_edge g a b = Ok g' → one_more g' g.
Proof.
  intros Hrm. split; [by rewrite (remove_edge_length _ _ _ _ Hrm)|].
  intros x. exists (if decide (x = a) then b else a). intros y Hy.
  destruct (decide (adj g' x y)) as [|Hn]; [set_solver|].
  rewrite (remove_edge_adj _ _ _ _ x y Hrm) in Hn.
  apply elem_of_union_r, elem_of_singleton.
  destruct (decide (x = a ∧ y = b)) as [[-> ->]|]; [by rewrite decide_True|].
  destruct (decide (x = b ∧ y = a)) as [[-> ->]|]; [|naive_solver].
  case_decide; by subst.
Qed.

(** ** A node added leaves [k] as it was *)

Lemma ordering_add_node g d stack :
  ordering (nodes g) d stack →
  ordering (nodes (add_node g).1) d (stack ++ [(add_node g).2]).
Proof.
  intros [Hnd Hnodes Hdeg]. split.
  - apply NoDup_app. split_and!; [done| |apply NoDup_singleton].
    intros a Ha%Hnodes ->%list_elem_of_singleton. by apply (add_node_fresh g).
  - intros a. rewrite elem_of_app, list_elem_of_singleton, Hnodes.
    symmetry. apply add_node_node_of.
  - intros later a earlier Hs. unfold degree_in. rewrite add_node_nbrs.
    destruct earlier as [|e earlier _] using rev_ind.
    + apply app_inj_tail in Hs as [_ <-].
      rewrite (nbrs_out _ _ (add_node_fresh g)).
      rewrite intersection_empty_l_L. unfold TBitSet.element_count.
      rewrite size_empty. lia.
    + rewrite app_comm_cons, (assoc_L (++)) in Hs.
      apply app_inj_tail in Hs as [Hs _]. by apply (Hdeg later a earlier).
Qed.

Lemma minimal_coloring_k_add_node g c c' :
  wf g → minimal_coloring g = Ok c →
  minimal_coloring (add_node g).1 = Ok c' →
  Coloring.k c' = N.max (Coloring.k c) 1.
Proof.
  intros Hwf Hc Hc'. pose proof (add_node_wf g Hwf) as [_ Hl'].
  destruct Hwf as [_ Hl]. destruct (decide (nodes g = [])) as [Hnil|Hne].
  { rewrite (proj2 (minimal_coloring_k_zero g c Hc) Hnil).
    destruct g as [v]. simpl in Hnil. subst v.
    by assert (c' = Coloring.Make 1 [0%N]) as -> by (vm_compute in Hc'; congruence). }
  destruct (minimal_coloring_degeneracy_aux g c Hl Hne Hc)
    as [Hk [[stack Ho] _]].
  pose proof (minimal_coloring_k_upper _ c' _ _ Hl'
    (ordering_add_node g _ stack Ho) Hc') as Hup.
  destruct (minimal_coloring_core g c Hne Hc) as (S & HS & Hin & Hdeg).
  pose proof (minimal_coloring_k_lower (add_node g).1 c' S
    (Coloring.k c - 1) Hl' HS) as Hlow.
  enough (Coloring.k c - 1 + 1 ≤ Coloring.k c')%N by lia.
  apply Hlow; [intros a Ha|intros a Ha|done].
  - apply add_node_node_of. auto.
  - unfold degree_in. rewrite (add_node_nbrs g). by apply Hdeg.
Qed.

Lemma apply_op_k_after g o g' c c' :
  wf g → apply_op g o = Ok g' →
  minimal_coloring g = Ok c → minimal_coloring g' = Ok c' →
  k_after o (Coloring.k c) (Coloring.k c').
Proof.
  intros Hwf Ho Hc Hc'. pose proof (apply_op_wf g o g' Hwf Ho) as [_ Hl'].
  pose proof Hwf as [_ Hl]. destruct o as [|a b|a b]; simpl in Ho |- *.
  - injection Ho as <-. by apply (minimal_coloring_k_add_node g).
  - split.
    + by apply (minimal_coloring_k_mono g g'); [eapply add_edge_subgraph|..].
    + by apply (minimal_coloring_k_one_more g g'); [eapply add_edge_one_more|..].
  - split.
    + by apply (minimal_coloring_k_mono g' g);
        [eapply remove_edge_subgraph|..].
    + by apply (minimal_coloring_k_one_more g' g);
        [eapply remove_edge_one_more|..].
Qed.

(** The colouring after [add_edge(a, b)] tells [a] and [b] apart. *)
Lemma add_edge_separates g a b g' :
  wf g → a ≠ b → add_edge g a b = Ok g' →
  (TVec.len (nodes g) < usize_max)%N →
  ∃ c ca cb, minimal_coloring g' = Ok c ∧
    Coloring.nodes c !! idx a = Some ca ∧ Coloring.nodes c !! idx b = Some cb ∧
    ca ≠ cb.
Proof.
  intros Hwf Hab Hadd Hlen.
  pose proof (add_edge_wf _ _ _ _ Hwf Hadd) as [Hv' Hl'].
  destruct (add_edge_nodes _ _ _ _ Hab Hadd) as [Ha Hb].
  apply (add_edge_node_of _ _ _ _ _ Hadd) in Ha, Hb.
  destruct (minimal_coloring_total_aux g' Hv') as [c Hc].
  { unfold TVec.len in *. by rewrite (add_edge_length _ _ _ _ Hadd). }
  pose proof (minimal_coloring_proper_aux g' c Hc) as [Hlc _ He].
  destruct (lookup_lt_is_Some_2 (Coloring.nodes c) (idx a)) as [ca Hca];
    [by rewrite Hlc|].
  destruct (lookup_lt_is_Some_2 (Coloring.nodes c) (idx b)) as [cb Hcb];
    [by rewrite Hlc|].
  exists c, ca, cb. split_and!; [done..|]. apply (He a b); [|done..].
  apply (add_edge_adj _ _ _ _ _ _ Hadd). right. auto.
Qed.

End monotone.

(** ** Properties *)

(** C20 (invariant): what a call of the interface means for the number of
    colours, on graphs built through the interface: after [add_edge] the
    [k] returned by [minimal_coloring] is the [k] before or one more,
    after [remove_edge] it is the [k] before or one less, and after
    [add_node] it is the [k] before, or [1] if the graph had no node. *)
Theorem mutation_k (g : Graph) (o : op) (g' : Graph) (c c' : Coloring) :
  reachable g → apply_op g o = Ok g' →
  minimal_coloring g = Ok c → minimal_coloring g' = Ok c' →
  k_after o (Coloring.k c) (Coloring.k c').
Proof. intros Hwf%reachable_wf_aux. by apply apply_op_k_after. Qed.

Lemma mutation_k_witness : (2 ≤ 3 ≤ 2 + 1)%N.
Proof.
  set (g := MkGraph [ {[node_c; node_d]}; ∅; {[node_a]}; {[node_a]} ]).
  set (g' := MkGraph [ {[node_c; node_d]}; ∅;
                       {[node_a; node_d]}; {[node_a; node_c]} ]).
  assert (reachable g) as Hr.
  { apply (run_reachable new (take 6 simple_script));
      [apply reachable_new|by vm_compute]. }
  assert (apply_op g (AddEdge node_c node_d) = Ok g') as Ho by (by vm_compute).
  assert (minimal_coloring g = Ok (Coloring.Make 2 [1; 0; 0; 0]%N)) as Hc
    by (by vm_compute).
  assert (minimal_coloring g' = Ok (Coloring.Make 3 [2; 0; 1; 0]%N)) as Hc'
    by (by vm_compute).
  exact (mutation_k g _ g' _ _ Hr Ho Hc Hc').
Defined.
