(* ===== verification/Sentinel.v ===== *)
(** * The sentinel is never removed from the set of colours

    In phase 2 of [minimal_coloring] ([src/src/lib.rs]) the colour table
    starts out full of the sentinel [usize::max_value()], and the loop
    [for other in graph[node].iter()] passes [colors[other]] to
    [TBitSet::remove] on a set collected from [0..k].  What the crate does
    with a value outside the range the set was built for is not visible
    from this repository; [Tindex] takes it to change nothing.

    This file makes the method independent of that choice.  Phase 2 is
    modelled once more with the removal of a colour outside [0..k] handed
    to an arbitrary function [far], which may return any set or panic.  On
    a graph without self-loops the method never calls it: a node recorded
    for [node] in the working table was popped before [node] and holds a
    colour of [0..k].  On a graph with a self-loop it does: the node is
    recorded as its own neighbour and is not coloured yet when it is
    popped, so the removal is called on the sentinel. *)

From stdpp Require Import sorting gmap numbers list.
From S2P Require Import Prelude Tindex Graph Degeneracy Elimination Greedy.
From S2P Require Import MinimalColoring.

#[local] Set Warnings "-clear-no-such-hyp".

(** What [allowed_colors.remove(c)] does when [c] is not one of [0..k]. *)
Definition far_remove : Type := TBitSet usize → usize → result (TBitSet usize).

(** [allowed_colors.remove(c)] on a set collected from [0..k]. *)
Definition remove_with (far : far_remove) (k : usize)
    (allowed : TBitSet usize) (c : usize) : result (TBitSet usize) :=
  if decide (c < k)%N then Ok (TBitSet.remove allowed c) else far allowed c.

(** [for other in graph[node].iter() { allowed_colors.remove(colors[other]); }] *)
Definition exclude_with (far : far_remove) (k : usize)
    (colors : TVec NodeId usize) (allowed : TBitSet usize)
    (others : list NodeId) : result (TBitSet usize) :=
  foldM (λ allowed other,
           c ← TVec.index colors other; remove_with far k allowed c)
    allowed others.

(** The right-hand side of [colors[node] = ...]. *)
Definition pick_color_with (far : far_remove)
    (graph : TVec NodeId (TBitSet NodeId)) (k : usize)
    (colors : TVec NodeId usize) (node : NodeId) : result usize :=
  s ← TVec.index graph node;
  allowed ← exclude_with far k colors (TBitSet.collect (range k))
              (TBitSet.iter s);
  unwrap (head (TBitSet.iter allowed)).

(** [while let Some(node) = stack.pop() { ... }] *)
Fixpoint assign_with (far : far_remove)
    (graph : TVec NodeId (TBitSet NodeId)) (k : usize)
    (stack : list NodeId) (colors : TVec NodeId usize)
    : result (TVec NodeId usize) :=
  match stack with
  | [] => Ok colors
  | node :: stack =>
      c ← pick_color_with far graph k colors node;
      colors ← TVec.set colors node c;
      assign_with far graph k stack colors
  end.

(** [g.minimal_coloring()] *)
Definition minimal_coloring_with (far : far_remove) (g : Graph)
    : result Coloring :=
  _ ← check_invariants g;
  st ← elimination (elim_fuel (nodes g)) (elim_init (nodes g));
  colors ← assign_with far (st_graph st) (st_k st) (st_stack st)
             (colors_init (st_graph st));
  Ok {| Coloring.k := st_k st; Coloring.nodes := colors |}.

(** A bit set that panics when asked to remove a value it was not built
    for; the strictest behaviour [far_remove] can have. *)
Definition far_panics : far_remove := λ _ _, Err IndexOutOfBounds.

(** A table with a self-loop, which [check_invariants] accepts. *)
Definition self_loop : Graph := MkGraph [ {[MkNodeId 0]} ].

(** The nodes of the stack that were not popped yet hold the sentinel. *)
Definition unpopped_sentinel (stack processed : list NodeId)
    (colors : TVec NodeId usize) : Prop :=
  ∀ b, b ∈ stack → b ∉ processed → colors !! idx b = Some usize_max.

(** ** The removal is called on colours of [0..k] only *)

Section far.
Context (far : far_remove).

Section loop.
Implicit Types (k c : usize) (colors : list usize) (allowed : gset usize)
  (others : list NodeId) (a b : NodeId).

Lemma remove_with_near k allowed c :
  (c < k)%N → remove_with far k allowed c = Ok (TBitSet.remove allowed c).
Proof. intros Hc. unfold remove_with. by rewrite decide_True. Qed.

Lemma remove_with_far k allowed c :
  ¬ (c < k)%N → remove_with far_panics k allowed c = Err IndexOutOfBounds.
Proof. intros Hc. unfold remove_with. by rewrite decide_False. Qed.

Lemma exclude_with_eq k colors allowed others :
  (∀ b c, b ∈ others → colors !! idx b = Some c → (c < k)%N) →
  exclude_with far k colors allowed others = exclude colors allowed others.
Proof.
  unfold exclude_with, exclude. revert allowed.
  induction others as [|b others IH]; intros allowed Hlt; simpl; [done|].
  result_cases (TVec.index colors b) as c Hc.
  apply TVec.index_Ok in Hc.
  rewrite remove_with_near by (apply (Hlt b); [left|done]). simpl.
  apply IH. intros b' c' Hb'. apply Hlt. by right.
Qed.

End loop.

Section order.
Context (orig : list (gset NodeId)) (k : usize) (stack : list NodeId)
  (graph : list (gset NodeId)) `{!EliminationOrder orig k stack graph}.
Implicit Types (processed todo : list NodeId) (colors : list usize)
  (a b : NodeId).

(** The nodes recorded for the node popped, other than itself, hold
    colours of [0..k]. *)
Lemma recorded_colored processed a rest colors b c :
  stack = processed ++ a :: rest → colored graph k processed colors →
  b ∈ nbrs graph a → b ≠ a → colors !! idx b = Some c → (c < k)%N.
Proof.
  intros Hs Hcol Hb Hne Hc.
  pose proof (ord_nbrs_popped orig k stack graph _ _ _ _ Hs Hb Hne) as Hp.
  destruct (col_range _ _ _ _ Hcol b Hp) as (c' & Hc' & Hlt). congruence.
Qed.

Lemma pick_color_with_eq processed a rest colors :
  a ∉ nbrs orig a → stack = processed ++ a :: rest →
  colored graph k processed colors →
  pick_color_with far graph k colors a = pick_color graph k colors a.
Proof.
  intros Hl Hs Hcol. unfold pick_color_with, pick_color.
  result_cases (TVec.index graph a) as s Hi.
  apply nbrs_index in Hi as <-. rewrite exclude_with_eq; [done|].
  intros b c Hb%TBitSet.elem_of_iter. eapply recorded_colored; [done..|].
  intros ->. rewrite (ord_nbrs _ _ _ Hs) in Hb. set_solver.
Qed.

Lemma assign_with_eq processed todo colors :
  loop_free (MkGraph orig) → stack = processed ++ todo →
  colored graph k processed colors →
  assign_with far graph k todo colors = assign graph k todo colors.
Proof.
  intros Hl. revert processed colors.
  induction todo as [|a rest IH]; intros processed colors Hs Hcol; [done|].
  simpl. rewrite (pick_color_with_eq processed a rest) by (done || apply Hl).
  result_cases (pick_color graph k colors a) as c Hpick.
  result_cases (TVec.set colors a c) as colors' Hset.
  apply (IH (processed ++ [a])); [by rewrite <-app_assoc|].
  by eapply colored_step.
Qed.

End order.

Lemma minimal_coloring_with_eq (g : Graph) :
  loop_free g → minimal_coloring_with far g = minimal_coloring g.
Proof.
  intros Hl. unfold minimal_coloring_with, minimal_coloring.
  destruct (check_invariants g) as [[]|] eqn:Hv; simpl; [|done].
  apply check_invariants_Ok in Hv.
  destruct (elimination _ _) as [st|] eqn:Hel; simpl; [|done].
  pose proof (elimination_order g st Hv Hel) as Hord.
  destruct g as [orig].
  by rewrite (assign_with_eq orig (st_k st) (st_stack st) (st_graph st) []
    (st_stack st) _ Hl eq_refl (colored_init _ _)).
Qed.

End far.

(** ** The removal is called on the sentinel at a self-loop *)

(** A neighbour that still holds the sentinel is met by the loop, if no
    other value outside [0..k] is met before it. *)
Lemma exclude_with_sentinel (k : usize) (colors : list usize)
    (allowed : gset usize) (others : list NodeId) (a : NodeId) :
  (k ≤ usize_max)%N → a ∈ others → colors !! idx a = Some usize_max →
  (∀ b, b ∈ others → TVec.in_bounds colors b) →
  exclude_with far_panics k colors allowed others = Err IndexOutOfBounds.
Proof.
  intros Hk. unfold exclude_with. revert allowed.
  induction others as [|b others IH]; intros allowed Ha Hsen Hin;
    [by apply elem_of_nil in Ha|]. simpl.
  destruct (TVec.index_in_bounds colors b) as [c Hc]; [apply Hin; left|].
  rewrite Hc. simpl. destruct (decide (c < k)%N) as [Hck|Hck];
    [|by rewrite remove_with_far].
  rewrite (remove_with_near far_panics) by done. simpl.
  apply IH; [|done|intros b' ?; apply Hin; set_solver].
  apply elem_of_cons in Ha as [->|?]; [|done].
  apply TVec.index_Ok in Hc. simplify_eq. lia.
Qed.

Section self_loop.
Context (orig : list (gset NodeId)) (k : usize) (stack : list NodeId)
  (graph : list (gset NodeId)) `{!EliminationOrder orig k stack graph}.
Context (Hk : (k ≤ usize_max)%N).
Implicit Types (processed todo : list NodeId) (colors : list usize)
  (a b : NodeId).

Lemma pick_color_with_loop processed a rest colors :
  a ∈ nbrs orig a → stack = processed ++ a :: rest →
  colored graph k processed colors →
  unpopped_sentinel stack processed colors →
  pick_color_with far_panics graph k colors a = Err IndexOutOfBounds.
Proof.
  intros Hloop Hs Hcol Hun. unfold pick_color_with.
  assert (a ∈ stack) as Ha by (rewrite Hs; set_solver).
  rewrite index_nbrs by by eapply ord_in_bounds. simpl.
  rewrite (exclude_with_sentinel _ _ _ _ a); [done|done| | |].
  - apply TBitSet.elem_of_iter. rewrite (ord_nbrs _ _ _ Hs). set_solver.
  - apply Hun; [done|]. by eapply ord_fresh.
  - intros b Hb%TBitSet.elem_of_iter.
    apply (colored_in_bounds orig k stack graph processed); [done|].
    destruct (decide (b = a)) as [->|Hne]; [done|]. rewrite Hs.
    pose proof (ord_nbrs_popped orig k stack graph _ _ _ _ Hs Hb Hne).
    set_solver.
Qed.

Lemma unpopped_sentinel_step processed a colors c colors' :
  unpopped_sentinel stack processed colors →
  TVec.set colors a c = Ok colors' →
  unpopped_sentinel stack (processed ++ [a]) colors'.
Proof.
  intros Hun Hset b Hb Hnp. rewrite (TVec.update_lookup _ _ _ _ b Hset).
  rewrite decide_False by set_solver. apply Hun; set_solver.
Qed.

(** The loop panics at the first node popped that is its own neighbour. *)
Lemma assign_with_loop processed todo colors :
  stack = processed ++ todo → colored graph k processed colors →
  unpopped_sentinel stack processed colors →
  (∃ a, a ∈ todo ∧ a ∈ nbrs orig a) →
  assign_with far_panics graph k todo colors = Err IndexOutOfBounds.
Proof.
  revert processed colors.
  induction todo as [|a rest IH]; intros processed colors Hs Hcol Hun Hex;
    [set_solver|]. simpl.
  destruct (decide (a ∈ nbrs orig a)) as [Hloop|Hloop].
  { by rewrite (pick_color_with_loop processed a rest). }
  rewrite (pick_color_with_eq far_panics orig k stack graph processed a rest)
    by done.
  destruct (assign_total orig k stack graph processed (a :: rest) colors)
    as [colors1 Has]; [done..|]. simpl in Has.
  destruct (pick_color graph k colors a) as [c|] eqn:Hpick; [|done].
  simpl in *. destruct (TVec.set colors a c) as [colors'|] eqn:Hset; [|done].
  simpl. apply (IH (processed ++ [a])); [by rewrite <-app_assoc| | |set_solver].
  - by eapply colored_step.
  - by eapply unpopped_sentinel_step.
Qed.

End self_loop.

(** On a graph with a self-loop the removal is called on the sentinel. *)
Lemma minimal_coloring_with_loop (g : Graph) :
  valid g → (TVec.len (nodes g) < usize_max)%N → ¬ loop_free g →
  minimal_coloring_with far_panics g = Err IndexOutOfBounds.
Proof.
  intros Hv Hlen Hloop. unfold minimal_coloring_with.
  rewrite (proj2 (check_invariants_Ok g ()) Hv). simpl.
  destruct (minimal_coloring_total_aux g Hv Hlen) as [c Hc].
  apply minimal_coloring_inv in Hc as (_ & st & Hel & _).
  rewrite Hel. simpl. pose proof (elimination_order g st Hv Hel) as Hord.
  assert (∃ a, a ∈ st_stack st ∧ a ∈ nbrs (nodes g) a) as Hex.
  { destruct (has_loop g) eqn:Hh; [|by apply has_loop_false in Hh].
    apply bool_decide_eq_true, Exists_exists in Hh as (a & Ha & Haa).
    exists a. split; [|done]. by apply ord_nodes, TVec.elem_of_index_iter. }
  assert (st_k st ≤ usize_max)%N as Hk.
  { pose proof (ord_k (EliminationOrder:=Hord)).
    pose proof (max_degree_le_len g (proj1 Hv)). destruct g. simpl in *. lia. }
  rewrite (assign_with_loop (nodes g) _ _ _ Hk [] (st_stack st)); [done..| | |done].
  - apply colored_init.
  - intros b Hb%ord_nodes _. unfold colors_init, TVec.repeat, TVec.len.
    apply lookup_replicate_2. rewrite (ord_length (EliminationOrder:=Hord)).
    unfold TVec.in_bounds in Hb. lia.
Qed.

(** ** Properties *)

(** C19 (safety): on a graph without self-loops phase 2 never passes the
    sentinel, nor any value outside [0..k], to [allowed_colors.remove]:
    whatever the bit set does with such a value (change the set in any way
    or panic), [minimal_coloring] returns the same result. *)
Theorem minimal_coloring_sentinel_unused
    (far : far_remove) (g : Graph) :
  loop_free g → minimal_coloring_with far g = minimal_coloring g.
Proof. apply minimal_coloring_with_eq. Qed.

Lemma minimal_coloring_sentinel_unused_witness :
  minimal_coloring_with far_panics simple_graph = minimal_coloring simple_graph.
Proof. apply minimal_coloring_sentinel_unused. compute_done. Defined.

(** C38 (error): [check_invariants] accepts a graph with a self-loop, which
    no sequence of public mutations builds.  On every such graph phase 2
    does pass the sentinel to [allowed_colors.remove]: the node is recorded
    as its own neighbour and is not coloured yet when it is popped.  With a
    bit set that panics on such a value the method panics, where with one
    that ignores it the method returns. *)
Theorem self_loop_removes_sentinel (g : Graph) :
  valid g → (TVec.len (nodes g) < usize_max)%N → ¬ loop_free g →
  minimal_coloring_with far_panics g = Err IndexOutOfBounds ∧
  (∃ c, minimal_coloring g = Ok c) ∧ ¬ reachable g.
Proof.
  intros Hv Hlen Hloop. split_and!.
  - by apply minimal_coloring_with_loop.
  - by apply minimal_coloring_total_aux.
  - by intros [_ Hl]%reachable_wf_aux.
Qed.

Lemma self_loop_removes_sentinel_witness :
  minimal_coloring_with far_panics self_loop = Err IndexOutOfBounds ∧
  (∃ c, minimal_coloring self_loop = Ok c) ∧ ¬ reachable self_loop.
Proof.
  apply self_loop_removes_sentinel; [compute_done..|].
  intros Hl. apply (Hl (MkNodeId 0)). compute_done.
Defined.

(** The colouring of the smallest graph with a self-loop: [k] is [2] and
    the table uses one colour. *)
Lemma self_loop_coloring :
  check_invariants self_loop = Ok () ∧
  minimal_coloring self_loop = Ok (Coloring.Make 2 [0%N]).
Proof. by vm_compute. Qed.
