(* ===== verification/Release.v ===== *)
(** * The build without overflow checks

    The only arithmetic of [src/src/lib.rs] is [connected + 1] in the scan
    of [minimal_coloring].  [Elimination] models it as a checked addition
    (a build with overflow checks panics when the sum does not fit); a
    release build wraps around instead.  This file models the method with
    the wrapping addition and proves that the two builds agree whenever the
    checked one does not panic on the addition, which is the case for every
    graph with fewer than [usize::MAX] nodes. *)

From stdpp Require Import sorting gmap numbers list.
From S2P Require Import Prelude Tindex Graph Degeneracy Elimination Greedy.
From S2P Require Import MinimalColoring.

#[local] Set Warnings "-clear-no-such-hyp".

(** [a + b] on [usize] without overflow checks: the sum modulo [2^64]. *)
Definition usize_wrapping_add (a b : usize) : usize :=
  ((a + b) mod (usize_max + 1))%N.

(** The inner [for] loop with the wrapping addition. *)
Fixpoint scan_wrapping (graph : TVec NodeId (TBitSet NodeId)) (k min_k : usize)
    (nodes : list NodeId) : result scan_outcome :=
  match nodes with
  | [] => Ok (Minimum min_k)
  | node :: rest =>
      s ← TVec.index graph node;
      let connected := TBitSet.element_count s in
      if decide (connected < k)%N then Ok (Found node)
      else
        let c := usize_wrapping_add connected 1 in
        scan_wrapping graph k (if decide (c < min_k)%N then c else min_k) rest
  end.

(** One iteration of ['outer]. *)
Definition round_wrapping (st : elim_state) : result elim_state :=
  r ← scan_wrapping (st_graph st) (st_k st) usize_max
         (TBitSet.iter (st_alive st));
  match r with
  | Found node => eliminate st node
  | Minimum min_k =>
      Ok {| st_k := min_k; st_stack := st_stack st; st_graph := st_graph st;
            st_alive := st_alive st |}
  end.

(** ['outer: while !alive.is_empty() { ... }] with at most [fuel] iterations. *)
Fixpoint elimination_wrapping (fuel : nat) (st : elim_state)
    : result elim_state :=
  if TBitSet.is_empty (st_alive st) then Ok st
  else match fuel with
       | 0 => Err OutOfFuel
       | S fuel => st' ← round_wrapping st; elimination_wrapping fuel st'
       end.

(** [g.minimal_coloring()] *)
Definition minimal_coloring_wrapping (g : Graph) : result Coloring :=
  _ ← check_invariants g;
  st ← elimination_wrapping (elim_fuel (nodes g)) (elim_init (nodes g));
  colors ← assign (st_graph st) (st_k st) (st_stack st)
             (colors_init (st_graph st));
  Ok {| Coloring.k := st_k st; Coloring.nodes := colors |}.

(** ** The two additions *)

Section addition.
Implicit Types (a b c : N).

Lemma usize_wrapping_add_lt a b : (usize_wrapping_add a b < usize_max + 1)%N.
Proof. unfold usize_wrapping_add. by apply N.mod_lt. Qed.

(** The wrapped sum fits a [usize]. *)
Lemma usize_wrapping_add_le a b : (usize_wrapping_add a b ≤ usize_max)%N.
Proof. pose proof (usize_wrapping_add_lt a b). lia. Qed.

(** The checked addition returns the wrapped sum, when it returns. *)
Lemma usize_add_wrapping a b c :
  usize_add a b = Ok c → usize_wrapping_add a b = c.
Proof.
  intros [-> Hc]%usize_add_Ok. unfold usize_wrapping_add.
  apply N.mod_small. lia.
Qed.

(** Past [usize::MAX] the wrapped sum starts again from [0]. *)
Lemma usize_wrapping_add_overflow a b :
  (a ≤ usize_max)%N → (b ≤ usize_max)%N → (usize_max < a + b)%N →
  usize_wrapping_add a b = (a + b - (usize_max + 1))%N.
Proof.
  unfold usize_wrapping_add. intros Ha Hb Hab.
  symmetry. apply (N.mod_unique _ _ 1); lia.
Qed.

End addition.

(** ** The two builds *)

Section builds.
Implicit Types (graph : list (gset NodeId)) (st : elim_state) (g : Graph).

Lemma scan_wrapping_eq graph k m l :
  scan graph k m l ≠ Err AddOverflow →
  scan_wrapping graph k m l = scan graph k m l.
Proof.
  revert m. induction l as [|a l IH]; intros m; simpl; [done|].
  result_cases (TVec.index graph a) as s Hs.
  case_decide; [done|].
  destruct (usize_add (TBitSet.element_count s) 1) as [c|e] eqn:Hc; simpl.
  - rewrite (usize_add_wrapping _ _ _ Hc). apply IH.
  - apply usize_add_Err in Hc as [_ ->]. done.
Qed.

Lemma round_wrapping_eq st :
  round st ≠ Err AddOverflow → round_wrapping st = round st.
Proof.
  unfold round, round_wrapping. intros Hr. rewrite scan_wrapping_eq; [done|].
  intros Hs. by rewrite Hs in Hr.
Qed.

Lemma elimination_wrapping_eq fuel st :
  elimination fuel st ≠ Err AddOverflow →
  elimination_wrapping fuel st = elimination fuel st.
Proof.
  revert st. induction fuel as [|fuel IH]; intros st; simpl;
    destruct (TBitSet.is_empty (st_alive st)); try done.
  intros Hel. rewrite round_wrapping_eq.
  - destruct (round st) as [st'|]; simpl in *; [by apply IH|done].
  - intros Hr. by rewrite Hr in Hel.
Qed.

Lemma minimal_coloring_wrapping_eq g :
  minimal_coloring g ≠ Err AddOverflow →
  minimal_coloring_wrapping g = minimal_coloring g.
Proof.
  unfold minimal_coloring, minimal_coloring_wrapping. intros Hmc.
  destruct (check_invariants g); simpl in *; [|done].
  rewrite elimination_wrapping_eq; [done|].
  intros Hel. by rewrite Hel in Hmc.
Qed.

(** A table with fewer than [usize::MAX] nodes: no addition overflows. *)
Lemma minimal_coloring_no_overflow g :
  (TVec.len (nodes g) < usize_max)%N → minimal_coloring g ≠ Err AddOverflow.
Proof.
  intros Hlen He. destruct (decide (valid g)) as [Hv|Hv].
  - destruct (minimal_coloring_total_aux g Hv Hlen) as [c Hc]. congruence.
  - unfold minimal_coloring in He.
    destruct (check_invariants g) as [[]|e] eqn:Hc; simpl in He.
    + by apply check_invariants_Ok in Hc.
    + apply check_invariants_Err in Hc. congruence.
Qed.

(** A node with [usize::MAX] neighbours is where the builds part: the
    checked build panics, the other one computes the threshold [0]. *)
Lemma scan_overflow graph k m a :
  TVec.in_bounds graph a → connected graph a = usize_max → (k ≤ usize_max)%N →
  scan graph k m [a] = Err AddOverflow ∧
  scan_wrapping graph k m [a] = Ok (Minimum 0).
Proof.
  intros Ha Hc Hk. unfold connected in Hc. simpl.
  rewrite (index_nbrs _ _ Ha). simpl.
  rewrite Hc, decide_False by lia. split; [done|].
  assert (usize_wrapping_add usize_max 1 = 0%N) as -> by (by vm_compute).
  rewrite decide_False by lia. case_decide; [done|]. do 2 f_equal. lia.
Qed.

End builds.

(** ** Properties *)

(** C18 (bounds): on every graph with fewer than [usize::MAX] nodes the
    addition [connected + 1] never exceeds [usize::MAX]: the build without
    overflow checks, in which the addition wraps around, returns what the
    checked build returns (the same colouring, or the same panic). *)
Theorem minimal_coloring_wrapping_equiv (g : Graph) :
  (TVec.len (nodes g) < usize_max)%N →
  minimal_coloring_wrapping g = minimal_coloring g.
Proof.
  intros Hlen. by apply minimal_coloring_wrapping_eq, minimal_coloring_no_overflow.
Qed.

Lemma minimal_coloring_wrapping_equiv_witness :
  minimal_coloring_wrapping simple_graph = minimal_coloring simple_graph.
Proof. apply minimal_coloring_wrapping_equiv. compute_done. Defined.
