(* ===== verification/Reference.v ===== *)
(** * Phase 2 over the original adjacency

    The loop of [minimal_coloring] in [src/src/lib.rs] that chooses the
    colours iterates [graph[node]], the working table that phase 1 has
    thinned out.  The specification describes the same loop over the
    adjacency of the caller's graph.  This file states that variant and
    proves that it computes the same result: the nodes the working table
    has lost still hold the sentinel when they are looked up, and the
    sentinel is no colour. *)

From stdpp Require Import sorting gmap numbers list.
From S2P Require Import Prelude Tindex Graph Degeneracy Elimination Greedy.
From S2P Require Import MinimalColoring.

#[local] Set Warnings "-clear-no-such-hyp".

(** [minimal_coloring] with phase 2 reading the table of the graph itself. *)
Definition minimal_coloring_spec (g : Graph) : result Coloring :=
  _ ← check_invariants g;
  st ← elimination (elim_fuel (nodes g)) (elim_init (nodes g));
  colors ← assign (nodes g) (st_k st) (st_stack st) (colors_init (nodes g));
  Ok {| Coloring.k := st_k st; Coloring.nodes := colors |}.

(** The threshold of an elimination order fits in a [usize]. *)
Lemma order_k_le_max orig k stack graph :
  EliminationOrder orig k stack graph → bounded (MkGraph orig) →
  (TVec.len orig < usize_max)%N → (k ≤ usize_max)%N.
Proof.
  intros Hord Hb Hlen. pose proof ord_k as Hk.
  pose proof (max_degree_le_len (MkGraph orig) Hb) as Hmax. simpl in Hmax. lia.
Qed.

Lemma minimal_coloring_spec_eq g :
  (TVec.len (nodes g) < usize_max)%N →
  minimal_coloring_spec g = minimal_coloring g.
Proof.
  intros Hlen. unfold minimal_coloring_spec, minimal_coloring.
  destruct (check_invariants g) as [[]|] eqn:Hc; simpl; [|done].
  apply check_invariants_Ok in Hc.
  destruct (elimination _ _) as [st|] eqn:Hel; simpl; [|done].
  pose proof (elimination_order g st Hc Hel) as Hord. destruct g as [orig].
  destruct Hc as [Hb _]. simpl in *.
  rewrite (assign_init_orig orig (st_k st) (st_stack st) (st_graph st));
    [done..|]. by eapply order_k_le_max.
Qed.

(** ** Properties *)

(** C12 (equivalence): on every graph with fewer than [usize::MAX] nodes,
    [minimal_coloring], whose second phase reads the working table left by
    phase 1, returns what the variant of the specification returns, whose
    second phase reads the adjacency of the graph itself; they also panic
    alike. *)
Theorem minimal_coloring_spec_equiv (g : Graph) :
  (TVec.len (nodes g) < usize_max)%N →
  minimal_coloring g = minimal_coloring_spec g.
Proof. intros Hlen. by rewrite minimal_coloring_spec_eq. Qed.

Lemma minimal_coloring_spec_equiv_witness :
  minimal_coloring simple_graph = minimal_coloring_spec simple_graph.
Proof. apply minimal_coloring_spec_equiv. compute_done. Defined.
