(* ===== verification/Complete.v ===== *)
(** * Complete graphs, and complete graphs less one edge

    The complete graph on [n] nodes is the graph for which the heuristic of
    [minimal_coloring] in [src/src/lib.rs] is exact: the theorems of
    [MinimalColoring] give [k = n] and [n] different colours.

    The unit test [tests::simple] of the source colours the complete graph
    on four nodes less the edge between [a] and [b], and asserts [k == 3],
    the same colour at [a] and [b] and different colours at [a], [c] and
    [d].  The second half of this file proves what the test checks for
    every [n] and every edge taken away with [remove_edge]: [k = n - 1],
    the two ends of the missing edge share a colour, and no other two
    nodes do. *)

From stdpp Require Import sorting gmap numbers list.
From S2P Require Import Prelude Tindex Graph Degeneracy Elimination Greedy.
From S2P Require Import MinimalColoring Bounds.

#[local] Set Warnings "-clear-no-such-hyp".

(** The nodes [0], ..., [n - 1]. *)
Definition all_nodes (n : nat) : gset NodeId :=
  TBitSet.collect (of_idx <$> seq 0 n).

(** Every node is adjacent to every other node. *)
Definition complete (n : nat) : Graph :=
  MkGraph ((λ i, TBitSet.remove (all_nodes n) (of_idx i)) <$> seq 0 n).

Section complete.
Context (n : nat).
Implicit Types (a b : NodeId) (c : Coloring).

Lemma elem_of_all_nodes a : a ∈ all_nodes n ↔ idx a < n.
Proof.
  unfold all_nodes. rewrite TBitSet.elem_of_collect, list_elem_of_fmap. split.
  - intros (i & -> & Hi%elem_of_seq). rewrite idx_of_idx. lia.
  - intros Ha. exists (idx a). rewrite of_idx_idx, elem_of_seq. split; [done|lia].
Qed.

Lemma size_all_nodes : size (all_nodes n) = n.
Proof.
  unfold all_nodes, TBitSet.collect. rewrite size_list_to_set.
  - by rewrite length_fmap, length_seq.
  - apply (NoDup_fmap_2 _), NoDup_seq.
Qed.

Lemma length_complete : length (nodes (complete n)) = n.
Proof. simpl. by rewrite length_fmap, length_seq. Qed.

Lemma node_of_complete a : node_of (complete n) a ↔ idx a < n.
Proof. unfold node_of, TVec.in_bounds. by rewrite length_complete. Qed.

Lemma nbrs_complete a :
  idx a < n → nbrs (nodes (complete n)) a = all_nodes n ∖ {[a]}.
Proof.
  intros Ha. apply nbrs_lookup. simpl.
  rewrite list_lookup_fmap, lookup_seq_lt by done. simpl.
  change (MkNodeId (N.of_nat (idx a))) with (of_idx (idx a) : NodeId).
  by rewrite of_idx_idx.
Qed.

Lemma adj_complete a b :
  adj (complete n) a b ↔ idx a < n ∧ idx b < n ∧ a ≠ b.
Proof.
  unfold adj. destruct (decide (idx a < n)) as [Ha|Ha].
  - rewrite nbrs_complete by done. rewrite elem_of_difference, elem_of_all_nodes.
    set_solver.
  - rewrite nbrs_out by (by rewrite <-node_of_complete in Ha). set_solver.
Qed.

Lemma complete_wf : wf (complete n).
Proof.
  split; [split|]; intros a; [intros b..|]; rewrite !adj_complete;
    [rewrite node_of_complete| |]; naive_solver.
Qed.

Lemma degree_complete a : idx a < n → degree (complete n) a = N.of_nat (n - 1).
Proof.
  intros Ha. unfold degree, connected, TBitSet.element_count.
  rewrite nbrs_complete by done. f_equal.
  rewrite size_difference, size_all_nodes, size_singleton; [done|].
  apply singleton_subseteq_l. by apply elem_of_all_nodes.
Qed.

Lemma max_degree_complete : max_degree (complete n) = N.of_nat (n - 1).
Proof.
  destruct (max_degree_attained (complete n))
    as [H0|(a & Ha%node_of_complete & ->)]; [|by apply degree_complete].
  destruct n as [|m] eqn:Hn; [done|]. rewrite <-Hn in *.
  assert (idx (MkNodeId 0) < n) as H1 by (unfold idx; simpl; lia).
  pose proof (degree_le_max (complete n) (MkNodeId 0)) as Hle.
  rewrite degree_complete, H0 in Hle by done.
  rewrite H0. rewrite node_of_complete in Hle. specialize (Hle H1). lia.
Qed.

End complete.

(** Distinct values below [k]: there are at most [k] of them. *)
Lemma NoDup_below_length (l : list usize) (k : usize) :
  NoDup l → Forall (λ x, (x < k)%N) l → (N.of_nat (length l) ≤ k)%N.
Proof.
  intros Hnd Hl.
  assert (l ⊆+ N.of_nat <$> seq 0 (N.to_nat k)) as Hsub%submseteq_length.
  { apply NoDup_submseteq; [done|]. intros x Hx. apply list_elem_of_fmap.
    rewrite Forall_forall in Hl. specialize (Hl x Hx).
    exists (N.to_nat x). rewrite elem_of_seq. split; lia. }
  rewrite length_fmap, length_seq in Hsub. lia.
Qed.

(** In a proper colouring of a complete graph all colours differ. *)
Lemma proper_complete_NoDup n k colors :
  proper (complete n) k colors → NoDup colors.
Proof.
  intros [Hlen _ Hedge]. rewrite length_complete in Hlen.
  apply NoDup_alt. intros i j x Hi Hj.
  destruct (decide (i = j)) as [|Hne]; [done|].
  destruct (Hedge (of_idx i) (of_idx j) x x); rewrite ?idx_of_idx; try done.
  - apply adj_complete. rewrite !idx_of_idx.
    apply lookup_lt_Some in Hi, Hj. split_and!; [lia..|].
    by intros ?%(inj of_idx).
  - by intros ?%(inj of_idx).
Qed.

Lemma minimal_coloring_complete_aux n c :
  minimal_coloring (complete n) = Ok c →
  Coloring.k c = N.of_nat n ∧ NoDup (Coloring.nodes c) ∧
  length (Coloring.nodes c) = n.
Proof.
  intros Hc. pose proof (minimal_coloring_proper_aux _ _ Hc) as Hp.
  pose proof (minimal_coloring_k_aux _ _ Hc) as Hk.
  pose proof (minimal_coloring_k_zero _ _ Hc) as Hz.
  pose proof (proper_complete_NoDup _ _ _ Hp) as Hnd.
  pose proof (proper_length _ _ _ Hp) as Hlen. rewrite length_complete in Hlen.
  split_and!; [|done..]. rewrite max_degree_complete in Hk.
  assert (N.of_nat (length (Coloring.nodes c)) ≤ Coloring.k c)%N as Hge.
  { apply NoDup_below_length; [done|]. apply Forall_lookup. intros i x Hx.
    apply (proper_range _ _ _ Hp (of_idx i)). by rewrite idx_of_idx. }
  rewrite Hlen in Hge. destruct n as [|m]; [|lia].
  apply Hz. by destruct (nodes (complete 0)) eqn:Hn.
Qed.

(** ** A complete graph less one edge *)

Section less_one_edge.
Context (n : nat) (a b : NodeId) (g : Graph).
Context (Hab : a ≠ b) (Hrm : remove_edge (complete n) a b = Ok g).
Implicit Types (x y : NodeId) (c : Coloring).

Lemma less_node_of x : node_of g x ↔ idx x < n.
Proof. by rewrite (remove_edge_node_of _ _ _ _ _ Hrm), node_of_complete. Qed.

Lemma less_ends : idx a < n ∧ idx b < n.
Proof.
  rewrite <-!node_of_complete.
  destruct (decide (node_of (complete n) a ∧ node_of (complete n) b))
    as [|Hn]; [done|].
  by rewrite (proj2 (remove_edge_Err_iff _ a b IndexOutOfBounds)) in Hrm.
Qed.

Lemma less_adj x y :
  adj g x y ↔
    idx x < n ∧ idx y < n ∧ x ≠ y ∧ ¬ (x = a ∧ y = b) ∧ ¬ (x = b ∧ y = a).
Proof. rewrite (remove_edge_adj _ _ _ _ _ _ Hrm), adj_complete. naive_solver. Qed.

Lemma less_wf : wf g.
Proof. eapply remove_edge_wf; [apply complete_wf|done]. Qed.

(** The nodes other than [a] are adjacent to one another. *)
Lemma less_clique : clique g (all_nodes n ∖ {[a]}).
Proof.
  split.
  - intros x [Hx _]%elem_of_difference. by apply less_node_of, elem_of_all_nodes.
  - intros x y [Hx Hxa%not_elem_of_singleton]%elem_of_difference
      [Hy Hya%not_elem_of_singleton]%elem_of_difference Hxy.
    apply less_adj. rewrite <-!elem_of_all_nodes. naive_solver.
Qed.

Lemma less_size_clique : size (all_nodes n ∖ {[a]}) = n - 1.
Proof.
  rewrite size_difference, size_all_nodes, size_singleton; [done|].
  apply singleton_subseteq_l, elem_of_all_nodes, less_ends.
Qed.

(** [a] has lost a neighbour. *)
Lemma less_degree : size (nbrs (nodes g) a) ≤ n - 2.
Proof.
  destruct less_ends as [Ha Hb].
  assert (nbrs (nodes g) a ⊆ all_nodes n ∖ {[a; b]}) as Hsub%subseteq_size.
  { intros y Hy%less_adj. rewrite elem_of_difference, elem_of_all_nodes.
    set_solver. }
  rewrite size_difference, size_all_nodes in Hsub.
  - rewrite size_union, !size_singleton in Hsub by set_solver. lia.
  - intros y. rewrite elem_of_all_nodes. set_solver.
Qed.

(** No set of nodes gives each of its members [n - 1] neighbours in the
    set: it would hold every node, and [a] has fewer. *)
Lemma less_k_upper c :
  minimal_coloring g = Ok c → (Coloring.k c ≤ N.of_nat (n - 1))%N.
Proof.
  intros Hc. destruct less_ends as [Ha Hb]. pose proof less_wf as [_ Hl].
  assert (nodes g ≠ []) as Hne.
  { intros Hnil. apply less_node_of in Ha. unfold node_of, TVec.in_bounds in Ha.
    rewrite Hnil in Ha. simpl in Ha. lia. }
  destruct (minimal_coloring_core g c Hne Hc) as (S & HS & Hin & Hdeg).
  pose proof (dense_size g S _ Hl HS Hdeg) as Hsize.
  assert (S ⊆ all_nodes n) as Hsub.
  { intros x Hx. by apply elem_of_all_nodes, less_node_of, Hin. }
  pose proof (subseteq_size _ _ Hsub) as Hle. rewrite size_all_nodes in Hle.
  destruct (decide (Coloring.k c ≤ N.of_nat (n - 1))%N) as [|Hk]; [done|].
  assert (S = all_nodes n) as ->.
  { apply set_subseteq_size_eq; [done|]. rewrite size_all_nodes. lia. }
  specialize (Hdeg a (proj2 (elem_of_all_nodes n a) Ha)).
  pose proof less_degree as Hd.
  assert (degree_in (nodes g) (all_nodes n) a
          ≤ N.of_nat (size (nbrs (nodes g) a)))%N
    by (apply TBitSet.element_count_mono; set_solver).
  assert (idx a ≠ idx b) by (by intros ?%(inj idx)). lia.
Qed.

Lemma less_k c : minimal_coloring g = Ok c → Coloring.k c = N.of_nat (n - 1).
Proof.
  intros Hc. pose proof less_wf as [_ Hl].
  pose proof (minimal_coloring_k_clique g c _ Hl less_clique Hc) as Hlow.
  rewrite less_size_clique in Hlow. pose proof (less_k_upper c Hc). lia.
Qed.

(** Two nodes that share a colour are not adjacent: they are the ends of
    the missing edge. *)
Lemma less_same_colour c x y :
  minimal_coloring g = Ok c → idx x < n → idx y < n → x ≠ y →
  Coloring.nodes c !! idx x = Coloring.nodes c !! idx y →
  x = a ∧ y = b ∨ x = b ∧ y = a.
Proof.
  intros [Hlen _ He]%minimal_coloring_proper_aux Hx Hy Hxy Heq.
  destruct (decide (x = a ∧ y = b ∨ x = b ∧ y = a)) as [|Hno]; [done|].
  assert (is_Some (Coloring.nodes c !! idx x)) as [cx Hcx].
  { apply lookup_lt_is_Some. rewrite Hlen. by apply less_node_of. }
  exfalso. apply (He x y cx cx);
    [apply less_adj; naive_solver|done|done|by rewrite <-Heq|done].
Qed.

(** With [n - 1] colours for [n] nodes two of them share one. *)
Lemma less_ends_colour c :
  minimal_coloring g = Ok c →
  Coloring.nodes c !! idx a = Coloring.nodes c !! idx b.
Proof.
  intros Hc. destruct less_ends as [Ha Hb].
  destruct (decide (Coloring.nodes c !! idx a = Coloring.nodes c !! idx b))
    as [|Hne]; [done|exfalso].
  pose proof (minimal_coloring_proper_aux g c Hc) as [Hlen Hr _].
  rewrite (less_k c Hc) in Hr.
  set (f x := N.to_nat (default 0%N (Coloring.nodes c !! idx x))).
  assert (∀ x, idx x < n → ∃ cx, Coloring.nodes c !! idx x = Some cx) as Hcol.
  { intros x Hx. apply lookup_lt_is_Some. rewrite Hlen. by apply less_node_of. }
  enough (size (all_nodes n) ≤ n - 1) by (rewrite size_all_nodes in *; lia).
  apply (size_inj_below _ f).
  - intros x [cx Hcx]%elem_of_all_nodes%Hcol. unfold f. rewrite Hcx. simpl.
    specialize (Hr x cx Hcx). lia.
  - intros x y Hx%elem_of_all_nodes Hy%elem_of_all_nodes Hf.
    destruct (decide (x = y)) as [|Hxy]; [done|exfalso].
    destruct (Hcol x Hx) as [cx Hcx], (Hcol y Hy) as [cy Hcy].
    unfold f in Hf. rewrite Hcx, Hcy in Hf. simpl in Hf.
    assert (cx = cy) as -> by lia.
    destruct (less_same_colour c x y Hc Hx Hy Hxy) as [[-> ->]|[-> ->]];
      congruence.
Qed.

End less_one_edge.

Lemma minimal_coloring_less_one_edge_aux n a b g :
  (N.of_nat n < usize_max)%N → a ≠ b →
  remove_edge (complete n) a b = Ok g →
  ∃ colors,
    minimal_coloring g = Ok (Coloring.Make (N.of_nat (n - 1)) colors) ∧
    colors !! idx a = colors !! idx b ∧
    ∀ x y, idx x < n → idx y < n → x ≠ y →
      colors !! idx x = colors !! idx y → x = a ∧ y = b ∨ x = b ∧ y = a.
Proof.
  intros Hn Hab Hrm.
  destruct (minimal_coloring_total_aux g) as [[k colors] Hc].
  { apply (less_wf n a b g Hrm). }
  { unfold TVec.len. rewrite (remove_edge_length _ _ _ _ Hrm), length_complete.
    lia. }
  pose proof (less_k n a b g Hab Hrm _ Hc) as Hk. simpl in Hk. subst k.
  exists colors. split_and!; [done| |].
  - apply (less_ends_colour n a b g Hab Hrm _ Hc).
  - intros x y. apply (less_same_colour n a b g Hrm _ x y Hc).
Qed.

(** ** Properties *)

(** C24 (functional): on the complete graph with [n] nodes
    [minimal_coloring] returns [k = n] and a table of [n] different
    colours: the heuristic is exact. *)
Theorem minimal_coloring_complete (n : nat) :
  (N.of_nat n < usize_max)%N →
  ∃ colors, minimal_coloring (complete n) = Ok (Coloring.Make (N.of_nat n) colors)
    ∧ NoDup colors ∧ length colors = n.
Proof.
  intros Hn.
  destruct (minimal_coloring_total_aux (complete n)) as [[k colors] Hc].
  { apply complete_wf. }
  { unfold TVec.len. by rewrite length_complete. }
  apply minimal_coloring_complete_aux in Hc as Hk. simpl in Hk.
  destruct Hk as (-> & ? & ?). eauto.
Qed.

Lemma minimal_coloring_complete_witness :
  ∃ colors, minimal_coloring (complete 4) = Ok (Coloring.Make 4 colors)
    ∧ NoDup colors ∧ length colors = 4.
Proof. apply (minimal_coloring_complete 4). compute_done. Defined.

(** C25 (functional): what the unit test [tests::simple] checks, for every
    size and every edge: on the complete graph with [n] nodes from which
    [remove_edge] has taken the edge between [a] and [b],
    [minimal_coloring] returns [k = n - 1], the same colour for [a] and
    [b], and different colours for any other two nodes.  The test is the
    case [n = 4] with its nodes [a] and [b]. *)
Theorem minimal_coloring_less_one_edge (n : nat) (a b : NodeId) (g : Graph) :
  (N.of_nat n < usize_max)%N → a ≠ b →
  remove_edge (complete n) a b = Ok g →
  ∃ colors,
    minimal_coloring g = Ok (Coloring.Make (N.of_nat (n - 1)) colors) ∧
    colors !! idx a = colors !! idx b ∧
    ∀ x y, idx x < n → idx y < n → x ≠ y →
      colors !! idx x = colors !! idx y → x = a ∧ y = b ∨ x = b ∧ y = a.
Proof. apply minimal_coloring_less_one_edge_aux. Qed.

Lemma minimal_coloring_less_one_edge_witness :
  ∃ colors,
    minimal_coloring simple_graph = Ok (Coloring.Make 3 colors) ∧
    colors !! idx node_a = colors !! idx node_b ∧
    ∀ x y, idx x < 4 → idx y < 4 → x ≠ y →
      colors !! idx x = colors !! idx y →
      x = node_a ∧ y = node_b ∨ x = node_b ∧ y = node_a.
Proof.
  apply (minimal_coloring_less_one_edge 4 node_a node_b simple_graph);
    [compute_done|done|by vm_compute].
Defined.
