(* ===== verification/Unwind.v ===== *)
(** * The graph a panicking call leaves behind

    [Graph] models a method with [&mut self] as a function to [result Graph]:
    when the call panics there is no graph.  In Rust there is one: the
    caller's value stays where it was, changed by whatever the method did
    before the panic, and it can be looked at again by a client that catches
    the panic ([std::panic::catch_unwind] around a closure that holds the
    [&mut Graph]), by a destructor that runs during unwinding, or by another
    thread that shares the graph.

    This file models the mutations of [src/src/lib.rs] once more in a monad
    that keeps the graph on both outcomes ([unwind]), statement by statement:
    [self.nodes[a].add(b)] and [self.nodes[b].add(a)] of [add_edge] are two
    steps, each of which checks its own index.  It shows that the two models
    agree on every call that returns ([outcome_apply_op]), gives the nodes
    and edges after any call, returning or not ([add_edge_mut_adj],
    [remove_edge_mut_adj]), and from these the graph a panicking call
    leaves: [remove_edge] leaves the graph as it was, [add_edge] leaves half
    an edge.  [Session] follows a client that goes on after a panic. *)

From stdpp Require Import sorting gmap numbers list.
From S2P Require Import Prelude Tindex Graph Degeneracy Elimination Greedy.
From S2P Require Import MinimalColoring.

#[local] Set Warnings "-clear-no-such-hyp".

(** ** Calls on a graph held by the caller *)

(** A call with [&mut self]: its outcome and the graph it leaves. *)
Definition unwind (A : Type) : Type := Graph → result A * Graph.

#[global] Instance unwind_ret : MRet unwind := λ A x g, (Ok x, g).

(** [m; f]: a panic of [m] ends the call with the graph [m] left. *)
#[global] Instance unwind_bind : MBind unwind := λ A B f m g,
  match m g with
  | (Ok x, g') => f x g'
  | (Err e, g') => (Err e, g')
  end.

(** What the state-passing model sees of a call: the graph only when the
    call returns. *)
Definition outcome {A} (m : unwind A) (g : Graph) : result (A * Graph) :=
  match m g with
  | (Ok x, g') => Ok (x, g')
  | (Err e, _) => Err e
  end.

(** [self.nodes[a].f(..)]: the set of [a] changed in place; an index past
    the end panics before anything is changed. *)
Definition nodes_at (a : NodeId) (f : TBitSet NodeId → TBitSet NodeId)
    : unwind unit := λ g,
  match TVec.update (nodes g) a f with
  | Ok v => (Ok (), {| nodes := v |})
  | Err e => (Err e, g)
  end.

(** [self.add_node()] *)
Definition add_node_mut : unwind NodeId := λ g,
  let '(v, id) := TVec.push (nodes g) TBitSet.new in (Ok id, {| nodes := v |}).

(** [self.add_edge(a, b)] *)
Definition add_edge_mut (a b : NodeId) : unwind unit :=
  if decide (a ≠ b) then
    _ ← nodes_at a (λ s, TBitSet.add s b);
    nodes_at b (λ s, TBitSet.add s a)
  else mret ().

(** [self.remove_edge(a, b)] *)
Definition remove_edge_mut (a b : NodeId) : unwind unit :=
  _ ← nodes_at a (λ s, TBitSet.remove s b);
  nodes_at b (λ s, TBitSet.remove s a).

(** A method with [&self]: it cannot change the graph, whatever it returns. *)
Definition shared {A} (f : Graph → result A) : unwind A := λ g, (f g, g).

(** [self.check_invariants()] *)
Definition check_invariants_mut : unwind unit := shared check_invariants.

(** [self.minimal_coloring()] *)
Definition minimal_coloring_mut : unwind Coloring := shared minimal_coloring.

(** [catch_unwind(AssertUnwindSafe(|| m))]: the panic becomes a value and the
    caller goes on with the graph as the call left it. *)
Definition catch_unwind {A} (m : unwind A) : unwind (result A) := λ g,
  let '(r, g') := m g in (Ok r, g').

(** One call of the interface. *)
Definition apply_op_mut (o : op) : unwind unit :=
  match o with
  | AddNode => _ ← add_node_mut; mret ()
  | AddEdge a b => add_edge_mut a b
  | RemoveEdge a b => remove_edge_mut a b
  end.

(** ** What a call can promise about the graph it leaves *)

(** [m] leaves a graph in [P] when started in [P], whether it returns or
    panics. *)
Definition preserves (P : Graph → Prop) {A} (m : unwind A) : Prop :=
  ∀ g, P g → P (m g).2.

(** [m] changes nothing when it panics on a graph in [P]. *)
Definition panic_safe (P : Graph → Prop) {A} (m : unwind A) : Prop :=
  ∀ g e, P g → (m g).1 = Err e → (m g).2 = g.

(** ** The monad *)

Section monad.
Context {A B : Type}.
Implicit Types (m : unwind A) (f : A → unwind B) (g : Graph)
  (P : Graph → Prop).

Lemma unwind_bind_Ok m f g x g' :
  m g = (Ok x, g') → (m ≫= f) g = f x g'.
Proof. unfold mbind, unwind_bind. by intros ->. Qed.

Lemma unwind_bind_Err m f g e g' :
  m g = (Err e, g') → (m ≫= f) g = (Err e, g').
Proof. unfold mbind, unwind_bind. by intros ->. Qed.

Lemma outcome_bind m f g :
  outcome (m ≫= f) g = outcome m g ≫= λ '(x, g'), outcome (f x) g'.
Proof.
  unfold outcome, mbind at 1, unwind_bind. by destruct (m g) as [[x|e] g'].
Qed.

Lemma preserves_bind P m f :
  preserves P m → (∀ x, preserves P (f x)) → preserves P (m ≫= f).
Proof.
  intros Hm Hf g Hg. specialize (Hm g Hg). unfold mbind, unwind_bind.
  destruct (m g) as [[x|e] g']; [by apply Hf|done].
Qed.

Lemma preserves_ret P (x : A) : preserves P (mret x).
Proof. by intros g. Qed.

Lemma preserves_shared P (h : Graph → result A) : preserves P (shared h).
Proof. by intros g. Qed.

Lemma panic_safe_shared P (h : Graph → result A) : panic_safe P (shared h).
Proof. by intros g. Qed.

Lemma preserves_catch P m : preserves P m → preserves P (catch_unwind m).
Proof.
  intros Hm g Hg. specialize (Hm g Hg). unfold catch_unwind.
  by destruct (m g).
Qed.

Lemma catch_unwind_graph m g : (catch_unwind m g).2 = (m g).2.
Proof. unfold catch_unwind. by destruct (m g). Qed.

End monad.

(** ** One statement *)

Section statement.
Implicit Types (a b x y : NodeId) (f : gset NodeId → gset NodeId) (g : Graph).

Lemma nodes_at_Ok a f g :
  node_of g a →
  nodes_at a f g = (Ok (), MkGraph (<[idx a := f (nbrs (nodes g) a)]> (nodes g))).
Proof.
  intros (s & Hs & Hu)%(TVec.update_in_bounds _ _ f). unfold nodes_at.
  by rewrite Hu, (nbrs_lookup _ _ _ Hs).
Qed.

Lemma nodes_at_Err a f g :
  ¬ node_of g a → nodes_at a f g = (Err IndexOutOfBounds, g).
Proof.
  intros Ha. unfold nodes_at.
  destruct (TVec.update (nodes g) a f) as [v|e] eqn:Hu.
  - destruct Ha. apply TVec.update_Ok in Hu as (s & Hs & _).
    apply TVec.in_bounds_lookup. eauto.
  - by apply TVec.update_Err in Hu as [_ ->].
Qed.

Lemma outcome_nodes_at a f g :
  outcome (nodes_at a f) g = (λ v, ((), MkGraph v)) <$> TVec.update (nodes g) a f.
Proof. unfold outcome, nodes_at. by destruct (TVec.update _ _ _). Qed.

(** A statement that panics has changed nothing. *)
Lemma nodes_at_panic_safe P a f : panic_safe P (nodes_at a f).
Proof.
  intros g e _. unfold nodes_at. by destruct (TVec.update _ _ _).
Qed.

Lemma nodes_at_node_of a f g x : node_of (nodes_at a f g).2 x ↔ node_of g x.
Proof.
  unfold nodes_at. destruct (TVec.update _ _ _) as [v|e] eqn:Hu; [|done].
  by apply (TVec.update_in_bounds_iff _ _ _ _ x) in Hu.
Qed.

Lemma nodes_at_nbrs a f g x :
  node_of g a →
  nbrs (nodes (nodes_at a f g).2) x =
    if decide (x = a) then f (nbrs (nodes g) a) else nbrs (nodes g) x.
Proof.
  intros (s & Hs & Hu)%(TVec.update_in_bounds _ _ f). unfold nodes_at.
  rewrite Hu. simpl. by apply nbrs_update.
Qed.

(** The statements that follow run on the graph the first one left, when
    its index is in bounds. *)
Lemma nodes_at_bind {B} a f (k : unit → unwind B) g :
  (nodes_at a f ≫= k) g =
    if decide (node_of g a) then k () (nodes_at a f g).2
    else (Err IndexOutOfBounds, g).
Proof.
  case_decide as Ha.
  - by rewrite (unwind_bind_Ok _ _ _ _ _ (nodes_at_Ok a f g Ha)), nodes_at_Ok.
  - by rewrite (unwind_bind_Err _ _ _ _ _ (nodes_at_Err a f g Ha)).
Qed.

Lemma nodes_at_add_adj a b g x y :
  adj (nodes_at a (λ s, TBitSet.add s b) g).2 x y ↔
    adj g x y ∨ (node_of g a ∧ x = a ∧ y = b).
Proof.
  destruct (decide (node_of g a)) as [Ha|Ha].
  - unfold adj. rewrite nodes_at_nbrs by done.
    unfold TBitSet.add. case_decide; set_solver.
  - rewrite nodes_at_Err by done. naive_solver.
Qed.

Lemma nodes_at_remove_adj a b g x y :
  adj (nodes_at a (λ s, TBitSet.remove s b) g).2 x y ↔
    adj g x y ∧ ¬ (x = a ∧ y = b).
Proof.
  destruct (decide (node_of g a)) as [Ha|Ha].
  - unfold adj. rewrite nodes_at_nbrs by done.
    unfold TBitSet.remove. case_decide; set_solver.
  - rewrite nodes_at_Err by done. simpl. split; [|naive_solver].
    intros Hxy. split; [done|]. intros [-> ->]. by apply Ha, (adj_node_of g a b).
Qed.

End statement.

(** ** The two models agree on the calls that return *)

Section agreement.
Implicit Types (a b : NodeId) (g : Graph) (o : op) (os : list op).

Lemma outcome_Ok {A} (m : unwind A) g x g' :
  outcome m g = Ok (x, g') ↔ m g = (Ok x, g').
Proof. unfold outcome. destruct (m g) as [[y|e] g'']; naive_solver. Qed.

Lemma outcome_Err {A} (m : unwind A) g e :
  outcome m g = Err e ↔ (m g).1 = Err e.
Proof. unfold outcome. destruct (m g) as [[y|e'] g'']; naive_solver. Qed.

Lemma outcome_add_node g :
  outcome add_node_mut g = Ok ((add_node g).2, (add_node g).1).
Proof. done. Qed.

Lemma outcome_add_edge a b g :
  outcome (add_edge_mut a b) g = (λ g', ((), g')) <$> add_edge g a b.
Proof.
  unfold add_edge_mut, add_edge. case_decide; [|done].
  rewrite outcome_bind, outcome_nodes_at.
  destruct (TVec.update (nodes g) a _) as [v|]; simpl; [|done].
  rewrite outcome_nodes_at. simpl. by destruct (TVec.update v b _).
Qed.

Lemma outcome_remove_edge a b g :
  outcome (remove_edge_mut a b) g = (λ g', ((), g')) <$> remove_edge g a b.
Proof.
  unfold remove_edge_mut, remove_edge.
  rewrite outcome_bind, outcome_nodes_at.
  destruct (TVec.update (nodes g) a _) as [v|]; simpl; [|done].
  rewrite outcome_nodes_at. simpl. by destruct (TVec.update v b _).
Qed.

Lemma outcome_apply_op o g :
  outcome (apply_op_mut o) g = (λ g', ((), g')) <$> apply_op g o.
Proof.
  destruct o as [|a b|a b]; simpl;
    [done|apply outcome_add_edge|apply outcome_remove_edge].
Qed.

(** A call that returns leaves the graph of the state-passing model. *)
Lemma apply_op_mut_Ok o g g' :
  apply_op g o = Ok g' ↔ apply_op_mut o g = (Ok (), g').
Proof.
  rewrite <-outcome_Ok, outcome_apply_op.
  destruct (apply_op g o); naive_solver.
Qed.

Lemma apply_op_mut_Err o g e :
  apply_op g o = Err e ↔ (apply_op_mut o g).1 = Err e.
Proof.
  rewrite <-outcome_Err, outcome_apply_op.
  destruct (apply_op g o); naive_solver.
Qed.

End agreement.

(** ** The graph a call leaves, returning or not *)

Section left.
Implicit Types (a b x y : NodeId) (g : Graph) (o : op).

Lemma add_node_mut_graph g : (add_node_mut g).2 = (add_node g).1.
Proof. done. Qed.

Lemma add_edge_mut_node_of a b g x :
  node_of (add_edge_mut a b g).2 x ↔ node_of g x.
Proof.
  unfold add_edge_mut. case_decide; [|done]. rewrite nodes_at_bind.
  case_decide; [|done]. by rewrite !nodes_at_node_of.
Qed.

Lemma remove_edge_mut_node_of a b g x :
  node_of (remove_edge_mut a b g).2 x ↔ node_of g x.
Proof.
  unfold remove_edge_mut. rewrite nodes_at_bind.
  case_decide; [|done]. by rewrite !nodes_at_node_of.
Qed.

(** [add_edge(a, b)] records [b] at [a] as soon as [a] is a node, and [a]
    at [b] when [b] is one too. *)
Lemma add_edge_mut_adj a b g x y :
  adj (add_edge_mut a b g).2 x y ↔
    adj g x y ∨ (a ≠ b ∧ node_of g a ∧
                 ((x = a ∧ y = b) ∨ (node_of g b ∧ x = b ∧ y = a))).
Proof.
  unfold add_edge_mut. case_decide as Hab; [|naive_solver].
  rewrite nodes_at_bind. case_decide as Ha; [|naive_solver].
  rewrite !nodes_at_add_adj, nodes_at_node_of. naive_solver.
Qed.

(** [remove_edge(a, b)] takes [b] away at [a], and [a] at [b] when [a] is a
    node. *)
Lemma remove_edge_mut_adj a b g x y :
  adj (remove_edge_mut a b g).2 x y ↔
    adj g x y ∧ ¬ (x = a ∧ y = b) ∧ ¬ (node_of g a ∧ x = b ∧ y = a).
Proof.
  unfold remove_edge_mut. rewrite nodes_at_bind. case_decide as Ha.
  - rewrite !nodes_at_remove_adj. naive_solver.
  - split; [|naive_solver]. intros Hxy. split_and!; [done| |naive_solver].
    intros [-> ->]. by apply Ha, (adj_node_of g a b).
Qed.

(** The graph a call leaves depends on its outcome only through these
    equations: the nodes and the edges after any call. *)
Lemma apply_op_mut_node_of o g x :
  node_of (apply_op_mut o g).2 x ↔
    node_of g x ∨ (o = AddNode ∧ x = (add_node g).2).
Proof.
  destruct o as [|a b|a b]; simpl.
  - rewrite (add_node_node_of g x). naive_solver.
  - rewrite add_edge_mut_node_of. naive_solver.
  - rewrite remove_edge_mut_node_of. naive_solver.
Qed.

End left.

(** ** The graph a panicking call leaves *)

Section panic.
Implicit Types (a b x y : NodeId) (g : Graph) (e : panic).

Lemma add_edge_mut_Err a b g e :
  (add_edge_mut a b g).1 = Err e ↔
    a ≠ b ∧ ¬ (node_of g a ∧ node_of g b) ∧ e = IndexOutOfBounds.
Proof.
  etrans; [symmetry; apply (apply_op_mut_Err (AddEdge a b))|].
  apply add_edge_Err_iff.
Qed.

Lemma remove_edge_mut_Err a b g e :
  (remove_edge_mut a b g).1 = Err e ↔
    ¬ (node_of g a ∧ node_of g b) ∧ e = IndexOutOfBounds.
Proof.
  etrans; [symmetry; apply (apply_op_mut_Err (RemoveEdge a b))|].
  apply remove_edge_Err_iff.
Qed.

(** [remove_edge] panics after its first statement only when [b] is not a
    node; on a graph whose edges lead to nodes that statement had nothing
    to remove. *)
Lemma remove_edge_mut_panic_safe a b : panic_safe bounded (remove_edge_mut a b).
Proof.
  intros g e Hbd [Hn _]%remove_edge_mut_Err. apply graph_ext.
  - apply remove_edge_mut_node_of.
  - intros x y. rewrite remove_edge_mut_adj. split; [naive_solver|].
    intros Hxy. split_and!; [done|..]; intros ?; destruct_and?; subst;
      apply Hn; eauto using adj_node_of.
Qed.

(** [add_edge] that panics on its first statement has changed nothing. *)
Lemma add_edge_mut_panic_safe a b :
  panic_safe (λ g, ¬ node_of g a) (add_edge_mut a b).
Proof.
  intros g e Ha _. apply graph_ext; [apply add_edge_mut_node_of|].
  intros x y. rewrite add_edge_mut_adj. naive_solver.
Qed.

(** The edge a panicking [add_edge(a, b)] left is taken away by
    [remove_edge(a, b)], which panics in turn. *)
Lemma add_edge_mut_undo a b g :
  bounded g → node_of g a → ¬ node_of g b →
  remove_edge_mut a b (add_edge_mut a b g).2 = (Err IndexOutOfBounds, g).
Proof.
  intros Hbd Ha Hb.
  assert ((remove_edge_mut a b (add_edge_mut a b g).2).1 = Err IndexOutOfBounds)
    as He.
  { apply remove_edge_mut_Err. rewrite !add_edge_mut_node_of. naive_solver. }
  rewrite <-He, (surjective_pairing (remove_edge_mut _ _ _)). simpl. f_equal.
  apply graph_ext.
  - intros x. by rewrite remove_edge_mut_node_of, add_edge_mut_node_of.
  - intros x y.
    rewrite remove_edge_mut_adj, add_edge_mut_adj, add_edge_mut_node_of.
    split; [naive_solver|]. intros Hxy. split_and!; [by left|..];
      intros ?; destruct_and?; subst; eauto using adj_node_of.
Qed.

(** The graph [add_edge(a, b)] leaves when [a] is a node and [b] is not:
    the edge is recorded at [a], towards a node that does not exist. *)
Lemma add_edge_mut_panic a b g :
  a ≠ b → node_of g a → ¬ node_of g b →
  ∃ g', add_edge_mut a b g = (Err IndexOutOfBounds, g') ∧
        (∀ x, node_of g' x ↔ node_of g x) ∧
        (∀ x y, adj g' x y ↔ adj g x y ∨ (x = a ∧ y = b)) ∧
        check_invariants g' = Err AssertionFailed ∧
        (bounded g → remove_edge_mut a b g' = (Err IndexOutOfBounds, g)).
Proof.
  intros Hab Ha Hb.
  assert ((add_edge_mut a b g).1 = Err IndexOutOfBounds) as He
    by (apply add_edge_mut_Err; naive_solver).
  assert (∀ x y, adj (add_edge_mut a b g).2 x y ↔ adj g x y ∨ (x = a ∧ y = b))
    as Hadj by (intros x y; rewrite add_edge_mut_adj; naive_solver).
  exists (add_edge_mut a b g).2. split_and!.
  - rewrite <-He. apply surjective_pairing.
  - apply add_edge_mut_node_of.
  - done.
  - apply check_invariants_invalid. intros [Hbd _]. apply Hb.
    rewrite <-(add_edge_mut_node_of a b). apply (Hbd a b), Hadj. auto.
  - intros Hbd. by apply add_edge_mut_undo.
Qed.

End panic.

(** ** Properties *)

(** C23 (safety): [remove_edge] is safe to retry: on a graph whose edges all
    lead to nodes, a call that panics has left the graph exactly as it
    was.  (It panics after its first statement only when [b] is past the
    end, and then [a] recorded no edge to [b].) *)
Theorem remove_edge_panic_safe (a b : NodeId) (g : Graph) (e : panic) :
  bounded g → (remove_edge_mut a b g).1 = Err e → (remove_edge_mut a b g).2 = g.
Proof. intros Hb. by apply remove_edge_mut_panic_safe. Qed.

Lemma remove_edge_panic_safe_witness :
  (remove_edge_mut node_a node_d (MkGraph [{[node_b]}; {[node_a]}])).2
  = MkGraph [{[node_b]}; {[node_a]}].
Proof.
  apply (remove_edge_panic_safe _ _ _ IndexOutOfBounds); [|by vm_compute].
  assert (valid (MkGraph [{[node_b]}; {[node_a]}])) as [Hb _] by compute_done.
  exact Hb.
Defined.

(** C13 (error): [add_edge(a, b)] called with a node [a] and an identifier [b]
    past the end of the table panics after [self.nodes[a].add(b)] has run:
    the graph it leaves has the old nodes and the old edges plus an edge
    from [a] to [b], which is not a node, and [check_invariants] panics on
    it.  [remove_edge(a, b)] then panics as well and takes the edge away
    again. *)
Theorem add_edge_panic_state (a b : NodeId) (g : Graph) :
  a ≠ b → node_of g a → ¬ node_of g b →
  ∃ g', add_edge_mut a b g = (Err IndexOutOfBounds, g') ∧
        (∀ x, node_of g' x ↔ node_of g x) ∧
        (∀ x y, adj g' x y ↔ adj g x y ∨ (x = a ∧ y = b)) ∧
        check_invariants g' = Err AssertionFailed ∧
        (bounded g → remove_edge_mut a b g' = (Err IndexOutOfBounds, g)).
Proof. apply add_edge_mut_panic. Qed.

Lemma add_edge_panic_state_witness :
  ∃ g', add_edge_mut node_a node_b (MkGraph [∅]) = (Err IndexOutOfBounds, g') ∧
        (∀ x, node_of g' x ↔ node_of (MkGraph [∅]) x) ∧
        (∀ x y, adj g' x y ↔
                  adj (MkGraph [∅]) x y ∨ (x = node_a ∧ y = node_b)) ∧
        check_invariants g' = Err AssertionFailed ∧
        (bounded (MkGraph [∅]) →
         remove_edge_mut node_a node_b g' = (Err IndexOutOfBounds, MkGraph [∅])).
Proof. apply add_edge_panic_state; compute_done. Defined.
