(* ===== verification/Session.v ===== *)
(** * A client that goes on after a panic

    [Unwind] gives the graph every call of [src/src/lib.rs] leaves, whether
    it returns or panics.  This file follows a client that catches the panic
    of every call and carries on with the graph it holds ([session]).  The
    graphs such a client can hold are characterised exactly: no node is its
    own neighbour, and an edge recorded in one direction only leads from a
    node to a larger index ([half_wf]); it was left by an [add_edge] whose
    second endpoint was past the end of the table at the time.  Every call
    maintains this, and [session_script] computes, for any such table, calls
    that end in it.  Two calls are enough to leave the symmetric graphs:
    an [add_edge] from a node to the next identifier, which panics, and the
    [add_node] that makes the identifier a node ([broken_script]). *)

From stdpp Require Import sorting gmap numbers list.
From S2P Require Import Prelude Tindex Graph Script Degeneracy Elimination.
From S2P Require Import Greedy MinimalColoring Unwind.

#[local] Set Warnings "-clear-no-such-hyp".

(** A client that catches the panic of every call and goes on: the graph it
    holds after the calls [os]. *)
Definition session (os : list op) (g : Graph) : Graph :=
  foldl (λ g o, (catch_unwind (apply_op_mut o) g).2) g os.

(** An edge recorded in one direction only leads to a larger index: it was
    left by an [add_edge] that panicked on its second endpoint, which was
    past the end of the table then. *)
Definition forward (g : Graph) : Prop :=
  ∀ a b, adj g a b → adj g b a ∨ index_lt a b.

(** What the calls maintain, returning or not. *)
Definition half_wf (g : Graph) : Prop := loop_free g ∧ forward g.

(** The neighbours recorded at [a] that do not record [a] in turn. *)
Definition half_edges (g : Graph) (a : NodeId) : list NodeId :=
  filter (λ b, ¬ adj g b a) (TBitSet.iter (nbrs (nodes g) a)).

(** The edges recorded in both directions. *)
Definition full_edges (g : Graph) : list (NodeId * NodeId) :=
  filter (λ e, adj g e.2 e.1) (edges_of g).

(** The calls that add the node [a]: [add_node] and, while [a] is the last
    node of the table, [add_edge] towards the nodes that will not record
    it. *)
Definition node_calls (g : Graph) (a : NodeId) : list op :=
  AddNode :: (AddEdge a <$> half_edges g a).

(** The calls of a session that ends in [g]: the nodes in order, then the
    edges recorded in both directions. *)
Definition session_script (g : Graph) : list op :=
  (TVec.index_iter (nodes g) ≫= node_calls g) ++ add_edges (full_edges g).

(** The calls of a client that meets a panic and carries on: an edge from
    the node [a] to the node that the next [add_node] will return, then
    that [add_node]. *)
Definition broken_script (g : Graph) (a : NodeId) : list op :=
  [AddEdge a (add_node g).2; AddNode].

(** ** Sessions and runs *)

Section run.
Implicit Types (g : Graph) (o : op) (os : list op).

(** A session in which no call panics is a run of the state-passing model. *)
Lemma session_run os g g' : run g os = Ok g' → session os g = g'.
Proof.
  unfold run, session. revert g.
  induction os as [|o os IH]; intros g; simpl; [naive_solver|].
  destruct (apply_op g o) as [g1|] eqn:Ho; simpl; [|done].
  apply apply_op_mut_Ok in Ho. rewrite catch_unwind_graph, Ho. apply IH.
Qed.

Lemma session_app os1 os2 g :
  session (os1 ++ os2) g = session os2 (session os1 g).
Proof. apply foldl_app. Qed.

Lemma session_cons o os g :
  session (o :: os) g = session os (apply_op_mut o g).2.
Proof. unfold session. simpl. by rewrite catch_unwind_graph. Qed.

Lemma session_preserves (P : Graph → Prop) os g :
  (∀ o, preserves P (apply_op_mut o)) → P g → P (session os g).
Proof.
  intros HP. unfold session. revert g.
  induction os as [|o os IH]; intros g Hg; simpl; [done|].
  by apply IH, preserves_catch.
Qed.

End run.

(** ** A client that goes on after a panic *)

Section session.
Implicit Types (a b x y : NodeId) (g : Graph) (o : op) (os : list op).

Lemma wf_half_wf g : wf g → half_wf g.
Proof. intros [[_ Hs] Hl]. split; [done|]. intros a b ?. left. by apply Hs. Qed.

Lemma node_of_index_lt g a b : node_of g a → ¬ node_of g b → index_lt a b.
Proof. unfold node_of, TVec.in_bounds. rewrite index_lt_idx. lia. Qed.

Lemma add_node_mut_half_wf : preserves half_wf add_node_mut.
Proof.
  intros g [Hl Hf]. rewrite add_node_mut_graph.
  split; [intros x|intros x y]; rewrite !add_node_adj; [apply Hl|apply Hf].
Qed.

Lemma add_edge_mut_half_wf a b : preserves half_wf (add_edge_mut a b).
Proof.
  intros g [Hl Hf]. split.
  - intros x. rewrite add_edge_mut_adj. specialize (Hl x). naive_solver.
  - intros x y. rewrite !add_edge_mut_adj.
    intros [Hxy|(Hab & Ha & [[-> ->]|(Hb & -> & ->)])].
    + destruct (Hf x y Hxy); auto.
    + destruct (decide (node_of g b)); [naive_solver|].
      right. by eapply node_of_index_lt.
    + naive_solver.
Qed.

Lemma remove_edge_mut_half_wf a b : preserves half_wf (remove_edge_mut a b).
Proof.
  intros g [Hl Hf]. split.
  - intros x. rewrite remove_edge_mut_adj. specialize (Hl x). naive_solver.
  - intros x y. rewrite !remove_edge_mut_adj. intros (Hxy & Hn1 & Hn2).
    destruct (Hf x y Hxy) as [Hyx|?]; [|by right]. left.
    split; [done|]. split.
    + intros [-> ->]. apply Hn2. eauto using adj_node_of.
    + intros (_ & -> & ->). by apply Hn1.
Qed.

Lemma apply_op_mut_half_wf o : preserves half_wf (apply_op_mut o).
Proof.
  destruct o as [|a b|a b]; simpl;
    [|apply add_edge_mut_half_wf|apply remove_edge_mut_half_wf].
  apply preserves_bind; [apply add_node_mut_half_wf|].
  intros _. apply preserves_ret.
Qed.

Lemma session_half_wf_aux os g : half_wf g → half_wf (session os g).
Proof. apply session_preserves, apply_op_mut_half_wf. Qed.

Lemma elem_of_half_edges g a b : b ∈ half_edges g a ↔ adj g a b ∧ ¬ adj g b a.
Proof.
  unfold half_edges. rewrite list_elem_of_filter, TBitSet.elem_of_iter.
  naive_solver.
Qed.

Lemma elem_of_full_edges g a b : (a, b) ∈ full_edges g ↔ adj g a b ∧ adj g b a.
Proof.
  unfold full_edges. rewrite list_elem_of_filter, elem_of_edges_of.
  naive_solver.
Qed.

(** Calls of [add_edge] from a node towards identifiers past the end of the
    table all panic, and each leaves its edge at the node. *)
Lemma session_half_edges a bs g :
  node_of g a → (∀ b, b ∈ bs → ¬ node_of g b) →
  (∀ x, node_of (session (AddEdge a <$> bs) g) x ↔ node_of g x) ∧
  (∀ x y, adj (session (AddEdge a <$> bs) g) x y ↔
            adj g x y ∨ (x = a ∧ y ∈ bs)).
Proof.
  revert g. induction bs as [|b bs IH]; intros g Ha Hbs.
  { split; [done|]. set_solver. }
  rewrite fmap_cons, session_cons. simpl.
  assert (¬ node_of g b) as Hb by (apply Hbs; left).
  destruct (IH (add_edge_mut a b g).2) as [Hn Hadj].
  { by apply add_edge_mut_node_of. }
  { intros b' Hb'. rewrite add_edge_mut_node_of. apply Hbs. by right. }
  split; [intros x; by rewrite Hn, add_edge_mut_node_of|].
  intros x y. rewrite Hadj, add_edge_mut_adj, elem_of_cons.
  assert (a ≠ b) by (by intros ->). naive_solver.
Qed.

(** Adding the node of index [n] to a table of [n] nodes, with its
    one-way edges. *)
Lemma session_node_calls g g0 n :
  forward g → (∀ x, node_of g0 x ↔ idx x < n) →
  (∀ x, node_of (session (node_calls g (of_idx n)) g0) x ↔ idx x < S n) ∧
  (∀ x y, adj (session (node_calls g (of_idx n)) g0) x y ↔
            adj g0 x y ∨ (idx x = n ∧ adj g x y ∧ ¬ adj g y x)).
Proof.
  intros Hf Hn. unfold node_calls. rewrite session_cons.
  change (apply_op_mut AddNode g0).2 with (add_node g0).1.
  set (a := of_idx n : NodeId).
  assert (∀ x, x = a ↔ idx x = n) as Hxa.
  { intros x. unfold a. split; [intros ->; apply idx_of_idx|].
    intros <-. by rewrite of_idx_idx. }
  assert ((add_node g0).2 = a) as Ha.
  { apply Hxa. rewrite add_node_idx. by apply node_of_length. }
  assert (∀ x, node_of (add_node g0).1 x ↔ idx x < S n) as Hn1.
  { intros x. rewrite add_node_node_of, Hn, Ha, Hxa. lia. }
  destruct (session_half_edges a (half_edges g a) (add_node g0).1)
    as [Hn2 Hadj2].
  { apply Hn1. rewrite (proj1 (Hxa a) eq_refl). lia. }
  { intros b [Hab Hba]%elem_of_half_edges. rewrite Hn1.
    destruct (Hf a b Hab) as [?|Hlt%index_lt_idx]; [done|].
    rewrite (proj1 (Hxa a) eq_refl) in Hlt. lia. }
  split; [intros x; by rewrite Hn2, Hn1|].
  intros x y. rewrite Hadj2, add_node_adj, elem_of_half_edges, <-Hxa.
  split; (intros [?|(-> & ? & ?)]; [by left|by right]).
Qed.

(** The first half of [session_script], up to the node of index [n]: the
    table has [n] nodes and the edges of [g] in one direction that leave
    one of them. *)
Lemma session_nodes g n :
  forward g →
  let g' := session ((of_idx <$> seq 0 n) ≫= node_calls g) new in
  (∀ x, node_of g' x ↔ idx x < n) ∧
  (∀ x y, adj g' x y ↔ idx x < n ∧ adj g x y ∧ ¬ adj g y x).
Proof.
  intros Hf. cbv zeta. induction n as [|n [Hn Hadj]].
  { split; intros x; [|intros y]; split; try lia.
    - by intros ?%node_of_new.
    - by intros ?%adj_new. }
  rewrite seq_S, fmap_app, bind_app, session_app.
  change ((of_idx <$> [0 + n]) ≫= node_calls g)
    with (node_calls g (of_idx n) ++ []).
  rewrite app_nil_r.
  destruct (session_node_calls g _ n Hf Hn) as [Hn1 Hadj1].
  split; [done|]. intros x y. rewrite Hadj1, Hadj. split.
  - intros [(? & ? & ?)|(? & ? & ?)]; split_and!; try done; lia.
  - intros (Hx & ? & ?).
    destruct (decide (idx x = n)); [right|left]; split_and!; try done; lia.
Qed.

(** Every graph whose one-way edges lead forward is the graph of a
    session. *)
Lemma session_script_graph g : half_wf g → session (session_script g) new = g.
Proof.
  intros [Hl Hf]. unfold session_script. rewrite session_app.
  destruct (session_nodes g (length (nodes g)) Hf) as [Hn Hadj].
  unfold TVec.index_iter. set (g1 := session _ new) in *.
  destruct (run_add_edges (full_edges g) g1) as (g2 & Hrun & Hn2 & Hadj2).
  { intros a b [Hab Hba]%elem_of_full_edges. rewrite !Hn. split_and!.
    - intros ->. by apply (Hl b).
    - by apply (adj_node_of g a b).
    - by apply (adj_node_of g b a). }
  rewrite (session_run _ _ _ Hrun). apply graph_ext.
  - intros x. by rewrite Hn2, Hn.
  - intros x y. rewrite Hadj2, Hadj, !elem_of_full_edges.
    pose proof (adj_node_of g x y). unfold node_of, TVec.in_bounds in *.
    destruct (decide (adj g y x)); naive_solver.
Qed.

End session.

(** ** A session that leaves the symmetric graphs *)

Section broken.
Context (g : Graph) (a : NodeId) (Ha : node_of g a).

Lemma broken_script_session :
  session (broken_script g a) g
  = (add_node (add_edge_mut a (add_node g).2 g).2).1.
Proof. unfold broken_script. by rewrite !session_cons. Qed.

Lemma broken_script_node_of x :
  node_of (session (broken_script g a) g) x ↔
    node_of g x ∨ x = (add_node g).2.
Proof.
  rewrite broken_script_session, add_node_node_of, add_edge_mut_node_of.
  enough ((add_node (add_edge_mut a (add_node g).2 g).2).2 = (add_node g).2)
    as -> by done.
  apply (inj idx). rewrite !add_node_idx. apply node_of_length. intros y.
  by rewrite add_edge_mut_node_of.
Qed.

Lemma broken_script_adj x y :
  adj (session (broken_script g a) g) x y ↔
    adj g x y ∨ (x = a ∧ y = (add_node g).2).
Proof.
  pose proof (add_node_fresh g) as Hb.
  rewrite broken_script_session, add_node_adj, add_edge_mut_adj.
  naive_solver.
Qed.

Lemma broken_script_bounded :
  bounded g → bounded (session (broken_script g a) g).
Proof.
  intros Hbd x y. rewrite broken_script_adj, broken_script_node_of.
  intros [Hxy|[_ ->]]; [left; by eapply Hbd|by right].
Qed.

(** The edge is recorded at [a] and not at the new node. *)
Lemma broken_script_not_symmetric :
  ¬ symmetric (session (broken_script g a) g).
Proof.
  intros Hs. pose proof (add_node_fresh g) as Hb.
  assert (adj (session (broken_script g a) g) (add_node g).2 a) as Hba.
  { apply Hs, broken_script_adj. by right. }
  apply broken_script_adj in Hba as [Hba%adj_node_of|[Heq _]]; [done|].
  by rewrite Heq in Hb.
Qed.

Lemma broken_script_invalid : ¬ valid (session (broken_script g a) g).
Proof. intros [_ Hs]. by apply broken_script_not_symmetric. Qed.

End broken.


(** ** Properties *)

(** C16 (invariant): the graphs held by a client that catches the panic of
    every call and goes on are exactly those without self-loops in which an
    edge recorded in one direction only leads from a node to a larger
    index.  Every call maintains this, returning or not, and
    [session_script] lists calls that end in any such graph. *)
Theorem session_half_wf (g : Graph) :
  (∃ os, session os new = g) ↔ half_wf g.
Proof.
  split.
  - intros [os <-]. apply session_half_wf_aux, wf_half_wf, new_wf.
  - intros Hg. exists (session_script g). by apply session_script_graph.
Qed.

(** C36 (error): a client that catches the panic of [add_edge(a, b)],
    called on a node [a] of a graph whose edges lead to nodes and on the
    identifier [b] that the next [add_node] returns, and then adds that
    node holds a graph with the old edges and an edge from [a] to [b] that
    is not recorded at [b].  No sequence of returning calls builds it;
    [check_invariants] and [minimal_coloring] panic on it with a failed
    assertion. *)
Theorem session_breaks_symmetry (g : Graph) (a : NodeId) :
  bounded g → node_of g a →
  let g' := session (broken_script g a) g in
  (∀ x, node_of g' x ↔ node_of g x ∨ x = (add_node g).2) ∧
  (∀ x y, adj g' x y ↔ adj g x y ∨ (x = a ∧ y = (add_node g).2)) ∧
  bounded g' ∧ ¬ symmetric g' ∧ ¬ reachable g' ∧
  check_invariants_mut g' = (Err AssertionFailed, g') ∧
  minimal_coloring_mut g' = (Err AssertionFailed, g').
Proof.
  intros Hbd Ha. cbv zeta.
  pose proof (broken_script_invalid g a Ha) as Hv.
  pose proof (check_invariants_invalid _ Hv) as Hc.
  split_and!.
  - by apply broken_script_node_of.
  - by apply broken_script_adj.
  - by apply broken_script_bounded.
  - by apply broken_script_not_symmetric.
  - by intros [? _]%reachable_wf_aux.
  - unfold check_invariants_mut, shared. by rewrite Hc.
  - unfold minimal_coloring_mut, shared, minimal_coloring. by rewrite Hc.
Qed.

Lemma session_breaks_symmetry_witness :
  let g := MkGraph [∅] in
  let g' := MkGraph [ {[MkNodeId 1]}; ∅ ] in
  session (broken_script g (MkNodeId 0)) g = g' ∧
  (∀ x, node_of g' x ↔ node_of g x ∨ x = MkNodeId 1) ∧
  (∀ x y, adj g' x y ↔ adj g x y ∨ (x = MkNodeId 0 ∧ y = MkNodeId 1)) ∧
  bounded g' ∧ ¬ symmetric g' ∧ ¬ reachable g' ∧
  check_invariants_mut g' = (Err AssertionFailed, g') ∧
  minimal_coloring_mut g' = (Err AssertionFailed, g').
Proof.
  intros g g'. split; [by vm_compute|].
  apply (session_breaks_symmetry g (MkNodeId 0)); [|compute_done].
  assert (valid g) as [Hb _] by compute_done. exact Hb.
Defined.
